(** * pnp-toolkit: the pixel transforms of [src/transform], the layouts and
    the autofill data

    A shallow embedding of [util.ts] ([setPixel], [getPixel], [hasColor]),
    [refill.ts] ([extendSides], [lerpSamples], [adjustedAngle],
    [refillCorner], [extendCorners]) and [pipeline.ts] ([COPIES],
    [addBleed], [addBleedSolid]), with the properties of the specification
    stated and settled on it; and of the regions and crops
    ([regionFromBounds], [regionsBetweenLines],
    [regionsBetweenSharedLines], [padRegion], [mergeRegions], [regionGrid],
    [crop], [cropMany]), of [preprocessCombat] of [main.ts], of
    [getRenames] and [cardNames] of [layout.ts], and of the autofill data
    ([autofillData], [validateAutofillData], [deduplicate],
    [mergeAutofillData]), with properties of the code.

    Conventions.
    - A JavaScript [number] is an IEEE 754 binary64 value: Rocq's primitive
      [float].  [undefined] is [None] in [value := option number].
    - A [Uint8ClampedArray] is a [list Z] of bytes; reading past its end
      gives [undefined], writing past its end does nothing, and a written
      number goes through [ToUint8Clamp].
    - An [ImageData] is a record of [width], [height] and [data].
    - The coordinates of a region, the indexes of files and the slot numbers
      of a layout are integers, [Z]; the slots of the autofill data, which
      are array indexes, are natural numbers.
    - What the host implements, [Math.atan2], [parseInt], the parsing of a
      CSS color and the names an empty object inherits, is a variable of
      the section that uses it. *)

From Stdlib Require Import ZArith Lia Bool List.
From Stdlib Require Import Floats.
From Stdlib Require Strings.String.
Import String.StringSyntax.
From stdpp Require Import base list.
Import ListNotations.

Delimit Scope string_scope with string.

Local Open Scope nat_scope.

(** ** JavaScript values *)

Module JS.

Definition number := float.

(** [None] is [undefined]. *)
Definition value := option number.

Definition undefined : value := None.

(** The number an integer literal or an array element denotes. *)
Definition of_Z (z : Z) : number :=
  if (z <? 0)%Z then PrimFloat.opp (PrimFloat.of_uint63 (Uint63.of_Z (- z)))
  else PrimFloat.of_uint63 (Uint63.of_Z z).

Definition of_nat (n : nat) : number := of_Z (Z.of_nat n).

Definition num (z : Z) : value := Some (of_Z z).

(** ToNumber on a value that is a number or [undefined]. *)
Definition ToNumber (v : value) : number :=
  match v with
  | Some x => x
  | None => PrimFloat.nan
  end.

(** [a[i]] on an ordinary array, for an integer index. *)
Definition index {A : Type} (a : list A) (i : Z) : option A :=
  if (i <? 0)%Z then None else a !! Z.to_nat i.

(** [a ?? b] *)
Definition nullish {A : Type} (a b : option A) : option A :=
  match a with
  | Some _ => a
  | None => b
  end.

(** [Array.prototype.find] and [findLast]. *)
Definition find {A : Type} (p : A -> bool) (a : list A) : option A :=
  List.find p a.

Definition findLast {A : Type} (p : A -> bool) (a : list A) : option A :=
  List.find p (rev a).

(** [a === b] on values that are numbers or [undefined]. *)
Definition strict_eq (a b : value) : bool :=
  match a, b with
  | None, None => true
  | Some x, Some y => PrimFloat.eqb x y
  | _, _ => false
  end.

(** The largest integer [k <= n] with [k <= x], for [0 <= x]: the floor of an
    [x] already clamped to [0, 255] when [n = 255]. *)
Fixpoint floor_upto (n : nat) (x : number) : Z :=
  match n with
  | O => 0%Z
  | S k => if PrimFloat.leb (of_Z (Z.of_nat n)) x then Z.of_nat n
           else floor_upto k x
  end.

(** ECMAScript's ToUint8Clamp: [undefined] and NaN become 0, the number is
    clamped to [0, 255] and rounded to the nearest integer, ties to even. *)
Definition ToUint8Clamp (v : value) : Z :=
  match v with
  | None => 0%Z
  | Some x =>
      if PrimFloat.is_nan x then 0%Z
      else if PrimFloat.leb x (of_Z 0) then 0%Z
      else if PrimFloat.leb (of_Z 255) x then 255%Z
      else
        let f := floor_upto 255 x in
        let half := PrimFloat.add (of_Z f) 0.5%float in
        if PrimFloat.ltb x half then f
        else if PrimFloat.ltb half x then (f + 1)%Z
        else if Z.even f then f else (f + 1)%Z
  end.

(** A [Uint8ClampedArray]. *)
Abbreviation Uint8ClampedArray := (list Z) (only parsing).

(** [a[i]] *)
Definition get (a : Uint8ClampedArray) (i : nat) : value :=
  match a !! i with
  | Some b => num b
  | None => undefined
  end.

(** [a[i] = v]: stdpp's insert leaves the list alone when [i] is out of
    range, as the typed array does. *)
Definition set (a : Uint8ClampedArray) (i : nat) (v : value)
  : Uint8ClampedArray :=
  <[ i := ToUint8Clamp v ]> a.

End JS.

(** ** util.ts *)

Record ImageData := mkImageData {
  width : nat;
  height : nat;
  data : JS.Uint8ClampedArray
}.

(** [type PixelData = [number, number, number, number]]; an element read past
    the end of the array is [undefined]. *)
Definition PixelData : Type := JS.value * JS.value * JS.value * JS.value.

Definition PIXEL_SIZE : nat := 4.

Definition setPixel (image : ImageData) (x y : nat) (r g b a : JS.value)
  : ImageData :=
  let index := PIXEL_SIZE * (x + y * width image) in
  let d0 := JS.set (data image) index r in
  let d1 := JS.set d0 (index + 1) g in
  let d2 := JS.set d1 (index + 2) b in
  let d3 := JS.set d2 (index + 3) a in
  mkImageData (width image) (height image) d3.

Definition getPixel (pixels : JS.Uint8ClampedArray) (width x y : nat)
  : PixelData :=
  let index := PIXEL_SIZE * (x + y * width) in
  (JS.get pixels index,
   JS.get pixels (index + 1),
   JS.get pixels (index + 2),
   JS.get pixels (index + 3)).

Definition hasColor (pixels : JS.Uint8ClampedArray) (width x y : nat)
  (color : PixelData) : bool :=
  let '(a0, a1, a2, a3) := getPixel pixels width x y in
  let '(c0, c1, c2, c3) := color in
  JS.strict_eq a0 c0 && JS.strict_eq a1 c1
  && JS.strict_eq a2 c2 && JS.strict_eq a3 c3.

(** ** refill.ts: extendSides *)

(** [for (let i = from; i < to; i += 1) body], threading the state the body
    updates. *)
Definition for_range {S : Type} (from to : nat) (body : nat -> S -> S)
  (s : S) : S :=
  fold_left (fun acc i => body i acc) (seq from (to - from)) s.

(** The body of the two nested loops of [extendSides] at [(x, y)].  The
    control pixel is read with the SOURCE's width as the row stride, as the
    code does. *)
Definition extendSides_body (control : ImageData) (x y : nat)
  (source : ImageData) : ImageData :=
  let width := width source in
  let height := height source in
  let '(cr, cg, cb, ca) := getPixel (data control) width x y in
  if JS.strict_eq ca (JS.num 0) then source
  else
    let '(r, g, b, a) := getPixel (data source) width x y in
    if JS.strict_eq cr (JS.num 255) then
      for_range 0 x (fun currentX s => setPixel s currentX y r g b a) source
    else if JS.strict_eq cg (JS.num 255) then
      for_range 0 y (fun currentY s => setPixel s x currentY r g b a) source
    else if JS.strict_eq cb (JS.num 255) then
      for_range (x + 1) width
        (fun currentX s => setPixel s currentX y r g b a) source
    else
      for_range (y + 1) height
        (fun currentY s => setPixel s x currentY r g b a) source.

Definition extendSides (source control : ImageData) : ImageData :=
  for_range 0 (width control) (fun x =>
    for_range 0 (height control) (fun y =>
      extendSides_body control x y)) source.

(** ** refill.ts: refillCorner *)

Definition Math_PI : JS.number := 0x1.921fb54442d18p+1%float.

Definition TWO_PI : JS.number := (Math_PI * JS.of_Z 2)%float.

Definition CENTER_COLOR : PixelData :=
  (JS.num 0, JS.num 255, JS.num 0, JS.num 255).
Definition EDGE_COLOR : PixelData :=
  (JS.num 255, JS.num 0, JS.num 255, JS.num 255).
Definition TARGET_COLOR : PixelData :=
  (JS.num 0, JS.num 0, JS.num 0, JS.num 255).

(** [interface Sample].  A sample is a JavaScript object, and [lerpSamples]
    compares two of them with [===], by identity: [ref] is that identity,
    the position at which the object was pushed on [unsortedSamples]. *)
Module Sample.
Record t := mk {
  ref : nat;
  angle : JS.number;
  color : PixelData
}.
End Sample.

(** [before === after] on samples that may be [undefined]. *)
Definition same_sample (before after : option Sample.t) : bool :=
  match before, after with
  | None, None => true
  | Some b, Some a => Nat.eqb (Sample.ref b) (Sample.ref a)
  | _, _ => false
  end.

Inductive Error := TypeError.

(** How a call ends: it returns, the process exits ([process.exit]), or an
    exception leaves it; [heap] is what the pixel array shared by
    [sourcePixels] and [result] holds at that moment. *)
Inductive outcome :=
| Returned (result : ImageData)
| Exited (code : Z)
| Threw (e : Error) (heap : JS.Uint8ClampedArray).

Definition lerpSamples (before after : option Sample.t) (angle : JS.number)
  : Error + PixelData :=
  if same_sample before after then
    match before with
    | Some b => inr (Sample.color b)
    | None => inl TypeError
    end
  else
    match after, before with
    | Some a, Some b =>
        let distance := (Sample.angle a - Sample.angle b)%float in
        let beforeInfluence :=
          ((Sample.angle a - angle) / distance)%float in
        let afterInfluence :=
          ((angle - Sample.angle b) / distance)%float in
        let '(b0, b1, b2, b3) := Sample.color b in
        let '(a0, a1, a2, a3) := Sample.color a in
        let mix (cb ca : JS.value) : JS.value :=
          Some (beforeInfluence * JS.ToNumber cb
                + afterInfluence * JS.ToNumber ca)%float in
        inr (mix b0 a0, mix b1 a1, mix b2 a2, mix b3 a3)
    | _, _ => inl TypeError
    end.

(** Adjust angle to always be in the positive/negative range for the
    top/bottom halves. *)
Definition adjustedAngle (bottomHalf : bool) (rawAngle : JS.number)
  : JS.number :=
  if bottomHalf then
    if (rawAngle <=? JS.of_Z 0)%float then rawAngle
    else (rawAngle - TWO_PI)%float
  else
    if (JS.of_Z 0 <=? rawAngle)%float then rawAngle
    else (rawAngle + TWO_PI)%float.

(** lodash's [sortBy(samples, s => s.angle)]: a stable ascending sort. Each
    element is inserted behind the elements that are not greater than it. *)
Fixpoint insert_sample (s : Sample.t) (l : list Sample.t) : list Sample.t :=
  match l with
  | [] => [s]
  | h :: t =>
      if (Sample.angle s <? Sample.angle h)%float then s :: h :: t
      else h :: insert_sample s t
  end.

Definition sortBy (l : list Sample.t) : list Sample.t :=
  fold_left (fun acc s => insert_sample s acc) l [].

Section RefillCorner.

(** [Math.atan2], which the host implements. *)
Variable atan2 : JS.number -> JS.number -> JS.number.

(** [adjustedAngle(bottomHalf, Math.atan2(centerY - y, x - centerX))] *)
Definition pixelAngle (bottomHalf : bool) (centerX centerY x y : nat)
  : JS.number :=
  adjustedAngle bottomHalf
    (atan2 (JS.of_nat centerY - JS.of_nat y)%float
           (JS.of_nat x - JS.of_nat centerX)%float).

(** The first pair of loops: [centerX] and [centerY] after the scan. *)
Definition findCenter (controlPixels : ImageData) : option (nat * nat) :=
  let height := height controlPixels in
  let width := width controlPixels in
  for_range 0 height (fun y =>
    for_range 0 width (fun x center =>
      if negb (hasColor (data controlPixels) width x y CENTER_COLOR)
      then center
      else Some (x, y))) None.

(** The second pair of loops: [unsortedSamples]. *)
Definition collectSamples (sourcePixels controlPixels : ImageData)
  (bottomHalf : bool) (centerX centerY : nat) : list Sample.t :=
  let height := height controlPixels in
  let width := width controlPixels in
  for_range 0 height (fun y =>
    for_range 0 width (fun x unsortedSamples =>
      if negb (hasColor (data controlPixels) width x y EDGE_COLOR)
      then unsortedSamples
      else
        let color := getPixel (data sourcePixels) width x y in
        let angle := pixelAngle bottomHalf centerX centerY x y in
        unsortedSamples ++ [Sample.mk (length unsortedSamples) angle color]))
    [].

Definition sampleBefore (samples : list Sample.t) (angle : JS.number)
  : option Sample.t :=
  JS.nullish
    (JS.findLast (fun s => (Sample.angle s <=? angle)%float) samples)
    (JS.index samples 0).

Definition sampleAfter (samples : list Sample.t) (angle : JS.number)
  : option Sample.t :=
  JS.nullish
    (JS.find (fun s => (angle <=? Sample.angle s)%float) samples)
    (JS.index samples (Z.of_nat (length samples) - 1)).

(** The body of the third pair of loops at [(x, y)]; once an exception has
    been thrown ([inl]) the remaining iterations do not run. *)
Definition refill_body (controlPixels : ImageData) (bottomHalf : bool)
  (centerX centerY : nat) (samples : list Sample.t) (x y : nat)
  (st : Error * JS.Uint8ClampedArray + ImageData)
  : Error * JS.Uint8ClampedArray + ImageData :=
  match st with
  | inl e => inl e
  | inr result =>
      let width := width controlPixels in
      if negb (hasColor (data controlPixels) width x y TARGET_COLOR)
      then inr result
      else
        let angle := pixelAngle bottomHalf centerX centerY x y in
        match lerpSamples (sampleBefore samples angle)
                          (sampleAfter samples angle) angle with
        | inl e => inl (e, data result)
        | inr (r, g, b, a) => inr (setPixel result x y r g b a)
        end
  end.

(** [new ImageData(sourcePixels.data, width, height)] wraps the same array
    under the control quadrant's size; [extendCorners] cuts both quadrants
    with the same rectangle, so the two sizes agree there.  The three pairs
    of loops follow; [console.warn] prints and is left out. *)
Definition refillCorner (sourcePixels controlPixels : ImageData)
  (bottomHalf : bool) : outcome :=
  let height := height controlPixels in
  let width := width controlPixels in
  let result := mkImageData width height (data sourcePixels) in
  match findCenter controlPixels with
  | None => Exited 1
  | Some (centerX, centerY) =>
      let unsortedSamples :=
        collectSamples sourcePixels controlPixels bottomHalf centerX centerY in
      let samples := sortBy unsortedSamples in
      match
        for_range 0 height (fun y =>
          for_range 0 width (fun x =>
            refill_body controlPixels bottomHalf centerX centerY samples x y))
          (inr result)
      with
      | inl (e, heap) => Threw e heap
      | inr result => Returned result
      end
  end.

End RefillCorner.

(** An [atan2] on the eight compass directions.  On the positive x axis it
    returns the [+0] that ECMAScript prescribes for [Math.atan2(+0, x)] with
    [x > 0]; on the other half-axes it returns [Math_PI] and the halves of
    it, and inside a quadrant the angle of the quadrant's diagonal.  It
    serves to run [refillCorner] on control images whose markers lie on the
    row through the center. *)
Definition atan2_compass (y x : JS.number) : JS.number :=
  let zero := JS.of_Z 0 in
  let quarter := (Math_PI / JS.of_Z 4)%float in
  if (y =? zero)%float then
    if (x <? zero)%float then Math_PI else zero
  else if (zero <? y)%float then
    if (x =? zero)%float then (Math_PI / JS.of_Z 2)%float
    else if (zero <? x)%float then quarter
    else (JS.of_Z 3 * quarter)%float
  else
    if (x =? zero)%float then (- (Math_PI / JS.of_Z 2))%float
    else if (zero <? x)%float then (- quarter)%float
    else (- (JS.of_Z 3 * quarter))%float.

(** ** The canvas the pipeline draws on

    [pipeline.ts] paints through the [canvas] package.  What [addBleed] uses
    of it is modelled here: a bitmap addressed by device pixel, a current
    transformation that is a scaling by [1] or [-1] on each axis followed by
    a whole-pixel translation, and painting one source pixel onto one device
    pixel.

    The bitmap of a canvas holds colors premultiplied by alpha, and
    [drawImage] composites source-over.  So an opaque pixel goes through
    [putImageData], [drawImage] and [getImageData] unchanged and replaces
    what it is painted on, while a fully transparent pixel is held as
    transparent black and leaves what it is painted on as it was.  The
    library's rounding on partially transparent pixels is not fixed here: the
    interface [Compositing] states the behaviour at the two ends of the alpha
    range only. *)

Definition RGBA : Type := Z * Z * Z * Z.

Definition transparent : RGBA := (0, 0, 0, 0)%Z.

Definition alpha (p : RGBA) : Z := let '(_, _, _, a) := p in a.

Class Compositing := {
  (** what the bitmap keeps of a pixel written by [putImageData] and hands
      back through [getImageData] (the bitmap is alpha-premultiplied) *)
  store : RGBA -> RGBA;
  (** source-over: a source pixel painted on a destination pixel *)
  over : RGBA -> RGBA -> RGBA;
  store_opaque : forall p, alpha p = 255%Z -> store p = p;
  store_clear : forall p, alpha p = 0%Z -> store p = transparent;
  over_opaque : forall s d, alpha s = 255%Z -> over s d = s;
  over_clear : forall d, over transparent d = d
}.

Record Canvas := mkCanvas {
  canvas_width : nat;
  canvas_height : nat;
  bitmap : Z -> Z -> RGBA
}.

(** The current transformation [x' = scale_x * x + shift_x],
    [y' = scale_y * y + shift_y]. *)
Record Matrix := mkMatrix {
  scale_x : Z;
  scale_y : Z;
  shift_x : Z;
  shift_y : Z
}.

Record Context2D := mkContext {
  surface : Canvas;
  transform : Matrix;
  saved : list Matrix
}.

Definition createCanvas (w h : nat) : Canvas :=
  mkCanvas w h (fun _ _ => transparent).

Definition getContext (c : Canvas) : Context2D :=
  mkContext c (mkMatrix 1 1 0 0) [].

Definition save (ctx : Context2D) : Context2D :=
  mkContext (surface ctx) (transform ctx) (transform ctx :: saved ctx).

Definition restore (ctx : Context2D) : Context2D :=
  match saved ctx with
  | [] => ctx
  | m :: rest => mkContext (surface ctx) m rest
  end.

Definition translate (ctx : Context2D) (x y : Z) : Context2D :=
  let m := transform ctx in
  mkContext (surface ctx)
    (mkMatrix (scale_x m) (scale_y m)
       (shift_x m + scale_x m * x) (shift_y m + scale_y m * y))
    (saved ctx).

Definition scale (ctx : Context2D) (x y : Z) : Context2D :=
  let m := transform ctx in
  mkContext (surface ctx)
    (mkMatrix (scale_x m * x) (scale_y m * y) (shift_x m) (shift_y m))
    (saved ctx).

Definition inside (c : Canvas) (X Y : Z) : bool :=
  (0 <=? X)%Z && (X <? Z.of_nat (canvas_width c))%Z
  && (0 <=? Y)%Z && (Y <? Z.of_nat (canvas_height c))%Z.

(** The pixel of an [ImageData] at [(x, y)], as the library reads it. *)
Definition image_pixel (image : ImageData) (x y : Z) : RGBA :=
  let index := PIXEL_SIZE * (Z.to_nat x + Z.to_nat y * width image) in
  (nth index (data image) 0%Z,
   nth (index + 1) (data image) 0%Z,
   nth (index + 2) (data image) 0%Z,
   nth (index + 3) (data image) 0%Z).

(** The column (or row) of the image whose unit square the transformation
    [s * u + t] with [s] in [{1, -1}] carries onto the device column (row)
    [X], when the image is drawn at offset [d]. *)
Definition preimage (s t d X : Z) : Z :=
  if (0 <? s)%Z then (X - t - d)%Z else (t - X - 1 - d)%Z.

Section Canvas2D.

Context `{Compositing}.

(** [ctx.putImageData(image, dx, dy)]: the pixels replace the bitmap's,
    whatever the transformation. *)
Definition putImageData (ctx : Context2D) (image : ImageData) (dx dy : Z)
  : Context2D :=
  let c := surface ctx in
  let paint X Y :=
    let x := (X - dx)%Z in
    let y := (Y - dy)%Z in
    if inside c X Y && (0 <=? x)%Z && (x <? Z.of_nat (width image))%Z
       && (0 <=? y)%Z && (y <? Z.of_nat (height image))%Z
    then store (image_pixel image x y)
    else bitmap c X Y in
  mkContext (mkCanvas (canvas_width c) (canvas_height c) paint)
    (transform ctx) (saved ctx).

(** [ctx.drawImage(image, dx, dy)] under the current transformation: each
    device pixel that a pixel of [image] lands on is composited with it. *)
Definition drawImage (ctx : Context2D) (image : Canvas) (dx dy : Z)
  : Context2D :=
  let c := surface ctx in
  let m := transform ctx in
  let paint X Y :=
    let x := preimage (scale_x m) (shift_x m) dx X in
    let y := preimage (scale_y m) (shift_y m) dy Y in
    if inside c X Y && inside image x y
    then over (bitmap image x y) (bitmap c X Y)
    else bitmap c X Y in
  mkContext (mkCanvas (canvas_width c) (canvas_height c) paint)
    (transform ctx) (saved ctx).

Definition channel (p : RGBA) (c : nat) : Z :=
  let '(r, g, b, a) := p in
  match c with
  | 0 => r
  | 1 => g
  | 2 => b
  | _ => a
  end.

(** [ctx.getImageData(sx, sy, sw, sh)]: the rows of the rectangle, each pixel
    as four bytes; pixels outside the canvas are transparent black. *)
Definition getImageData (ctx : Context2D) (sx sy : Z) (sw sh : nat)
  : ImageData :=
  let c := surface ctx in
  let byte k :=
    let X := (sx + Z.of_nat ((k / PIXEL_SIZE) mod sw))%Z in
    let Y := (sy + Z.of_nat ((k / PIXEL_SIZE) / sw))%Z in
    channel (if inside c X Y then bitmap c X Y else transparent)
            (k mod PIXEL_SIZE) in
  mkImageData sw sh (map byte (seq 0 (PIXEL_SIZE * (sw * sh)))).

(** ** pipeline.ts: addBleed *)

Record Copy := mkCopy {
  scaleX : Z;
  scaleY : Z;
  shiftX : Z;
  shiftY : Z
}.

Definition COPIES : list Copy :=
  [ mkCopy (-1) 1 0 0;     (* Left *)
    mkCopy (-1) 1 2 0;     (* Right *)
    mkCopy 1 (-1) 0 0;     (* Top *)
    mkCopy 1 (-1) 0 2;     (* Bottom *)
    mkCopy (-1) (-1) 0 0;  (* Top left *)
    mkCopy (-1) (-1) 2 0;  (* Top right *)
    mkCopy (-1) (-1) 0 2;  (* Bottom left *)
    mkCopy (-1) (-1) 2 2   (* Bottom right *)
  ]%Z.

(** Adds bleed to an image by creating mirrored duplicates around its
    edges.  A canvas and its context are one object in the code: after
    [putImageData], [sourceCanvas] is the surface of [sourceCtx]. *)
Definition addBleed (source : ImageData) (padding : nat) : ImageData :=
  let width := width source in
  let height := height source in
  let paddedWidth := width + 2 * padding in
  let paddedHeight := height + 2 * padding in
  let canvas := createCanvas paddedWidth paddedHeight in
  let ctx := getContext canvas in
  let sourceCanvas := createCanvas width height in
  let sourceCtx := getContext sourceCanvas in
  let sourceCtx := putImageData sourceCtx source 0 0 in
  let sourceCanvas := surface sourceCtx in
  let ctx :=
    drawImage ctx sourceCanvas (Z.of_nat padding) (Z.of_nat padding) in
  let ctx :=
    fold_left (fun ctx copy =>
      let ctx := save ctx in
      let ctx :=
        translate ctx
          (shiftX copy * Z.of_nat width + Z.of_nat padding)
          (shiftY copy * Z.of_nat height + Z.of_nat padding) in
      let ctx := scale ctx (scaleX copy) (scaleY copy) in
      let ctx := drawImage ctx sourceCanvas 0 0 in
      restore ctx) COPIES ctx in
  getImageData ctx 0 0 paddedWidth paddedHeight.

End Canvas2D.

(** ** Vocabulary: images and pixels *)

(** What an element of a [Uint8ClampedArray] can be. *)
Definition is_byte (b : Z) : bool := (0 <=? b)%Z && (b <? 256)%Z.

(** An image whose array has four bytes for each of its [width * height]
    pixels, as every [ImageData] the canvas hands out. *)
Definition well_formed (image : ImageData) : bool :=
  Nat.eqb (length (data image)) (PIXEL_SIZE * (width image * height image))
  && forallb is_byte (data image).

(** The four bytes of the pixel at [(x, y)], where the array has them. *)
Definition bytes_at (pixels : JS.Uint8ClampedArray) (width x y : nat)
  : option Z * option Z * option Z * option Z :=
  let index := PIXEL_SIZE * (x + y * width) in
  (pixels !! index, pixels !! (index + 1),
   pixels !! (index + 2), pixels !! (index + 3)).

(** A byte of the array as the number [getPixel] hands out. *)
Definition as_value (b : option Z) : JS.value :=
  match b with
  | Some z => JS.num z
  | None => JS.undefined
  end.

(** The channel that [setPixel] writes at offset [k] of the pixel. *)
Definition channel_of (r g b a : JS.value) (k : nat) : JS.value :=
  match k with
  | 0 => r
  | 1 => g
  | 2 => b
  | _ => a
  end.

(** Painting one color on a list of pixels. *)
Definition paint (r g b a : JS.value) (pts : list (nat * nat))
  (s : ImageData) : ImageData :=
  fold_left (fun s p => setPixel s (fst p) (snd p) r g b a) pts s.

(** Painting on each pixel of a list the color [c] assigns to it. *)
Definition plot (c : nat * nat -> PixelData) (pts : list (nat * nat))
  (s : ImageData) : ImageData :=
  fold_left (fun s p =>
    let '(r, g, b, a) := c p in setPixel s (fst p) (snd p) r g b a) pts s.

(** What [setPixel] leaves in the array for a color. *)
Definition clamped (c : PixelData)
  : option Z * option Z * option Z * option Z :=
  let '(r, g, b, a) := c in
  (Some (JS.ToUint8Clamp r), Some (JS.ToUint8Clamp g),
   Some (JS.ToUint8Clamp b), Some (JS.ToUint8Clamp a)).

(** The coordinates two nested loops visit, outer loop over [0 .. n), inner
    over [0 .. m), as pairs (outer, inner). *)
Definition grid (n m : nat) : list (nat * nat) :=
  flat_map (fun i => map (fun j => (i, j)) (seq 0 m)) (seq 0 n).

(** ** Vocabulary of the edge extender *)

(** The directions of the directional edge extender. *)
Inductive Direction := Left | Up | Right | Down.

(** The directive a control pixel encodes: none when its alpha is 0,
    otherwise the first match of red, green, blue at 255, otherwise down. *)
Definition decode (c : PixelData) : option Direction :=
  let '(cr, cg, cb, ca) := c in
  if JS.strict_eq ca (JS.num 0) then None
  else if JS.strict_eq cr (JS.num 255) then Some Left
  else if JS.strict_eq cg (JS.num 255) then Some Up
  else if JS.strict_eq cb (JS.num 255) then Some Right
  else Some Down.

(** [(x', y')] lies in the half-row or half-column that a directive at the
    anchor [(x, y)] overwrites; the anchor itself never does. *)
Definition targeted (d : Direction) (x y x' y' : nat) : bool :=
  match d with
  | Left => Nat.eqb y' y && Nat.ltb x' x
  | Up => Nat.eqb x' x && Nat.ltb y' y
  | Right => Nat.eqb y' y && Nat.ltb x x'
  | Down => Nat.eqb x' x && Nat.ltb y y'
  end.

(** The directive that [extendSides] decodes at [(x, y)]: it reads the
    control array with the row stride [stride], the source's width. *)
Definition directive_at (stride : nat) (control : ImageData) (x y : nat)
  : option Direction :=
  decode (getPixel (data control) stride x y).

(** The pixels the loop of a directive writes, in the order it writes them,
    in an image of [w] by [h] pixels. *)
Definition target_points (d : Direction) (w h x y : nat)
  : list (nat * nat) :=
  match d with
  | Left => map (fun currentX => (currentX, y)) (seq 0 (x - 0))
  | Up => map (fun currentY => (x, currentY)) (seq 0 (y - 0))
  | Right => map (fun currentX => (currentX, y)) (seq (x + 1) (w - (x + 1)))
  | Down => map (fun currentY => (x, currentY)) (seq (y + 1) (h - (y + 1)))
  end.

(** The direction of an opaque control pixel, from its bytes. *)
Definition direction_of (cr cg cb : Z) : Direction :=
  if (cr =? 255)%Z then Left
  else if (cg =? 255)%Z then Up
  else if (cb =? 255)%Z then Right
  else Down.

(** [extendSides] as one loop over the anchors it visits. *)
Definition run (control : ImageData) (pts : list (nat * nat))
  (source : ImageData) : ImageData :=
  fold_left (fun acc p => extendSides_body control (fst p) (snd p) acc)
    pts source.

(** The anchor of the last directive of [pts] that overwrites [(x', y')]. *)
Fixpoint last_cover (stride : nat) (control : ImageData)
  (pts : list (nat * nat)) (x' y' : nat) : option (nat * nat) :=
  match pts with
  | [] => None
  | p :: rest =>
      match last_cover stride control rest x' y' with
      | Some a => Some a
      | None =>
          match directive_at stride control (fst p) (snd p) with
          | Some d => if targeted d (fst p) (snd p) x' y' then Some p else None
          | None => None
          end
      end
  end.

(** No anchor of [pts] lies in the half-row or half-column that a directive
    of [pts] overwrites. *)
Definition apart (stride : nat) (control : ImageData)
  (pts : list (nat * nat)) : bool :=
  forallb (fun a =>
    forallb (fun p =>
      match directive_at stride control (fst a) (snd a),
            directive_at stride control (fst p) (snd p) with
      | Some _, Some d => negb (targeted d (fst p) (snd p) (fst a) (snd a))
      | _, _ => true
      end) pts) pts.

Definition anchors_apart (source control : ImageData) : bool :=
  apart (width source) control (grid (width control) (height control)).

(** ** Concrete images *)

(** A 2 by 2 source with four different opaque colors. *)
Definition four_colors : ImageData :=
  mkImageData 2 2
    [1; 1; 1; 255;  2; 2; 2; 255;
     3; 3; 3; 255;  4; 4; 4; 255]%Z.

(** Control: black (down) at (0, 0), red (left) at (1, 0), the second row
    transparent.  The left directive overwrites the anchor of the down
    directive. *)
Definition down_then_left : ImageData :=
  mkImageData 2 2
    [0; 0; 0; 255;  255; 0; 0; 255;
     0; 0; 0; 0;    0; 0; 0; 0]%Z.

(** Control: red (left) at (1, 0) and blue (right) at (0, 1). *)
Definition left_and_right : ImageData :=
  mkImageData 2 2
    [0; 0; 0; 0;      255; 0; 0; 255;
     0; 0; 255; 255;  0; 0; 0; 0]%Z.

(** A 2 by 3 source with six different opaque colors. *)
Definition six_colors : ImageData :=
  mkImageData 2 3
    [1; 1; 1; 255;  2; 2; 2; 255;
     3; 3; 3; 255;  4; 4; 4; 255;
     5; 5; 5; 255;  6; 6; 6; 255]%Z.

(** A 1 by 2 control image, narrower than [six_colors], whose two pixels are
    transparent: it holds no directive. *)
Definition clear_column : ImageData :=
  mkImageData 1 2 [0; 0; 0; 0;  0; 0; 0; 0]%Z.

(** The loops of [extendSides] reach the anchor [(x1, y1)] before the
    anchor [(x2, y2)]: the outer loop runs over the columns, the inner one
    over the rows. *)
Definition visited_before (x1 y1 x2 y2 : nat) : Prop :=
  x1 < x2 \/ (x1 = x2 /\ y1 < y2).

(** The control image holds at the anchor [(px, py)] a directive that
    overwrites the pixel [(x', y')]. *)
Definition overwrites (stride : nat) (control : ImageData)
  (px py x' y' : nat) : Prop :=
  px < width control /\ py < height control
  /\ exists d, directive_at stride control px py = Some d
       /\ targeted d px py x' y' = true.

(** Three opaque pixels in a row. *)
Definition three_in_row : ImageData :=
  mkImageData 3 1 [1; 1; 1; 255;  2; 2; 2; 255;  3; 3; 3; 255]%Z.

(** Control: nothing at (0, 0), red (left) at (1, 0) and at (2, 0).  The
    second directive overwrites the anchor of the first and the pixel the
    first has written. *)
Definition two_lefts : ImageData :=
  mkImageData 3 1 [0; 0; 0; 0;  255; 0; 0; 255;  255; 0; 0; 255]%Z.

(** ** Vocabulary of the corner extender *)

(** The control pixel at [(x, y)] carries the marker [color]. *)
Definition is_marker (control : ImageData) (color : PixelData) (x y : nat)
  : bool :=
  hasColor (data control) (width control) x y color.

(** [(x', y')] is visited no later than [(x, y)] by a row-major scan. *)
Definition scanned_before (x' y' x y : nat) : Prop :=
  y' < y \/ (y' = y /\ x' <= x).

(** A loop body that keeps the last value [f] offers. *)
Definition keep_last {B : Type} (f : nat -> option B) (i : nat)
  (acc : option B) : option B :=
  match f i with
  | Some b => Some b
  | None => acc
  end.

(** The center marker a scan of row [y] ends with. *)
Definition row_center (control : ImageData) (y : nat) : option (nat * nat) :=
  for_range 0 (width control)
    (keep_last (fun x =>
       if is_marker control CENTER_COLOR x y then Some (x, y) else None))
    None.

(** The target pixels [(x, y)] of a control quadrant, in scan order. *)
Definition targets (control : ImageData) : list (nat * nat) :=
  map (fun p => (snd p, fst p))
    (List.filter (fun p => is_marker control TARGET_COLOR (snd p) (fst p))
       (grid (height control) (width control))).

(** The color the third loop writes for a target angle; the exceptional case
    does not arise when there is a sample. *)
Definition fill_color (samples : list Sample.t) (angle : JS.number)
  : PixelData :=
  match lerpSamples (sampleBefore samples angle) (sampleAfter samples angle)
          angle with
  | inr c => c
  | inl _ => (JS.undefined, JS.undefined, JS.undefined, JS.undefined)
  end.

(** ** Concrete quadrants *)

(** A row of four opaque source pixels. *)
Definition row_of_four : ImageData :=
  mkImageData 4 1
    [9; 9; 9; 255;  10; 20; 30; 255;  40; 50; 60; 255;  7; 7; 7; 255]%Z.

(** Control row: CENTER, EDGE, EDGE, TARGET.  All three lie on the ray from
    the center to the right, at the raw angle [+0]. *)
Definition two_edges_one_ray : ImageData :=
  mkImageData 4 1
    [0; 255; 0; 255;  255; 0; 255; 255;  255; 0; 255; 255;  0; 0; 0; 255]%Z.

(** Control row: CENTER, nothing, nothing, TARGET; no EDGE. *)
Definition center_and_target : ImageData :=
  mkImageData 4 1
    [0; 255; 0; 255;  0; 0; 0; 0;  0; 0; 0; 0;  0; 0; 0; 255]%Z.

(** Control row: nothing, EDGE, nothing, TARGET; no CENTER. *)
Definition edge_and_target : ImageData :=
  mkImageData 4 1
    [0; 0; 0; 0;  255; 0; 255; 255;  0; 0; 0; 0;  0; 0; 0; 255]%Z.

(** Control row: CENTER, TARGET, CENTER, EDGE: two center markers; seen from
    the second one the target lies at the raw angle pi and the edge at 0. *)
Definition two_centers : ImageData :=
  mkImageData 4 1
    [0; 255; 0; 255;  0; 0; 0; 255;  0; 255; 0; 255;  255; 0; 255; 255]%Z.

(** The order of a stable sort by angle: [a] has the smaller angle, or the
    same angle and was pushed before [b]. *)
Definition sample_lt (a b : Sample.t) : Prop :=
  (Sample.angle a <? Sample.angle b)%float = true
  \/ ((Sample.angle a =? Sample.angle b)%float = true
      /\ Sample.ref a < Sample.ref b).

(** [low] is the sample of the smallest angle, and of the samples of that
    angle the one pushed first. *)
Definition smallest_sample (samples : list Sample.t) (low : Sample.t)
  : Prop :=
  In low samples /\ forall s, In s samples -> s = low \/ sample_lt low s.

(** [high] is the sample of the largest angle, and of the samples of that
    angle the one pushed last. *)
Definition largest_sample (samples : list Sample.t) (high : Sample.t)
  : Prop :=
  In high samples /\ forall s, In s samples -> s = high \/ sample_lt s high.

(** A 3 by 3 source with nine different opaque colors. *)
Definition nine_colors : ImageData :=
  mkImageData 3 3
    [10; 1; 1; 255;  20; 1; 1; 255;  30; 1; 1; 255;
     40; 2; 2; 255;  50; 2; 2; 255;  60; 2; 2; 255;
     70; 3; 3; 255;  80; 3; 3; 255;  90; 3; 3; 255]%Z.

(** A 3 by 3 control quadrant: EDGE at the two upper corners, the CENTER in
    the middle and TARGET on both sides of it.  Seen from the center the
    left EDGE, which the scan meets first, lies at three quarters of pi and
    the right one at one quarter; the right TARGET lies at 0 and the left
    one at pi. *)
Definition fan_marks : ImageData :=
  mkImageData 3 3
    [255; 0; 255; 255;  0; 0; 0; 0;      255; 0; 255; 255;
     0; 0; 0; 255;      0; 255; 0; 255;  0; 0; 0; 255;
     0; 0; 0; 0;        0; 0; 0; 0;      0; 0; 0; 0]%Z.

(** ** A canvas for running [addBleed]

    Compositing that keeps a painted pixel as it is, unless it is fully
    transparent: then the bitmap keeps transparent black ([store]) or the
    destination ([over]). *)
Definition exact_store (p : RGBA) : RGBA :=
  if (alpha p =? 0)%Z then transparent else p.

Definition exact_over (s d : RGBA) : RGBA :=
  if (alpha s =? 0)%Z then d else s.

(** A 1 by 1 source whose pixel is opaque. *)
Definition one_opaque : ImageData := mkImageData 1 1 [1; 2; 3; 255]%Z.

(** A 1 by 1 source whose pixel is fully transparent but colored. *)
Definition one_clear : ImageData := mkImageData 1 1 [10; 20; 30; 0]%Z.

(** A 2 by 1 opaque source. *)
Definition two_opaque : ImageData :=
  mkImageData 2 1 [1; 1; 1; 255;  2; 2; 2; 255]%Z.

(** ** Vocabulary of the bleed generator *)

(** The alpha byte of the source pixel [(i, j)] is 255. *)
Definition opaque_at (source : ImageData) (i j : nat) : Prop :=
  data source !! (PIXEL_SIZE * (i + j * width source) + 3) = Some 255%Z.

(** The source pixel [(i, j)] is one the canvas holds exactly: it is opaque
    or it is transparent black. *)
Definition exact_at (source : ImageData) (i j : nat) : Prop :=
  opaque_at source i j
  \/ bytes_at (data source) (width source) i j
     = (Some 0, Some 0, Some 0, Some 0)%Z.

Section BleedVocabulary.

Context `{Compositing}.

(** One mirrored copy, as the loop body paints it. *)
Definition paint_copy (width height padding : nat) (sourceCanvas : Canvas)
  (ctx : Context2D) (copy : Copy) : Context2D :=
  let ctx := save ctx in
  let ctx :=
    translate ctx
      (shiftX copy * Z.of_nat width + Z.of_nat padding)
      (shiftY copy * Z.of_nat height + Z.of_nat padding) in
  let ctx := scale ctx (scaleX copy) (scaleY copy) in
  let ctx := drawImage ctx sourceCanvas 0 0 in
  restore ctx.

(** The canvas holding the source. *)
Definition source_canvas (source : ImageData) : Canvas :=
  surface (putImageData
             (getContext (createCanvas (width source) (height source)))
             source 0 0).

(** The context [addBleed] reads its result from. *)
Definition bleed_context (source : ImageData) (padding : nat) : Context2D :=
  fold_left
    (paint_copy (width source) (height source) padding (source_canvas source))
    COPIES
    (drawImage
       (getContext (createCanvas (width source + 2 * padding)
                      (height source + 2 * padding)))
       (source_canvas source) (Z.of_nat padding) (Z.of_nat padding)).

(** What one mirrored copy does to the device pixel [(X, Y)] of a canvas of
    [W] by [Hh] pixels holding [px] there. *)
Definition copy_pixel (source : ImageData) (padding : nat) (W Hh : nat)
  (X Y : Z) (px : RGBA) (copy : Copy) : RGBA :=
  let x := preimage (scaleX copy)
             (shiftX copy * Z.of_nat (width source) + Z.of_nat padding) 0 X in
  let y := preimage (scaleY copy)
             (shiftY copy * Z.of_nat (height source) + Z.of_nat padding) 0 Y in
  if inside (mkCanvas W Hh (fun _ _ => transparent)) X Y
     && inside (source_canvas source) x y
  then over (bitmap (source_canvas source) x y) px
  else px.

End BleedVocabulary.

(** The pixels [(x, y)] of a control quadrant that carry the marker
    [color], in scan order. *)
Definition marked (control : ImageData) (color : PixelData)
  : list (nat * nat) :=
  map (fun p => (snd p, fst p))
    (List.filter (fun p => is_marker control color (snd p) (fst p))
       (grid (height control) (width control))).

(** The color of a pixel as four bytes of an array. *)
Definition bytes_of (p : RGBA) : option Z * option Z * option Z * option Z :=
  let '(r, g, b, a) := p in (Some r, Some g, Some b, Some a).

(** ** transform/regions.ts

    Region coordinates are pixel positions: integers, on which JavaScript's
    arithmetic on numbers is exact (below 2^53), modelled as [Z].  The loop
    counters [rows] and [columns] are natural numbers. *)

Module Region.
Record t := mk {
  x : Z;
  y : Z;
  w : Z;
  h : Z
}.
End Region.






(** Extends the region outwards by an equal amount in each direction. *)
Definition padRegion (original : Region.t) (padding : Z) : Region.t :=
  Region.mk (Region.x original - padding)%Z (Region.y original - padding)%Z
    (Region.w original + 2 * padding)%Z (Region.h original + 2 * padding)%Z.


(** *** Vocabulary of regions *)



(** [outer] reaches at least as far as [inner] on each of the four sides. *)
Definition covers (outer inner : Region.t) : Prop :=
  (Region.x outer <= Region.x inner)%Z
  /\ (Region.y outer <= Region.y inner)%Z
  /\ (Region.x inner + Region.w inner <= Region.x outer + Region.w outer)%Z
  /\ (Region.y inner + Region.h inner <= Region.y outer + Region.h outer)%Z.

(** The pixel [(X, Y)] lies in the region. *)
Definition in_region (r : Region.t) (X Y : Z) : Prop :=
  (Region.x r <= X < Region.x r + Region.w r)%Z
  /\ (Region.y r <= Y < Region.y r + Region.h r)%Z.

(** The region lies inside the image and has a positive size. *)
Definition region_inside (region : Region.t) (image : ImageData) : Prop :=
  (0 <= Region.x region)%Z /\ (0 <= Region.y region)%Z
  /\ (0 < Region.w region)%Z /\ (0 < Region.h region)%Z
  /\ (Region.x region + Region.w region <= Z.of_nat (width image))%Z
  /\ (Region.y region + Region.h region <= Z.of_nat (height image))%Z.

(** Every pixel of the image is opaque or transparent black. *)
Definition all_exact (image : ImageData) : Prop :=
  forall i j, i < width image -> j < height image -> exact_at image i j.

(** ** Integers as binary64 numbers *)

(** [m * 2^k] on positive numbers. *)
Definition shl (m : positive) (k : Z) : positive :=
  match k with
  | Zpos k => Pos.iter xO m k
  | _ => m
  end.

(** The binary64 number that is the integer [z], for [z] of magnitude below
    2^53: the mantissa is the magnitude moved up to 53 digits. *)
Definition SFint (z : Z) : spec_float :=
  match z with
  | Z0 => S754_zero false
  | Zpos p =>
      S754_finite false (shl p (53 - Zpos (digits2_pos p)))
        (Zpos (digits2_pos p) - 53)
  | Zneg p =>
      S754_finite true (shl p (53 - Zpos (digits2_pos p)))
        (Zpos (digits2_pos p) - 53)
  end.

(** ** transform/regions.ts: mergeRegions on numbers

    [mergeRegions] adds and subtracts the coordinates, which are binary64
    numbers; it is embedded on numbers, and related to the integers where
    its arithmetic is exact. *)

(** [Math.min(a, b)] and [Math.max(a, b)]: NaN when an argument is NaN, and
    -0 is smaller than +0. *)
Definition Math_min (a b : JS.number) : JS.number :=
  if is_nan a || is_nan b then nan
  else if (a <? b)%float then a
  else if (b <? a)%float then b
  else if get_sign a then a else b.

Definition Math_max (a b : JS.number) : JS.number :=
  if is_nan a || is_nan b then nan
  else if (a <? b)%float then b
  else if (b <? a)%float then a
  else if get_sign a then b else a.

(** [interface Region], of four numbers. *)
Module NumRegion.
Record t := mk {
  x : JS.number;
  y : JS.number;
  w : JS.number;
  h : JS.number
}.
End NumRegion.

(** Returns a region covering the two inputs. *)
Definition mergeRegions (r1 r2 : NumRegion.t) : NumRegion.t :=
  let xFrom := Math_min (NumRegion.x r1) (NumRegion.x r2) in
  let yFrom := Math_min (NumRegion.y r1) (NumRegion.y r2) in
  let xEnd :=
    Math_max (NumRegion.x r1 + NumRegion.w r1)%float
             (NumRegion.x r2 + NumRegion.w r2)%float in
  let yEnd :=
    Math_max (NumRegion.y r1 + NumRegion.h r1)%float
             (NumRegion.y r2 + NumRegion.h r2)%float in
  NumRegion.mk xFrom yFrom (xEnd - xFrom)%float (yEnd - yFrom)%float.

(** The region of numbers that a region of integers denotes. *)
Definition numbers (r : Region.t) : NumRegion.t :=
  NumRegion.mk (JS.of_Z (Region.x r)) (JS.of_Z (Region.y r))
    (JS.of_Z (Region.w r)) (JS.of_Z (Region.h r)).

(** The region of integers from the least left and top sides of two regions
    to their greatest right and bottom sides. *)
Definition hull (r1 r2 : Region.t) : Region.t :=
  let xFrom := Z.min (Region.x r1) (Region.x r2) in
  let yFrom := Z.min (Region.y r1) (Region.y r2) in
  let xEnd :=
    Z.max (Region.x r1 + Region.w r1)%Z (Region.x r2 + Region.w r2)%Z in
  let yEnd :=
    Z.max (Region.y r1 + Region.h r1)%Z (Region.y r2 + Region.h r2)%Z in
  Region.mk xFrom yFrom (xEnd - xFrom)%Z (yEnd - yFrom)%Z.

(** The coordinates of the region, its sizes and its far corner are
    integers of magnitude below 2^52.  On such regions every number that
    [mergeRegions] computes is an integer of magnitude below 2^53. *)
Definition exact_region (r : Region.t) : Prop :=
  let bound := (2 ^ 52)%Z in
  (- bound < Region.x r < bound)%Z /\ (- bound < Region.y r < bound)%Z
  /\ (- bound < Region.w r < bound)%Z /\ (- bound < Region.h r < bound)%Z
  /\ (- bound < Region.x r + Region.w r < bound)%Z
  /\ (- bound < Region.y r + Region.h r < bound)%Z.

(** ** Cropping, solid bleed and the corner extender, on the canvas

    [getImageData] is used here on rectangles of positive size that lie
    inside the canvas; a rectangle of width or height 0 makes it throw an
    IndexSizeError, which [getImageData_sized] adds. *)

Inductive DOMException := IndexSizeError.

(** How [extendCorners] ends: with an image, with [process.exit] inside
    [refillCorner], or with an exception of [refillCorner] or of the
    canvas. *)
Inductive completion :=
| Normal (image : ImageData)
| Exit (code : Z)
| Throw (e : Error + DOMException).

Section Transforms.

Context `{Compositing}.

(** [Math.atan2], which the host implements. *)
Variable atan2 : JS.number -> JS.number -> JS.number.

(** The color a CSS color string denotes, where the canvas package accepts
    the string. *)
Variable parseColor : String.string -> option RGBA.

Definition getImageData_sized (ctx : Context2D) (sx sy : Z) (sw sh : nat)
  : DOMException + ImageData :=
  if (sw =? 0) || (sh =? 0) then inl IndexSizeError
  else inr (getImageData ctx sx sy sw sh).

(** Extracts one section of the input image, defined by the given region. *)
Definition crop (source : ImageData) (region : Region.t)
  : DOMException + ImageData :=
  let canvas := createCanvas (width source) (height source) in
  let ctx := getContext canvas in
  let ctx := putImageData ctx source 0 0 in
  getImageData_sized ctx (Region.x region) (Region.y region)
    (Z.to_nat (Region.w region)) (Z.to_nat (Region.h region)).

(** Extracts many sections of the input image, defined by the given
    regions: [regions.map] stops at the first rectangle that throws. *)
Definition cropMany (source : ImageData) (regions : list Region.t)
  : DOMException + list ImageData :=
  let canvas := createCanvas (width source) (height source) in
  let ctx := getContext canvas in
  let ctx := putImageData ctx source 0 0 in
  fold_left (fun acc r =>
    match acc with
    | inl e => inl e
    | inr images =>
        match getImageData_sized ctx (Region.x r) (Region.y r)
                (Z.to_nat (Region.w r)) (Z.to_nat (Region.h r)) with
        | inl e => inl e
        | inr image => inr (images ++ [image])
        end
    end) regions (inr []).

(** [ctx.fillRect(x, y, w, h)] with the fill style [style], under the
    identity transformation: the color is composited on each pixel of the
    rectangle. *)
Definition fillRect (ctx : Context2D) (style : RGBA) (x y : Z) (w h : nat)
  : Context2D :=
  let c := surface ctx in
  let paint X Y :=
    if inside c X Y && (x <=? X)%Z && (X <? x + Z.of_nat w)%Z
       && (y <=? Y)%Z && (Y <? y + Z.of_nat h)%Z
    then over style (bitmap c X Y)
    else bitmap c X Y in
  mkContext (mkCanvas (canvas_width c) (canvas_height c) paint)
    (transform ctx) (saved ctx).

(** The fill style of a fresh context: opaque black. *)
Definition default_fillStyle : RGBA := (0, 0, 0, 255)%Z.

(** Adds a solid color area of the given size around the source image.
    Assigning a string that is no color to [fillStyle] leaves the style as
    it was. *)
Definition addBleedSolid (source : ImageData) (padding : nat)
  (fill : String.string) : ImageData :=
  let width := width source in
  let height := height source in
  let paddedWidth := width + 2 * padding in
  let paddedHeight := height + 2 * padding in
  let canvas := createCanvas paddedWidth paddedHeight in
  let ctx := getContext canvas in
  let fillStyle :=
    match parseColor fill with
    | Some color => color
    | None => default_fillStyle
    end in
  let ctx := fillRect ctx fillStyle 0 0 paddedWidth paddedHeight in
  let ctx := putImageData ctx source (Z.of_nat padding) (Z.of_nat padding) in
  getImageData ctx 0 0 paddedWidth paddedHeight.

(** The fill style [addBleedSolid] paints with. *)
Definition fill_style (fill : String.string) : RGBA :=
  match parseColor fill with
  | Some color => color
  | None => default_fillStyle
  end.

(** One quadrant of [extendCorners]: [bottomHalf] and the bounds
    [fromX, toX, fromY, toY]. *)
Definition Segment : Type := bool * nat * nat * nat * nat.

(** The body of the loop over the segments; [inl] ends the loop. *)
Definition extendCorners_body (controlCtx : Context2D) (segment : Segment)
  (ctx : Context2D) : completion + Context2D :=
  let '(bottomHalf, fromX, toX, fromY, toY) := segment in
  let sw := toX - fromX in
  let sh := toY - fromY in
  match getImageData_sized ctx (Z.of_nat fromX) (Z.of_nat fromY) sw sh with
  | inl e => inl (Throw (inr e))
  | inr sourcePixels =>
      match getImageData_sized controlCtx (Z.of_nat fromX) (Z.of_nat fromY)
              sw sh with
      | inl e => inl (Throw (inr e))
      | inr controlPixels =>
          match refillCorner atan2 sourcePixels controlPixels bottomHalf with
          | Returned fillData =>
              inr (putImageData ctx fillData (Z.of_nat fromX)
                     (Z.of_nat fromY))
          | Exited code => inl (Exit code)
          | Threw e _ => inl (Throw (inl e))
          end
      end
  end.

(** [Math.ceil(n / 2)] *)
Definition ceil_half (n : nat) : nat := (n + 1) / 2.

Definition segments (width height : nat) : list Segment :=
  let cutoffX := ceil_half width in
  let cutoffY := ceil_half height in
  [ (false, 0, cutoffX, 0, cutoffY);           (* Top left *)
    (false, cutoffX, width, 0, cutoffY);       (* Top right *)
    (true, 0, cutoffX, cutoffY, height);       (* Bottom left *)
    (true, cutoffX, width, cutoffY, height) ]. (* Bottom right *)

(** Fills out parts of an image by extending pixels targeted by a control
    image radially for each corner. *)
Definition extendCorners (source control : ImageData) : completion :=
  let controlCanvas := createCanvas (width control) (height control) in
  let controlCtx := getContext controlCanvas in
  let width := width source in
  let height := height source in
  let canvas := createCanvas width height in
  let ctx := getContext canvas in
  let ctx := putImageData ctx source 0 0 in
  let controlCtx := putImageData controlCtx control 0 0 in
  match
    fold_left (fun acc segment =>
      match acc with
      | inl stop => inl stop
      | inr ctx => extendCorners_body controlCtx segment ctx
      end) (segments width height) (inr ctx)
  with
  | inl stop => stop
  | inr ctx =>
      match getImageData_sized ctx 0 0 width height with
      | inl e => Throw (inr e)
      | inr image => Normal image
      end
  end.

(** main.ts, [preprocessCombat]: what is computed between loading the
    source image and saving the result. *)
Definition preprocessCombat (control sourceImage : ImageData) : ImageData :=
  let step1 := extendSides sourceImage control in
  let step2 := addBleed step1 36 in
  step2.

(** *** Vocabulary of the corner extender on the canvas *)

(** The loop of [extendCorners] over a list of segments. *)
Definition corners_loop (controlCtx : Context2D) (segs : list Segment)
  (start : completion + Context2D) : completion + Context2D :=
  fold_left (fun acc segment =>
    match acc with
    | inl stop => inl stop
    | inr ctx => extendCorners_body controlCtx segment ctx
    end) segs start.

(** A color the canvas holds exactly. *)
Definition exact_color (p : RGBA) : Prop :=
  alpha p = 255%Z \/ p = transparent.

(** The control quadrant of a segment does not mark the device pixel
    [(X, Y)] as TARGET. *)
Definition unmarked (controlCtx : Context2D) (segment : Segment) (X Y : nat)
  : Prop :=
  let '(_, fromX, toX, fromY, toY) := segment in
  fromX <= X < toX -> fromY <= Y < toY ->
  is_marker (getImageData controlCtx (Z.of_nat fromX) (Z.of_nat fromY)
               (toX - fromX) (toY - fromY))
    TARGET_COLOR (X - fromX) (Y - fromY) = false.

(** The canvas that holds the control image. *)
Definition control_context (control : ImageData) : Context2D :=
  putImageData (getContext (createCanvas (width control) (height control)))
    control 0 0.

End Transforms.

(** ** layout.ts: renames and card names

    Indexes and slot numbers are integers, [Z]; the result of [parseInt] is
    an integer or NaN, [option Z] with [None] for NaN, and so is a slot
    number computed from it. *)

Inductive Side := Front | Back.

Module ExtractionOrder.
Record t := mk {
  front : list String.string;
  back : option (list String.string)  (* back?: string[] *)
}.
End ExtractionOrder.

Module RenameEntry.
Record t := mk {
  fromIndex : Z;
  toName : String.string
}.
End RenameEntry.

Module LayoutItem.
Record t := mk {
  front : String.string;
  back : String.string
}.
End LayoutItem.

Module CardImage.
Record t := mk {
  front : String.string;
  back : String.string
}.
End CardImage.

(** [type PageOf<T>]: the rows of a page. *)
Definition LayoutPage : Type := list (list LayoutItem.t).

(** Returns the full name for a slot with the given reference character, at
    a specific position, for front/back side. *)
Definition NameResolver : Type :=
  String.string -> option Z -> Side -> String.string.

Module RenameConfig.
Record t := mk {
  extractionOrder : list ExtractionOrder.t;
  fullName : NameResolver;
  startIndex : Z
}.
End RenameConfig.

Section Layout.

(** [parseInt(s, 10)], which the host implements; [None] is NaN. *)
Variable parseInt : String.string -> option Z.





(** [cardNames]: [layout[0].flat()] throws a TypeError on an empty
    layout. *)
Definition cardNames (layout : list LayoutPage) (fullName : NameResolver)
  : Error + list CardImage.t :=
  match layout with
  | [] => inl TypeError
  | first :: _ =>
      let pageSize := length (concat first) in
      let names (side : Side) (ref : LayoutItem.t -> String.string) :=
        concat (imap (fun pageIndex pageLayout =>
          imap (fun itemIndex item =>
            let slotNumber := pageIndex * pageSize + itemIndex in
            fullName (ref item) (Some (Z.of_nat slotNumber)) side)
            (concat pageLayout)) layout) in
      let front := names Front LayoutItem.front in
      let back := names Back LayoutItem.back in
      inr (map (fun fb => CardImage.mk (fst fb) (snd fb)) (combine front back))
  end.

End Layout.

(** *** Vocabulary of the renames *)




Section LayoutVocabulary.

Variable parseInt : String.string -> option Z.









End LayoutVocabulary.


(** ** autofill.ts

    Slots and quantities are natural numbers.  An object used as a map from
    names is an association list in the order of [Object.keys]: the keys
    that are array indexes first, in ascending order, then the other keys
    in the order in which they were added. *)

Module AutofillEntry.
Record t := mk {
  name : String.string;
  ext : String.string;
  slots : list nat
}.
End AutofillEntry.

Module AutofillData.
Record t := mk {
  quantity : nat;
  fronts : list AutofillEntry.t;
  backs : list AutofillEntry.t
}.
End AutofillData.

(** The value of a decimal digit. *)
Definition digit_value (c : Ascii.ascii) : option N :=
  let n := Ascii.N_of_ascii c in
  if (48 <=? n)%N && (n <=? 57)%N then Some (n - 48)%N else None.

(** The number a string of decimal digits denotes, continuing [acc]. *)
Fixpoint digits_value (s : String.string) (acc : N) : option N :=
  match s with
  | String.EmptyString => Some acc
  | String.String c rest =>
      match digit_value c with
      | Some d => digits_value rest (10 * acc + d)%N
      | None => None
      end
  end.

(** The array index a property key denotes: a canonical numeric string
    below 2^32 - 1. *)
Definition array_index (key : String.string) : option N :=
  match key with
  | String.EmptyString => None
  | String.String c rest =>
      match digits_value key 0 with
      | Some n =>
          if (Ascii.N_of_ascii c =? 48)%N && negb (String.eqb rest ""%string)
          then None  (* a leading zero *)
          else if (n <? 4294967295)%N then Some n
          else None
      | None => None
      end
  end.

(** Inserting an array-index key in ascending order. *)
Fixpoint insert_index {A : Type} (n : N) (entry : String.string * A)
  (l : list (N * (String.string * A))) : list (N * (String.string * A)) :=
  match l with
  | [] => [(n, entry)]
  | h :: t =>
      if (n <? fst h)%N then (n, entry) :: h :: t
      else h :: insert_index n entry t
  end.

(** The own properties of an object in the order of [Object.keys], from
    the properties in the order in which they were added. *)
Definition Object_keys {A : Type} (added : list (String.string * A))
  : list (String.string * A) :=
  let indexed :=
    fold_left (fun acc entry =>
      match array_index (fst entry) with
      | Some n => insert_index n entry acc
      | None => acc
      end) added [] in
  let named :=
    List.filter (fun entry =>
      match array_index (fst entry) with
      | Some _ => false
      | None => true
      end) added in
  map snd indexed ++ named.

(** lodash's [groupBy(items, m => m.name)] adds an item to the property of
    its name, which it creates when the object does not have it. *)
Fixpoint group_push (name : String.string) (slot : nat)
  (groups : list (String.string * list nat))
  : list (String.string * list nat) :=
  match groups with
  | [] => [(name, [slot])]
  | (key, values) :: others =>
      if String.eqb key name then (key, values ++ [slot]) :: others
      else (key, values) :: group_push name slot others
  end.

Definition groupBy_name (items : list (String.string * nat))
  : list (String.string * list nat) :=
  fold_left (fun groups item => group_push (fst item) (snd item) groups)
    items [].

(** [getSlotInfo] of [autofillData]. *)
Definition getSlotInfo (mappings : list String.string)
  : list AutofillEntry.t :=
  let withIndexes := imap (fun i name => (name, i)) mappings in
  let groups := groupBy_name withIndexes in
  map (fun group =>
         AutofillEntry.mk (fst group)
           ""%string  (* This is filled in later with the real extension *)
           (snd group))
    (Object_keys groups).

Definition autofillData (cards : list CardImage.t) : AutofillData.t :=
  let fronts := map CardImage.front cards in
  let backs := map CardImage.back cards in
  let quantity := length fronts in
  AutofillData.mk quantity (getSlotInfo fronts) (getSlotInfo backs).

(** [new Error('Missing card front for slots: ' + ...)] and its twin for
    the backs, with the slots the message lists. *)
Inductive ValidationError :=
| MissingFront (slots : list nat)
| MissingBack (slots : list nat).

(** [expected.delete(slot)] for each slot of each entry; a [Set] of numbers
    as the list of its elements in insertion order. *)
Definition delete_slots (entries : list AutofillEntry.t)
  (expected : list nat) : list nat :=
  fold_left (fun expected entry =>
    fold_left (fun expected slot =>
      List.filter (fun s => negb (s =? slot)) expected)
      (AutofillEntry.slots entry) expected)
    entries expected.

Definition validateAutofillData (data : AutofillData.t)
  : ValidationError + unit :=
  let expectedFronts := seq 0 (AutofillData.quantity data) in
  let expectedBacks := seq 0 (AutofillData.quantity data) in
  let expectedFronts :=
    delete_slots (AutofillData.fronts data) expectedFronts in
  let expectedBacks :=
    delete_slots (AutofillData.backs data) expectedBacks in
  if 0 <? length expectedFronts then inl (MissingFront expectedFronts)
  else if 0 <? length expectedBacks then inl (MissingBack expectedBacks)
  else inr tt.

Section Autofill.

(** [name in {}]: the names that an empty object inherits from
    [Object.prototype]. *)
Variable inherited : String.string -> bool.

(** The body of the loop of [deduplicate].  [result] holds the entries
    pushed so far; [existingNames] refers to the same objects, so that
    pushing slots on [original] changes the entry in [result].  For an
    inherited name that was not added, [original] is not an entry, its
    [slots] is [undefined], and [push] throws a TypeError. *)
Definition deduplicate_step (acc : Error + list AutofillEntry.t)
  (current : AutofillEntry.t) : Error + list AutofillEntry.t :=
  match acc with
  | inl e => inl e
  | inr result =>
      let name := AutofillEntry.name current in
      let own :=
        existsb (fun e => String.eqb (AutofillEntry.name e) name) result in
      if own then
        (* Duplicated name, merge into the original *)
        inr (map (fun original =>
               if String.eqb (AutofillEntry.name original) name
               then AutofillEntry.mk (AutofillEntry.name original)
                      (AutofillEntry.ext original)
                      (AutofillEntry.slots original
                       ++ AutofillEntry.slots current)
               else original) result)
      else if inherited name then inl TypeError
      else
        (* New item, push to output, track reference for merges *)
        inr (result ++ [current])
  end.

Definition deduplicate (entries : list AutofillEntry.t)
  : Error + list AutofillEntry.t :=
  fold_left deduplicate_step entries (inr []).

Definition offsetSlots (offset : nat) (entry : AutofillEntry.t)
  : AutofillEntry.t :=
  AutofillEntry.mk (AutofillEntry.name entry) (AutofillEntry.ext entry)
    (map (fun s => offset + s) (AutofillEntry.slots entry)).

Definition mergeAutofillData (configs : list AutofillData.t)
  : Error + AutofillData.t :=
  let '(quantity, fronts, backs) :=
    fold_left (fun '(quantity, fronts, backs) config =>
      let slotOffset := quantity in
      (quantity + AutofillData.quantity config,
       fronts ++ map (offsetSlots slotOffset) (AutofillData.fronts config),
       backs ++ map (offsetSlots slotOffset) (AutofillData.backs config)))
      configs (0, [], []) in
  match deduplicate fronts with
  | inl e => inl e
  | inr fronts =>
      match deduplicate backs with
      | inl e => inl e
      | inr backs => inr (AutofillData.mk quantity fronts backs)
      end
  end.

End Autofill.

(** autofill.ts: the batch sizes of the printer, and the bracket
    [generateAutofillXml] picks for a quantity. *)
Definition MPC_BRACKETS : list nat :=
  [18; 36; 55; 72; 90; 108; 126; 144; 162; 180; 198; 216; 234; 396; 504;
   612].

Definition sizeBracket (quantity : nat) : option nat :=
  JS.find (fun bracket => quantity <=? bracket) MPC_BRACKETS.

(** *** Vocabulary of the autofill data *)

(** The slots of all entries. *)
Definition all_slots (entries : list AutofillEntry.t) : list nat :=
  flat_map AutofillEntry.slots entries.

(** The slots below [quantity] that no entry holds, in ascending order. *)
Definition missing (quantity : nat) (entries : list AutofillEntry.t)
  : list nat :=
  List.filter (fun s => negb (existsb (Nat.eqb s) (all_slots entries)))
    (seq 0 quantity).

(** The slots of the entries of a name. *)
Definition slots_named (name : String.string)
  (entries : list AutofillEntry.t) : list nat :=
  flat_map AutofillEntry.slots
    (List.filter (fun e => String.eqb (AutofillEntry.name e) name) entries).

(** The values of a key; at most one group has the key. *)
Definition values_of (key : String.string)
  (groups : list (String.string * list nat)) : list nat :=
  flat_map snd (List.filter (fun g => String.eqb (fst g) key) groups).

(** The slots of the items of a name, in the order of the items. *)
Definition positions (name : String.string)
  (items : list (String.string * nat)) : list nat :=
  map snd (List.filter (fun item => String.eqb (fst item) name) items).

(** The positions at which a list of names has [name], ascending. *)
Definition places (name : String.string) (names : list String.string)
  : list nat :=
  List.filter (fun i =>
    match names !! i with
    | Some n => String.eqb n name
    | None => false
    end) (seq 0 (length names)).

(** Pushing slots on the entry of a name. *)
Definition push_slots (name : String.string) (extra : list nat)
  (original : AutofillEntry.t) : AutofillEntry.t :=
  if String.eqb (AutofillEntry.name original) name
  then AutofillEntry.mk (AutofillEntry.name original)
         (AutofillEntry.ext original)
         (AutofillEntry.slots original ++ extra)
  else original.

(** The entries of the configs, each config's slots moved behind the
    quantities of the configs before it. *)
Fixpoint shifted (side : AutofillData.t -> list AutofillEntry.t)
  (offset : nat) (configs : list AutofillData.t) : list AutofillEntry.t :=
  match configs with
  | [] => []
  | config :: rest =>
      map (offsetSlots offset) (side config)
      ++ shifted side (offset + AutofillData.quantity config) rest
  end.

(** ** Concrete inputs of the other transforms *)

(** A 2 by 2 control image whose pixels are all transparent. *)
Definition clear_square : ImageData :=
  mkImageData 2 2
    [0; 0; 0; 0;  0; 0; 0; 0;
     0; 0; 0; 0;  0; 0; 0; 0]%Z.

(** A 4 by 4 source with sixteen different opaque colors. *)
Definition sixteen_colors : ImageData :=
  mkImageData 4 4
    [11; 1; 1; 255;  12; 1; 1; 255;  13; 1; 1; 255;  14; 1; 1; 255;
     21; 2; 2; 255;  22; 2; 2; 255;  23; 2; 2; 255;  24; 2; 2; 255;
     31; 3; 3; 255;  32; 3; 3; 255;  33; 3; 3; 255;  34; 3; 3; 255;
     41; 4; 4; 255;  42; 4; 4; 255;  43; 4; 4; 255;  44; 4; 4; 255]%Z.

(** A 4 by 4 control image.  Each of its four quadrants of 2 by 2 pixels
    holds CENTER and EDGE in its first row, TARGET and a transparent pixel
    in its second. *)
Definition corner_marks : ImageData :=
  mkImageData 4 4
    [0; 255; 0; 255;  255; 0; 255; 255;  0; 255; 0; 255;  255; 0; 255; 255;
     0; 0; 0; 255;    0; 0; 0; 0;        0; 0; 0; 255;    0; 0; 0; 0;
     0; 255; 0; 255;  255; 0; 255; 255;  0; 255; 0; 255;  255; 0; 255; 255;
     0; 0; 0; 255;    0; 0; 0; 0;        0; 0; 0; 255;    0; 0; 0; 0]%Z.

(** A color parser that knows white only. *)
Definition white_only (style : String.string) : option RGBA :=
  if String.eqb style "#fff"%string then Some (255, 255, 255, 255)%Z
  else None.

(** The names an empty object inherits from [Object.prototype]. *)
Definition prototype_names : list String.string :=
  ["constructor"; "__defineGetter__"; "__defineSetter__"; "hasOwnProperty";
   "__lookupGetter__"; "__lookupSetter__"; "isPrototypeOf";
   "propertyIsEnumerable"; "toString"; "valueOf"; "__proto__";
   "toLocaleString"]%string.

Definition in_prototype (name : String.string) : bool :=
  existsb (String.eqb name) prototype_names.


(** A name resolver that joins the reference and the side. *)
Definition side_name : NameResolver :=
  fun ref _ side =>
    String.append ref
      match side with
      | Front => "-front"%string
      | Back => "-back"%string
      end.


(** Two decks that share the front [a]. *)
Definition deck_one : AutofillData.t :=
  autofillData
    [CardImage.mk "a" "back"; CardImage.mk "b" "back";
     CardImage.mk "a" "back"]%string.

Definition deck_two : AutofillData.t :=
  autofillData [CardImage.mk "c" "back"; CardImage.mk "a" "other"]%string.

(** * Properties *)

(** ** Bytes as numbers *)

Lemma is_byte_spec b : is_byte b = true <-> (0 <= b < 256)%Z.
Proof. unfold is_byte. rewrite andb_true_iff, Z.leb_le, Z.ltb_lt. tauto. Qed.

(** A property checked on the 256 bytes holds of every byte. *)
Lemma byte_cases (P : Z -> bool) :
  forallb P (map Z.of_nat (seq 0 256)) = true ->
  forall b, is_byte b = true -> P b = true.
Proof.
  intros HP b Hb. apply is_byte_spec in Hb.
  rewrite forallb_forall in HP. apply HP.
  apply in_map_iff. exists (Z.to_nat b). split; [lia|].
  apply in_seq. lia.
Qed.

Lemma ToUint8Clamp_num b : is_byte b = true -> JS.ToUint8Clamp (JS.num b) = b.
Proof.
  intros Hb. apply Z.eqb_eq.
  revert b Hb. apply byte_cases. vm_compute. reflexivity.
Qed.

Lemma strict_eq_num_0 b :
  is_byte b = true -> JS.strict_eq (JS.num b) (JS.num 0) = (b =? 0)%Z.
Proof.
  intros Hb.
  apply (byte_cases (fun b =>
    Bool.eqb (JS.strict_eq (JS.num b) (JS.num 0)) (b =? 0)%Z)) in Hb.
  - now apply Bool.eqb_prop in Hb.
  - vm_compute. reflexivity.
Qed.

Lemma strict_eq_num_255 b :
  is_byte b = true -> JS.strict_eq (JS.num b) (JS.num 255) = (b =? 255)%Z.
Proof.
  intros Hb.
  apply (byte_cases (fun b =>
    Bool.eqb (JS.strict_eq (JS.num b) (JS.num 255)) (b =? 255)%Z)) in Hb.
  - now apply Bool.eqb_prop in Hb.
  - vm_compute. reflexivity.
Qed.

Lemma num_inj a b :
  is_byte a = true -> is_byte b = true -> JS.num a = JS.num b -> a = b.
Proof.
  intros Ha Hb E. apply (f_equal JS.ToUint8Clamp) in E.
  now rewrite !ToUint8Clamp_num in E.
Qed.

(** ** Typed arrays *)

Lemma well_formed_spec image :
  well_formed image = true <->
  length (data image) = PIXEL_SIZE * (width image * height image)
  /\ (forall i b, data image !! i = Some b -> is_byte b = true).
Proof.
  unfold well_formed. rewrite andb_true_iff, Nat.eqb_eq, forallb_forall.
  split; intros [Hl Hb]; split; auto.
  - intros i b Hi. apply Hb. apply list_elem_of_In.
    eapply list_elem_of_lookup_2; eauto.
  - intros b Hin. apply list_elem_of_In, list_elem_of_lookup_1 in Hin.
    destruct Hin as [i Hi]. eauto.
Qed.

Lemma set_length a i v : length (JS.set a i v) = length a.
Proof. apply length_insert. Qed.

Lemma set_lookup a i v j :
  JS.set a i v !! j =
  if decide (i = j /\ i < length a) then Some (JS.ToUint8Clamp v) else a !! j.
Proof. apply list_lookup_insert. Qed.

Lemma floor_upto_bound n x : (0 <= JS.floor_upto n x <= Z.of_nat n)%Z.
Proof.
  induction n as [|n IH]; [simpl; lia|].
  cbn [JS.floor_upto]. destruct (PrimFloat.leb _ _); lia.
Qed.

Lemma floor_upto_below n x :
  PrimFloat.leb (JS.of_Z (Z.of_nat (S n))) x = false ->
  JS.floor_upto (S n) x = JS.floor_upto n x.
Proof. intros E. cbn [JS.floor_upto]. now rewrite E. Qed.

(** Whatever is written, the array holds a byte. *)
Lemma ToUint8Clamp_byte v : is_byte (JS.ToUint8Clamp v) = true.
Proof.
  apply is_byte_spec. destruct v as [x|]; [|simpl; lia].
  unfold JS.ToUint8Clamp.
  destruct (PrimFloat.is_nan x); [lia|].
  destruct (PrimFloat.leb x (JS.of_Z 0)); [lia|].
  destruct (PrimFloat.leb (JS.of_Z 255) x) eqn:E255; [lia|].
  assert (Hf : (0 <= JS.floor_upto 255 x <= 254)%Z).
  { rewrite (floor_upto_below 254 x) by exact E255.
    pose proof (floor_upto_bound 254 x). lia. }
  cbv zeta.
  repeat match goal with |- context [if ?b then _ else _] => destruct b end;
    lia.
Qed.

(** ** setPixel and getPixel *)

Lemma setPixel_width image x y r g b a :
  width (setPixel image x y r g b a) = width image.
Proof. reflexivity. Qed.

Lemma setPixel_height image x y r g b a :
  height (setPixel image x y r g b a) = height image.
Proof. reflexivity. Qed.

Lemma setPixel_length image x y r g b a :
  length (data (setPixel image x y r g b a)) = length (data image).
Proof. unfold setPixel; simpl. now rewrite !set_length. Qed.

Lemma setPixel_lookup image x y r g b a j :
  let index := PIXEL_SIZE * (x + y * width image) in
  data (setPixel image x y r g b a) !! j =
  if decide (index <= j < index + 4 /\ j < length (data image))
  then Some (JS.ToUint8Clamp (channel_of r g b a (j - index)))
  else data image !! j.
Proof.
  intros index. unfold setPixel. cbn [data]. fold index.
  rewrite !set_lookup, !set_length.
  repeat case_decide; try lia;
    try (replace (j - index) with 0 by lia; reflexivity);
    try (replace (j - index) with 1 by lia; reflexivity);
    try (replace (j - index) with 2 by lia; reflexivity);
    try (replace (j - index) with 3 by lia; reflexivity);
    reflexivity.
Qed.

Lemma setPixel_well_formed image x y r g b a :
  well_formed image = true ->
  well_formed (setPixel image x y r g b a) = true.
Proof.
  rewrite !well_formed_spec. intros [Hl Hb]. split.
  - now rewrite setPixel_length.
  - intros i c. rewrite setPixel_lookup. case_decide.
    + intros [= <-]. apply ToUint8Clamp_byte.
    + apply Hb.
Qed.

(** Two pixels in the same image have disjoint byte ranges. *)
Lemma pixel_index_inj w x y x' y' k k' :
  x < w -> x' < w -> k < 4 -> k' < 4 ->
  PIXEL_SIZE * (x + y * w) + k = PIXEL_SIZE * (x' + y' * w) + k' ->
  x = x' /\ y = y' /\ k = k'.
Proof.
  unfold PIXEL_SIZE. intros Hx Hx' Hk Hk' E.
  assert (E1 : x + y * w = x' + y' * w) by lia.
  assert (k = k') by lia.
  assert (y = y').
  { destruct (Nat.lt_trichotomy y y') as [L|[L|L]]; auto; exfalso; nia. }
  subst. lia.
Qed.

Lemma pixel_index_bound w h x y :
  x < w -> y < h -> PIXEL_SIZE * (x + y * w) + 3 < PIXEL_SIZE * (w * h).
Proof. unfold PIXEL_SIZE. intros. nia. Qed.

Lemma bytes_at_setPixel_same image x y r g b a :
  PIXEL_SIZE * (x + y * width image) + 3 < length (data image) ->
  bytes_at (data (setPixel image x y r g b a)) (width image) x y =
  (Some (JS.ToUint8Clamp r), Some (JS.ToUint8Clamp g),
   Some (JS.ToUint8Clamp b), Some (JS.ToUint8Clamp a)).
Proof.
  intros Hin. unfold bytes_at. rewrite !setPixel_lookup. cbv zeta.
  set (index := PIXEL_SIZE * (x + y * width image)) in *.
  repeat case_decide; try lia.
  replace (index - index) with 0 by lia.
  replace (index + 1 - index) with 1 by lia.
  replace (index + 2 - index) with 2 by lia.
  replace (index + 3 - index) with 3 by lia.
  reflexivity.
Qed.

Lemma bytes_at_setPixel_other image x y r g b a x' y' :
  x < width image -> x' < width image -> (x, y) <> (x', y') ->
  bytes_at (data (setPixel image x y r g b a)) (width image) x' y' =
  bytes_at (data image) (width image) x' y'.
Proof.
  intros Hx Hx' Hne. unfold bytes_at. rewrite !setPixel_lookup. cbv zeta.
  assert (Hd : forall k, k < 4 ->
    ~ (PIXEL_SIZE * (x + y * width image)
       <= PIXEL_SIZE * (x' + y' * width image) + k
       < PIXEL_SIZE * (x + y * width image) + 4)).
  { intros k Hk [H1 H2].
    destruct (pixel_index_inj (width image) x y x' y'
      (PIXEL_SIZE * (x' + y' * width image) + k
       - PIXEL_SIZE * (x + y * width image)) k) as (-> & -> & _);
      try lia. congruence. }
  pose proof (Hd 0). pose proof (Hd 1). pose proof (Hd 2). pose proof (Hd 3).
  rewrite Nat.add_0_r in *.
  repeat case_decide; try reflexivity; exfalso; intuition lia.
Qed.

Lemma getPixel_bytes_at pixels w x y :
  getPixel pixels w x y =
  let '(b0, b1, b2, b3) := bytes_at pixels w x y in
  (as_value b0, as_value b1, as_value b2, as_value b3).
Proof. reflexivity. Qed.

(** ** Loops *)

Lemma for_range_fold {S : Type} from to (body : nat -> S -> S) s :
  for_range from to body s =
  fold_left (fun acc i => body i acc) (seq from (to - from)) s.
Proof. reflexivity. Qed.

Lemma fold_left_map_list {A B S : Type} (f : S -> B -> S) (g : A -> B) l s :
  fold_left f (map g l) s = fold_left (fun acc i => f acc (g i)) l s.
Proof. revert s. induction l as [|i l IH]; intros s; simpl; auto. Qed.

(** Two nested loops visit [grid n m], in that order. *)
Lemma nested_for_range {S : Type} n m (body : nat -> nat -> S -> S) s :
  for_range 0 n (fun i => for_range 0 m (fun j => body i j)) s =
  fold_left (fun acc p => body (fst p) (snd p) acc) (grid n m) s.
Proof.
  unfold for_range, grid. rewrite !Nat.sub_0_r.
  generalize (seq 0 n) as l. intros l. revert s.
  induction l as [|i l IH]; intros s; [reflexivity|].
  cbn [flat_map fold_left]. rewrite fold_left_app, fold_left_map_list.
  apply IH.
Qed.

Lemma in_grid n m i j : In (i, j) (grid n m) <-> i < n /\ j < m.
Proof.
  unfold grid. rewrite in_flat_map. split.
  - intros (i' & Hi & Hj). apply in_map_iff in Hj as (j' & [= -> ->] & Hj).
    apply in_seq in Hi, Hj. lia.
  - intros [Hi Hj]. exists i. split; [apply in_seq; lia|].
    apply in_map_iff. exists j. split; [reflexivity|apply in_seq; lia].
Qed.

Lemma lookup_map_seq {A : Type} (f : nat -> A) n i :
  i < n -> map f (seq 0 n) !! i = Some (f i).
Proof.
  intros Hi. change (map f (seq 0 n)) with (f <$> seq 0 n).
  rewrite list_lookup_fmap, lookup_seq_lt by exact Hi. reflexivity.
Qed.

Lemma grid_S n m :
  grid (S n) m = grid n m ++ map (fun j => (n, j)) (seq 0 m).
Proof.
  unfold grid. rewrite seq_S, flat_map_app. cbn [flat_map].
  now rewrite app_nil_r.
Qed.

Lemma grid_length n m : length (grid n m) = n * m.
Proof.
  induction n as [|n IH]; [reflexivity|].
  rewrite grid_S, length_app, IH, length_map, length_seq. lia.
Qed.

Lemma grid_lookup n m i j :
  i < n -> j < m -> grid n m !! (i * m + j) = Some (i, j).
Proof.
  induction n as [|n IH]; intros Hi Hj; [lia|].
  rewrite grid_S. destruct (Nat.eq_dec i n) as [->|Hne].
  - rewrite lookup_app_r by (rewrite grid_length; lia).
    rewrite grid_length. replace (n * m + j - n * m) with j by lia.
    now rewrite lookup_map_seq.
  - rewrite lookup_app_l by (rewrite grid_length; nia).
    apply IH; lia.
Qed.

Lemma grid_lookup_inv n m k i j :
  grid n m !! k = Some (i, j) -> i < n /\ j < m /\ k = i * m + j.
Proof.
  intros Hk.
  assert (Hlt : k < n * m).
  { rewrite <- grid_length. eapply lookup_lt_Some; eauto. }
  assert (Hm : 0 < m) by (destruct m; lia).
  assert (Hq : k / m < n) by (apply Nat.Div0.div_lt_upper_bound; lia).
  assert (Hr : k mod m < m) by (apply Nat.mod_upper_bound; lia).
  pose proof (grid_lookup n m (k / m) (k mod m) Hq Hr) as Hg.
  assert (Ek : k = k / m * m + k mod m).
  { rewrite (Nat.div_mod k m) at 1 by lia. lia. }
  rewrite <- Ek, Hk in Hg. injection Hg as -> ->. auto.
Qed.

(** ** Plotting pixels *)

Lemma plot_cons c p pts s :
  plot c (p :: pts) s =
  plot c pts
    (let '(r, g, b, a) := c p in setPixel s (fst p) (snd p) r g b a).
Proof. reflexivity. Qed.

Lemma plot_step_dims (c : nat * nat -> PixelData) p s :
  let s' := (let '(r, g, b, a) := c p in setPixel s (fst p) (snd p) r g b a) in
  width s' = width s /\ height s' = height s
  /\ length (data s') = length (data s)
  /\ (well_formed s = true -> well_formed s' = true).
Proof.
  destruct (c p) as [[[r g] b] a]. cbv zeta.
  repeat split; auto using setPixel_length, setPixel_well_formed.
Qed.

Lemma plot_dims c pts s :
  width (plot c pts s) = width s
  /\ height (plot c pts s) = height s
  /\ length (data (plot c pts s)) = length (data s).
Proof.
  revert s. induction pts as [|p pts IH]; intros s; [auto|].
  rewrite plot_cons.
  destruct (plot_step_dims c p s) as (Ew & Eh & El & _).
  destruct (IH (let '(r, g, b, a) := c p in
                setPixel s (fst p) (snd p) r g b a)) as (-> & -> & ->).
  auto.
Qed.

Lemma plot_well_formed c pts s :
  well_formed s = true -> well_formed (plot c pts s) = true.
Proof.
  revert s. induction pts as [|p pts IH]; intros s Hs; [auto|].
  rewrite plot_cons. apply IH. now apply plot_step_dims.
Qed.

Lemma plot_outside c pts s x' y' :
  (forall p, In p pts -> fst p < width s) ->
  x' < width s -> ~ In (x', y') pts ->
  bytes_at (data (plot c pts s)) (width s) x' y' =
  bytes_at (data s) (width s) x' y'.
Proof.
  revert s. induction pts as [|[px py] pts IH]; intros s Hin Hx' Hn; [auto|].
  rewrite plot_cons. cbn [fst snd].
  destruct (c (px, py)) as [[[r g] b] a].
  rewrite <- (setPixel_width s px py r g b a).
  rewrite IH.
  - rewrite setPixel_width. apply bytes_at_setPixel_other; auto.
    + apply (Hin (px, py)). now left.
    + intros E. apply Hn. left. exact E.
  - intros p Hp. rewrite setPixel_width. apply Hin. now right.
  - now rewrite setPixel_width.
  - intros Hp. apply Hn. now right.
Qed.

Lemma plot_inside c pts s x' y' :
  (forall p, In p pts ->
     fst p < width s
     /\ PIXEL_SIZE * (fst p + snd p * width s) + 3 < length (data s)) ->
  In (x', y') pts ->
  bytes_at (data (plot c pts s)) (width s) x' y' = clamped (c (x', y')).
Proof.
  revert s. induction pts as [|[px py] pts IH]; intros s Hin Hp; [easy|].
  rewrite plot_cons. cbn [fst snd].
  destruct (in_dec (fun p q : nat * nat => decide (p = q)) (x', y') pts)
    as [Hrest|Hrest].
  - destruct (c (px, py)) as [[[r g] b] a].
    rewrite <- (setPixel_width s px py r g b a). apply IH; auto.
    intros p Hp'. rewrite setPixel_width, setPixel_length.
    apply Hin. now right.
  - destruct Hp as [[= -> ->]|Hp]; [|contradiction].
    destruct (Hin (x', y')) as [Hx Hl]; [now left|]. cbn [fst snd] in Hx, Hl.
    destruct (c (x', y')) as [[[r g] b] a]. cbn [clamped].
    rewrite <- (setPixel_width s x' y' r g b a).
    rewrite plot_outside; auto.
    + rewrite setPixel_width. now apply bytes_at_setPixel_same.
    + intros p Hp'. rewrite setPixel_width. apply Hin. now right.
Qed.

Lemma paint_plot r g b a pts s :
  paint r g b a pts s = plot (fun _ => (r, g, b, a)) pts s.
Proof. reflexivity. Qed.

Lemma paint_dims r g b a pts s :
  width (paint r g b a pts s) = width s
  /\ height (paint r g b a pts s) = height s
  /\ length (data (paint r g b a pts s)) = length (data s).
Proof. rewrite paint_plot. apply plot_dims. Qed.

Lemma paint_well_formed r g b a pts s :
  well_formed s = true -> well_formed (paint r g b a pts s) = true.
Proof. rewrite paint_plot. apply plot_well_formed. Qed.

Lemma paint_outside r g b a pts s x' y' :
  (forall p, In p pts -> fst p < width s) ->
  x' < width s -> ~ In (x', y') pts ->
  bytes_at (data (paint r g b a pts s)) (width s) x' y' =
  bytes_at (data s) (width s) x' y'.
Proof. rewrite paint_plot. apply plot_outside. Qed.

Lemma paint_inside r g b a pts s x' y' :
  (forall p, In p pts ->
     fst p < width s
     /\ PIXEL_SIZE * (fst p + snd p * width s) + 3 < length (data s)) ->
  In (x', y') pts ->
  bytes_at (data (paint r g b a pts s)) (width s) x' y' =
  (Some (JS.ToUint8Clamp r), Some (JS.ToUint8Clamp g),
   Some (JS.ToUint8Clamp b), Some (JS.ToUint8Clamp a)).
Proof. rewrite paint_plot. intros H1 H2. now rewrite plot_inside. Qed.

(** ** extendSides: one directive *)

Lemma extendSides_body_paint control x y source :
  extendSides_body control x y source =
  match directive_at (width source) control x y with
  | None => source
  | Some d =>
      let '(r, g, b, a) := getPixel (data source) (width source) x y in
      paint r g b a (target_points d (width source) (height source) x y)
        source
  end.
Proof.
  unfold extendSides_body, directive_at, decode.
  destruct (getPixel (data control) (width source) x y) as [[[cr cg] cb] ca].
  destruct (JS.strict_eq ca (JS.num 0)); [reflexivity|].
  destruct (getPixel (data source) (width source) x y) as [[[r g] b] a].
  unfold for_range, paint, target_points.
  destruct (JS.strict_eq cr (JS.num 255));
    [now rewrite fold_left_map_list|].
  destruct (JS.strict_eq cg (JS.num 255));
    [now rewrite fold_left_map_list|].
  destruct (JS.strict_eq cb (JS.num 255));
    now rewrite fold_left_map_list.
Qed.

Lemma in_target_points d w h x y x' y' :
  x < w -> y < h ->
  In (x', y') (target_points d w h x y) <->
  targeted d x y x' y' = true /\ x' < w /\ y' < h.
Proof.
  intros Hx Hy. unfold target_points, targeted.
  destruct d; rewrite in_map_iff, andb_true_iff, Nat.eqb_eq, Nat.ltb_lt;
    (split;
     [ intros (i & [= <- <-] & Hi); apply in_seq in Hi; lia
     | intros ((-> & Hlt) & Hx' & Hy');
       first [ exists x' | exists y' ];
       split; [reflexivity | apply in_seq; lia] ]).
Qed.

Lemma decode_bytes cr cg cb ca :
  is_byte cr = true -> is_byte cg = true ->
  is_byte cb = true -> is_byte ca = true ->
  decode (JS.num cr, JS.num cg, JS.num cb, JS.num ca) =
  if (ca =? 0)%Z then None else Some (direction_of cr cg cb).
Proof.
  intros Hr Hg Hb Ha. unfold decode, direction_of.
  rewrite strict_eq_num_0, !strict_eq_num_255 by assumption.
  now destruct (ca =? 0)%Z, (cr =? 255)%Z, (cg =? 255)%Z, (cb =? 255)%Z.
Qed.

(** In a well-formed image every pixel inside the bounds has its four
    bytes. *)
Lemma bytes_at_well_formed image x y :
  well_formed image = true -> x < width image -> y < height image ->
  exists b0 b1 b2 b3,
    bytes_at (data image) (width image) x y
    = (Some b0, Some b1, Some b2, Some b3)
    /\ is_byte b0 = true /\ is_byte b1 = true
    /\ is_byte b2 = true /\ is_byte b3 = true.
Proof.
  intros Hwf Hx Hy. apply well_formed_spec in Hwf as [Hl Hb].
  pose proof (pixel_index_bound (width image) (height image) x y Hx Hy) as Hi.
  unfold bytes_at. cbv zeta.
  set (index := PIXEL_SIZE * (x + y * width image)) in *.
  destruct (lookup_lt_is_Some_2 (data image) index) as [b0 E0]; [lia|].
  destruct (lookup_lt_is_Some_2 (data image) (index + 1)) as [b1 E1]; [lia|].
  destruct (lookup_lt_is_Some_2 (data image) (index + 2)) as [b2 E2]; [lia|].
  destruct (lookup_lt_is_Some_2 (data image) (index + 3)) as [b3 E3]; [lia|].
  exists b0, b1, b2, b3. split; [repeat f_equal; assumption | eauto 10].
Qed.

(** What one directive does to the bytes of the source. *)
Lemma extendSides_body_bytes control x y source d :
  well_formed source = true -> x < width source -> y < height source ->
  directive_at (width source) control x y = Some d ->
  let after := extendSides_body control x y source in
  width after = width source /\ height after = height source
  /\ well_formed after = true
  /\ forall x' y', x' < width source -> y' < height source ->
       bytes_at (data after) (width source) x' y' =
       if targeted d x y x' y'
       then bytes_at (data source) (width source) x y
       else bytes_at (data source) (width source) x' y'.
Proof.
  intros Hwf Hx Hy Hd after. subst after.
  rewrite extendSides_body_paint, Hd.
  destruct (bytes_at_well_formed source x y Hwf Hx Hy)
    as (b0 & b1 & b2 & b3 & Eb & H0 & H1 & H2 & H3).
  rewrite getPixel_bytes_at, Eb. cbn [as_value].
  set (pts := target_points d (width source) (height source) x y).
  destruct (paint_dims (JS.num b0) (JS.num b1) (JS.num b2) (JS.num b3)
              pts source) as (Ew & Eh & El).
  repeat split; auto using paint_well_formed.
  intros x' y' Hx' Hy'.
  pose proof (proj1 (well_formed_spec source) Hwf) as [Hlen _].
  destruct (targeted d x y x' y') eqn:Et.
  - rewrite paint_inside.
    + now rewrite !ToUint8Clamp_num.
    + intros [px py] Hp. apply in_target_points in Hp as (_ & Hpx & Hpy); auto.
      cbn [fst snd]. split; [exact Hpx|]. rewrite Hlen.
      now apply pixel_index_bound.
    + apply in_target_points; auto.
  - apply paint_outside; auto.
    + intros [px py] Hp. apply in_target_points in Hp as (_ & Hpx & _); auto.
    + intros Hp. apply in_target_points in Hp as (Ht & _); auto. congruence.
Qed.

Lemma extendSides_body_skip control x y source :
  directive_at (width source) control x y = None ->
  extendSides_body control x y source = source.
Proof. intros Hd. now rewrite extendSides_body_paint, Hd. Qed.

(** ** extendSides: the whole run *)

Lemma extendSides_run source control :
  extendSides source control =
  run control (grid (width control) (height control)) source.
Proof. unfold extendSides, run. apply nested_for_range. Qed.

Lemma run_cons control p pts s :
  run control (p :: pts) s =
  run control pts (extendSides_body control (fst p) (snd p) s).
Proof. reflexivity. Qed.

Lemma last_cover_Some stride control pts x' y' a :
  last_cover stride control pts x' y' = Some a ->
  In a pts /\ exists d,
    directive_at stride control (fst a) (snd a) = Some d
    /\ targeted d (fst a) (snd a) x' y' = true.
Proof.
  induction pts as [|p pts IH]; [discriminate|].
  cbn [last_cover].
  destruct (last_cover stride control pts x' y') as [a'|].
  - intros [= ->]. destruct IH as [Hin Hd]; auto. split; [now right|exact Hd].
  - destruct (directive_at stride control (fst p) (snd p)) as [d|] eqn:Ed;
      [|discriminate].
    destruct (targeted d (fst p) (snd p) x' y') eqn:Et; [|discriminate].
    intros [= <-]. split; [now left|eauto].
Qed.

Lemma apart_spec stride control pts :
  apart stride control pts = true ->
  forall a p da d, In a pts -> In p pts ->
    directive_at stride control (fst a) (snd a) = Some da ->
    directive_at stride control (fst p) (snd p) = Some d ->
    targeted d (fst p) (snd p) (fst a) (snd a) = false.
Proof.
  unfold apart. rewrite forallb_forall. intros H a p da d Ha Hp Eda Ed.
  specialize (H a Ha). rewrite forallb_forall in H. specialize (H p Hp).
  rewrite Eda, Ed in H. now apply negb_true_iff in H.
Qed.

(** After a run whose anchors no directive overwrites, a pixel holds the
    original bytes of the anchor of the last directive that covers it. *)
Lemma run_bytes control pts : forall s,
  well_formed s = true ->
  (forall p, In p pts -> fst p < width s /\ snd p < height s) ->
  (forall a p da d, In a pts -> In p pts ->
     directive_at (width s) control (fst a) (snd a) = Some da ->
     directive_at (width s) control (fst p) (snd p) = Some d ->
     targeted d (fst p) (snd p) (fst a) (snd a) = false) ->
  width (run control pts s) = width s
  /\ height (run control pts s) = height s
  /\ well_formed (run control pts s) = true
  /\ forall x' y', x' < width s -> y' < height s ->
       bytes_at (data (run control pts s)) (width s) x' y' =
       match last_cover (width s) control pts x' y' with
       | Some a => bytes_at (data s) (width s) (fst a) (snd a)
       | None => bytes_at (data s) (width s) x' y'
       end.
Proof.
  induction pts as [|p pts IH]; intros s Hwf Hin Hap.
  - cbn. auto.
  - rewrite run_cons. destruct (Hin p) as [Hpx Hpy]; [now left|].
    destruct (directive_at (width s) control (fst p) (snd p)) as [d|] eqn:Ed.
    + destruct (extendSides_body_bytes control (fst p) (snd p) s d
                  Hwf Hpx Hpy Ed) as (Ew & Eh & Hwf1 & Hb1).
      set (s1 := extendSides_body control (fst p) (snd p) s) in *.
      destruct (IH s1) as (Ew2 & Eh2 & Hwf2 & Hb2); auto.
      { intros q Hq. rewrite Ew, Eh. apply Hin. now right. }
      { intros a q da dq Ha Hq. rewrite Ew. intros Eda Edq.
        eapply Hap; eauto; now right. }
      rewrite Ew2, Eh2, Ew, Eh. repeat split; auto.
      intros x' y' Hx' Hy'. rewrite <- Ew, Hb2, Ew by now rewrite ?Ew, ?Eh.
      cbn [last_cover]. rewrite Ed.
      destruct (last_cover (width s) control pts x' y') as [a|] eqn:Ec.
      * apply last_cover_Some in Ec as (Ha & da & Eda & _).
        destruct (Hin a) as [Hax Hay]; [now right|].
        rewrite Hb1 by assumption.
        rewrite (Hap a p da d); auto; [now right | now left].
      * rewrite Hb1 by assumption.
        now destruct (targeted d (fst p) (snd p) x' y').
    + rewrite (extendSides_body_skip control (fst p) (snd p) s Ed).
      destruct (IH s) as (Ew2 & Eh2 & Hwf2 & Hb2); auto.
      { intros q Hq. apply Hin. now right. }
      { intros a q da dq Ha Hq. eapply Hap; now right. }
      repeat split; auto.
      intros x' y' Hx' Hy'. rewrite Hb2 by assumption.
      cbn [last_cover]. rewrite Ed.
      now destruct (last_cover (width s) control pts x' y').
Qed.

(** Two well-formed images of the same size with the same pixels are the
    same image. *)
Lemma image_ext a b :
  width a = width b -> height a = height b ->
  well_formed a = true -> well_formed b = true ->
  (forall x y, x < width a -> y < height a ->
     bytes_at (data a) (width a) x y = bytes_at (data b) (width a) x y) ->
  a = b.
Proof.
  destruct a as [wa ha da], b as [wb hb db]. cbn [width height data].
  intros <- <- Ha Hb Hpx.
  apply well_formed_spec in Ha as [Hla _], Hb as [Hlb _].
  cbn [width height data] in Hla, Hlb.
  f_equal. apply list_eq. intros i.
  destruct (Nat.lt_ge_cases i (PIXEL_SIZE * (wa * ha))) as [Hi|Hi].
  - unfold PIXEL_SIZE in *.
    assert (Hw : 0 < wa) by (destruct wa; lia).
    set (q := i / 4). set (k := i mod 4).
    assert (Hq : i = 4 * q + k) by (apply Nat.div_mod; lia).
    assert (Hk : k < 4) by (apply Nat.mod_upper_bound; lia).
    assert (Hqlt : q < wa * ha) by lia.
    set (x := q mod wa). set (y := q / wa).
    assert (Hxy : q = wa * y + x) by (apply Nat.div_mod; lia).
    assert (Hx : x < wa) by (apply Nat.mod_upper_bound; lia).
    assert (Hy : y < ha).
    { apply Nat.Div0.div_lt_upper_bound. lia. }
    specialize (Hpx x y Hx Hy). unfold bytes_at in Hpx. cbv zeta in Hpx.
    remember (PIXEL_SIZE * (x + y * wa)) as index eqn:Eindex.
    assert (Ei : i = index + k) by (subst index; unfold PIXEL_SIZE; lia).
    injection Hpx as E0 E1 E2 E3.
    rewrite Ei. clearbody k. clear - E0 E1 E2 E3 Hk.
    destruct k as [|[|[|[|k]]]]; try lia;
      rewrite ?Nat.add_0_r; assumption.
  - rewrite !lookup_ge_None_2 by lia. reflexivity.
Qed.

Lemma extendSides_body_shape control x y s :
  width (extendSides_body control x y s) = width s
  /\ height (extendSides_body control x y s) = height s
  /\ length (data (extendSides_body control x y s)) = length (data s)
  /\ (well_formed s = true ->
      well_formed (extendSides_body control x y s) = true).
Proof.
  rewrite extendSides_body_paint.
  destruct (directive_at (width s) control x y) as [d|]; [|auto].
  destruct (getPixel (data s) (width s) x y) as [[[r g] b] a].
  destruct (paint_dims r g b a
              (target_points d (width s) (height s) x y) s) as (Ew & Eh & El).
  auto using paint_well_formed.
Qed.

Lemma run_shape control pts : forall s,
  width (run control pts s) = width s
  /\ height (run control pts s) = height s
  /\ length (data (run control pts s)) = length (data s)
  /\ (well_formed s = true -> well_formed (run control pts s) = true).
Proof.
  induction pts as [|p pts IH]; intros s; [cbn; auto|].
  rewrite run_cons.
  destruct (extendSides_body_shape control (fst p) (snd p) s)
    as (Ew & Eh & El & Hwf).
  destruct (IH (extendSides_body control (fst p) (snd p) s))
    as (-> & -> & -> & Hwf').
  repeat split; auto.
Qed.

(** A pixel outside the half-rows and half-columns of the directives of a
    run keeps its bytes. *)
Lemma run_untouched control pts x' y' : forall s,
  well_formed s = true ->
  (forall p, In p pts -> fst p < width s /\ snd p < height s) ->
  x' < width s -> y' < height s ->
  (forall p d, In p pts ->
     directive_at (width s) control (fst p) (snd p) = Some d ->
     targeted d (fst p) (snd p) x' y' = false) ->
  bytes_at (data (run control pts s)) (width s) x' y'
  = bytes_at (data s) (width s) x' y'.
Proof.
  induction pts as [|p pts IH]; intros s Hwf Hin Hx' Hy' Hfree; [reflexivity|].
  rewrite run_cons. destruct (Hin p) as [Hpx Hpy]; [now left|].
  destruct (directive_at (width s) control (fst p) (snd p)) as [d|] eqn:Ed.
  - destruct (extendSides_body_bytes control (fst p) (snd p) s d
                Hwf Hpx Hpy Ed) as (Ew & Eh & Hwf1 & Hb1).
    set (s1 := extendSides_body control (fst p) (snd p) s) in *.
    rewrite <- Ew, IH; rewrite ?Ew, ?Eh; auto.
    + rewrite Hb1 by assumption.
      rewrite (Hfree p d); auto. now left.
    + intros q Hq. apply Hin. now right.
    + intros q dq Hq. apply Hfree. now right.
  - rewrite (extendSides_body_skip control (fst p) (snd p) s Ed).
    apply IH; auto.
    + intros q Hq. apply Hin. now right.
    + intros q dq Hq. apply Hfree. now right.
Qed.

(** ** extendSides: the claims *)

(** C1 (the code departs from it).  [extendSides] visits the anchors inside
    the control image's bounds ([extendSides_run]), but it reads the control
    array with the source's width as the row stride.  With the 1 by 2
    control [clear_column], whose own pixel at (0, 1) is transparent, and the
    2 by 3 source [six_colors], the read at (0, 1) falls outside the control
    array, the alpha is [undefined], which is not [=== 0], and the code
    extends the source pixel (0, 1) downwards: the source pixel (0, 2)
    changes from 5 to 3 although the control image holds no directive. *)
Theorem extendSides_control_stride :
  bytes_at (data clear_column) (width clear_column) 0 1
  = (Some 0, Some 0, Some 0, Some 0)%Z
  /\ getPixel (data clear_column) (width six_colors) 0 1
     = (JS.undefined, JS.undefined, JS.undefined, JS.undefined)
  /\ directive_at (width six_colors) clear_column 0 1 = Some Down
  /\ extendSides six_colors clear_column
     = mkImageData 2 3
         [1; 1; 1; 255;  2; 2; 2; 255;
          3; 3; 3; 255;  4; 4; 4; 255;
          3; 3; 3; 255;  6; 6; 6; 255]%Z.
Proof. repeat split; vm_compute; reflexivity. Qed.

(** C2, as stated, fails.  With the control [down_then_left] the first pass
    extends (0, 0) down and then (1, 0) left, which overwrites the anchor
    (0, 0); the second pass extends the new color of (0, 0) down.  Pixel
    (0, 1) ends as 1 after one pass and as 2 after two. *)
Lemma extendSides_not_idempotent :
  extendSides (extendSides four_colors down_then_left) down_then_left
  <> extendSides four_colors down_then_left.
Proof.
  intros E. apply (f_equal (fun image => data image !! 8)) in E.
  vm_compute in E. discriminate E.
Qed.

(** C2, amended.  When the control image is no larger than the well-formed
    source and no anchor lies in the half-row or half-column that a
    directive overwrites ([anchors_apart]), a second application of the same
    control image changes nothing. *)
Theorem extendSides_idempotent_apart source control :
  well_formed source = true ->
  width control <= width source -> height control <= height source ->
  anchors_apart source control = true ->
  extendSides (extendSides source control) control
  = extendSides source control.
Proof.
  intros Hwf Hw Hh Hap. rewrite !extendSides_run.
  set (pts := grid (width control) (height control)).
  assert (Hin : forall p, In p pts ->
            fst p < width source /\ snd p < height source).
  { intros [i j] Hp. apply in_grid in Hp. cbn [fst snd]. lia. }
  pose proof (apart_spec _ _ _ Hap) as Hsep. fold pts in Hsep.
  destruct (run_bytes control pts source Hwf Hin Hsep)
    as (Ew & Eh & Hwf1 & Hb1).
  set (once := run control pts source) in *.
  destruct (run_bytes control pts once Hwf1) as (Ew2 & Eh2 & Hwf2 & Hb2).
  { intros p Hp. rewrite Ew, Eh. now apply Hin. }
  { rewrite Ew. exact Hsep. }
  apply image_ext; auto; try congruence.
  rewrite Ew2. intros x' y' Hx' Hy'. rewrite Eh2 in Hy'.
  rewrite Hb2 by assumption. rewrite Ew in *. rewrite Eh in Hy'.
  rewrite (Hb1 x' y') by assumption.
  destruct (last_cover (width source) control pts x' y') as [a|] eqn:Ec;
    [|reflexivity].
  apply last_cover_Some in Ec as (Ha & da & Eda & _).
  destruct (Hin a Ha) as [Hax Hay]. rewrite Hb1 by assumption.
  destruct (last_cover (width source) control pts (fst a) (snd a))
    as [a'|] eqn:Ec'; [|reflexivity].
  apply last_cover_Some in Ec' as (Ha' & da' & Eda' & Ht).
  rewrite (Hsep a a' da da') in Ht; auto. discriminate.
Qed.

Lemma extendSides_idempotent_apart_witness :
  extendSides (extendSides four_colors left_and_right) left_and_right
  = extendSides four_colors left_and_right.
Proof.
  exact (extendSides_idempotent_apart four_colors left_and_right
           eq_refl (le_n 2) (le_n 2) eq_refl).
Defined.

(** ** extendSides: one directive in the whole run *)

Lemma run_app control l1 l2 s :
  run control (l1 ++ l2) s = run control l2 (run control l1 s).
Proof. unfold run. apply fold_left_app. Qed.

(** The anchors before and after an anchor of the grid. *)
Lemma grid_split n m i j :
  i < n -> j < m ->
  exists l1 l2,
    grid n m = l1 ++ (i, j) :: l2
    /\ (forall p, In p l1 ->
          fst p < n /\ snd p < m /\ visited_before (fst p) (snd p) i j)
    /\ (forall p, In p l2 ->
          fst p < n /\ snd p < m /\ visited_before i j (fst p) (snd p)).
Proof.
  intros Hi Hj. pose proof (grid_lookup n m i j Hi Hj) as Hk.
  exists (take (i * m + j) (grid n m)), (drop (S (i * m + j)) (grid n m)).
  split; [symmetry; now apply take_drop_middle|]. split.
  - intros [px py] Hp.
    apply list_elem_of_In, list_elem_of_lookup_1 in Hp as [k Hp].
    apply lookup_take_Some in Hp as [Hp Hlt].
    apply grid_lookup_inv in Hp as (Hpx & Hpy & ->). cbn [fst snd].
    unfold visited_before. repeat split; [exact Hpx|exact Hpy|nia].
  - intros [px py] Hp.
    apply list_elem_of_In, list_elem_of_lookup_1 in Hp as [k Hp].
    rewrite lookup_drop in Hp.
    apply grid_lookup_inv in Hp as (Hpx & Hpy & Ek). cbn [fst snd].
    unfold visited_before. repeat split; [exact Hpx|exact Hpy|nia].
Qed.

(** The directive a control image of bytes holds at a pixel. *)
Lemma directive_bytes stride control x y cr cg cb ca :
  well_formed control = true ->
  bytes_at (data control) stride x y
  = (Some cr, Some cg, Some cb, Some ca) ->
  directive_at stride control x y
  = if (ca =? 0)%Z then None else Some (direction_of cr cg cb).
Proof.
  intros Hwfc Hc. apply well_formed_spec in Hwfc as [_ Hbytes].
  unfold directive_at. rewrite getPixel_bytes_at, Hc. cbn [as_value].
  unfold bytes_at in Hc. cbv zeta in Hc.
  remember (PIXEL_SIZE * (x + y * stride)) as index.
  injection Hc as Er Eg Eb Ea. apply decode_bytes; eauto.
Qed.

Lemma not_overwrites stride control px py x' y' d :
  px < width control -> py < height control ->
  ~ overwrites stride control px py x' y' ->
  directive_at stride control px py = Some d ->
  targeted d px py x' y' = false.
Proof.
  intros Hpx Hpy Hn Ed. destruct (targeted d px py x' y') eqn:Et; [|easy].
  destruct Hn. repeat split; eauto.
Qed.

(** C9, as stated, fails in two ways.  A later directive overwrites what an
    earlier one has written, and its anchor: in the row [three_in_row] the
    control [two_lefts] holds a left directive at (1, 0), and after the call
    neither the pixel (0, 0) of its half-row nor its anchor holds the color
    the source had at the anchor.  And the control pixel is read with the
    source's width as the row stride, so that a control pixel with alpha 0
    of a narrower control image is not skipped: every pixel of
    [clear_column] has alpha 0, and the call changes [six_colors]. *)
Lemma extendSides_directive_overwritten :
  (bytes_at (data two_lefts) (width two_lefts) 1 0
   = (Some 255, Some 0, Some 0, Some 255)%Z
   /\ bytes_at (data (extendSides three_in_row two_lefts)) 3 0 0
      <> bytes_at (data three_in_row) 3 1 0
   /\ bytes_at (data (extendSides three_in_row two_lefts)) 3 1 0
      <> bytes_at (data three_in_row) 3 1 0)
  /\ (bytes_at (data clear_column) (width clear_column) 0 0
      = (Some 0, Some 0, Some 0, Some 0)%Z
      /\ bytes_at (data clear_column) (width clear_column) 0 1
         = (Some 0, Some 0, Some 0, Some 0)%Z
      /\ extendSides six_colors clear_column <> six_colors).
Proof.
  split; [split; [reflexivity|split]|split; [reflexivity|split]].
  - intros E. vm_compute in E. discriminate E.
  - intros E. vm_compute in E. discriminate E.
  - reflexivity.
  - intros E. apply (f_equal (fun image => data image !! 16)) in E.
    vm_compute in E. discriminate E.
Qed.

(** C9, amended.  Let the control image be as wide as the well-formed
    source and no higher, and let [(cr, cg, cb, ca)] be the bytes of its
    pixel at [(x, y)].  If [ca = 0] the pixel holds no directive, and the
    loop body leaves every image of the source's width as it is there.
    Otherwise the direction is left when [cr = 255], else up when
    [cg = 255], else right when [cb = 255], else down; and after the call a
    pixel of the corresponding half-row or half-column holds the color the
    source had at the anchor [(x, y)], provided that no directive visited
    earlier has overwritten the anchor and no directive visited later
    overwrites the pixel.  A pixel that no directive overwrites, an anchor
    or not, is unchanged. *)
Theorem extendSides_directive source control x y cr cg cb ca :
  well_formed source = true -> well_formed control = true ->
  width control = width source -> height control <= height source ->
  x < width control -> y < height control ->
  bytes_at (data control) (width control) x y
  = (Some cr, Some cg, Some cb, Some ca) ->
  let w := width source in
  let after := extendSides source control in
  (ca = 0%Z ->
     directive_at w control x y = None
     /\ forall s, width s = w -> extendSides_body control x y s = s)
  /\ (ca <> 0%Z ->
      directive_at w control x y = Some (direction_of cr cg cb)
      /\ forall x' y', x' < w -> y' < height source ->
           targeted (direction_of cr cg cb) x y x' y' = true ->
           (forall px py, visited_before px py x y ->
              ~ overwrites w control px py x y) ->
           (forall px py, visited_before x y px py ->
              ~ overwrites w control px py x' y') ->
           getPixel (data after) w x' y' = getPixel (data source) w x y)
  /\ (forall x' y', x' < w -> y' < height source ->
        (forall px py, ~ overwrites w control px py x' y') ->
        getPixel (data after) w x' y' = getPixel (data source) w x' y').
Proof.
  intros Hwf Hwfc Ew Hh Hx Hy Hc w after.
  assert (Hd : directive_at w control x y
               = if (ca =? 0)%Z then None else Some (direction_of cr cg cb)).
  { apply directive_bytes; [exact Hwfc|]. unfold w. now rewrite <- Ew. }
  split; [|split].
  - intros ->. split; [exact Hd|].
    intros s Es. apply extendSides_body_skip. now rewrite Es.
  - intros Hca. apply Z.eqb_neq in Hca. rewrite Hca in Hd.
    split; [exact Hd|].
    intros x' y' Hx' Hy' Ht Hbefore Hlater.
    destruct (grid_split (width control) (height control) x y Hx Hy)
      as (l1 & l2 & Eg & Hl1 & Hl2).
    unfold after. rewrite extendSides_run, Eg, run_app, run_cons.
    cbn [fst snd].
    destruct (run_shape control l1 source) as (Ew1 & Eh1 & _ & Hwf1).
    specialize (Hwf1 Hwf). set (s1 := run control l1 source) in *.
    assert (Hb1 : bytes_at (data s1) w x y = bytes_at (data source) w x y).
    { apply (run_untouched control l1 x y source Hwf).
      - intros p Hp. destruct (Hl1 p Hp) as (Hpx & Hpy & _). lia.
      - lia.
      - lia.
      - intros [px py] d Hp Ed. destruct (Hl1 _ Hp) as (Hpx & Hpy & Hv).
        eapply not_overwrites; eauto. }
    destruct (extendSides_body_bytes control x y s1 (direction_of cr cg cb))
      as (Ew2 & Eh2 & Hwf2 & Hb2); [exact Hwf1|lia|lia|now rewrite Ew1|].
    set (s2 := extendSides_body control x y s1) in *.
    assert (Hb3 : bytes_at (data (run control l2 s2)) w x' y'
                  = bytes_at (data s2) w x' y').
    { unfold w. rewrite <- Ew1, <- Ew2.
      apply (run_untouched control l2 x' y' s2 Hwf2).
      - intros p Hp. destruct (Hl2 p Hp) as (Hpx & Hpy & _). lia.
      - lia.
      - lia.
      - intros [px py] d Hp Ed. destruct (Hl2 _ Hp) as (Hpx & Hpy & Hv).
        rewrite Ew2, Ew1 in Ed. eapply not_overwrites; eauto. }
    rewrite !getPixel_bytes_at, Hb3. unfold w. rewrite <- Ew1.
    rewrite Hb2 by lia. rewrite Ht, Ew1. fold w. now rewrite Hb1.
  - intros x' y' Hx' Hy' Hfree. unfold after.
    rewrite extendSides_run, !getPixel_bytes_at. unfold w.
    rewrite (run_untouched control _ x' y' source Hwf);
      [reflexivity| |exact Hx'|exact Hy'|].
    + intros [px py] Hp. apply in_grid in Hp. cbn [fst snd]. lia.
    + intros [px py] d Hp Ed. apply in_grid in Hp as [Hpx Hpy].
      eapply not_overwrites; eauto.
Qed.

Lemma extendSides_directive_witness :
  directive_at 2 left_and_right 1 0 = Some Left
  /\ getPixel (data (extendSides four_colors left_and_right)) 2 0 0
     = getPixel (data four_colors) 2 1 0
  /\ getPixel (data (extendSides four_colors left_and_right)) 2 1 0
     = getPixel (data four_colors) 2 1 0.
Proof.
  destruct (extendSides_directive four_colors left_and_right 1 0
              255 0 0 255 eq_refl eq_refl eq_refl)
    as (_ & Hlive & Hkept);
    [cbn; lia | cbn; lia | cbn; lia | reflexivity |].
  destruct Hlive as [Hd Hfill]; [discriminate|].
  split; [exact Hd|]. split.
  - apply (Hfill 0 0); [cbn; lia | cbn; lia | reflexivity | |].
    + intros px py Hv (Hpx & Hpy & d & Ed & Et). cbn in Hpx, Hpy.
      destruct px as [|[|px]], py as [|[|py]]; try lia;
        vm_compute in Ed; try discriminate Ed;
        injection Ed as <-; try discriminate Et;
        destruct Hv as [Hv|[_ Hv]]; lia.
    + intros px py Hv (Hpx & Hpy & d & Ed & Et). cbn in Hpx, Hpy.
      destruct px as [|[|px]], py as [|[|py]]; try lia;
        vm_compute in Ed; try discriminate Ed;
        injection Ed as <-; try discriminate Et;
        destruct Hv as [Hv|[_ Hv]]; lia.
  - apply (Hkept 1 0); [cbn; lia | cbn; lia |].
    intros px py (Hpx & Hpy & d & Ed & Et). cbn in Hpx, Hpy.
    destruct px as [|[|px]], py as [|[|py]]; try lia;
      vm_compute in Ed; try discriminate Ed;
      injection Ed as <-; discriminate Et.
Defined.

(** ** The order of numbers *)

Lemma SFcompare_Lt_Gt a b :
  SFcompare a b = Some Lt -> SFcompare b a = Some Gt.
Proof.
  destruct a as [sa| sa| |sa ma ea], b as [sb| sb| |sb mb eb]; cbn;
    try discriminate;
    repeat match goal with s : bool |- _ => destruct s end;
    try discriminate; try reflexivity.
  - rewrite (Z.compare_antisym ea eb).
    destruct (ea ?= eb)%Z eqn:E; cbn; try discriminate; try reflexivity.
    rewrite !Pos.compare_cont_spec. cbn.
    rewrite (Pos.compare_antisym ma mb).
    destruct (ma ?= mb)%positive; cbn; try discriminate; reflexivity.
  - rewrite (Z.compare_antisym ea eb).
    destruct (ea ?= eb)%Z eqn:E; cbn; try discriminate; try reflexivity.
    rewrite !Pos.compare_cont_spec. cbn.
    rewrite (Pos.compare_antisym ma mb).
    destruct (ma ?= mb)%positive; cbn; try discriminate; reflexivity.
Qed.

Lemma ltb_leb x y : (x <? y)%float = true -> (x <=? y)%float = true.
Proof.
  rewrite FloatAxioms.ltb_spec, FloatAxioms.leb_spec. unfold SFltb, SFleb.
  destruct (SFcompare (Prim2SF x) (Prim2SF y)) as [[| |]|];
    congruence.
Qed.

Lemma ltb_not_leb x y : (x <? y)%float = true -> (y <=? x)%float = false.
Proof.
  rewrite FloatAxioms.ltb_spec, FloatAxioms.leb_spec. unfold SFltb, SFleb.
  destruct (SFcompare (Prim2SF x) (Prim2SF y)) as [[| |]|] eqn:E;
    try discriminate.
  now rewrite (SFcompare_Lt_Gt _ _ E).
Qed.

Lemma eqb_leb x y : (x =? y)%float = true -> (x <=? y)%float = true.
Proof.
  rewrite FloatAxioms.eqb_spec, FloatAxioms.leb_spec. unfold SFeqb, SFleb.
  destruct (SFcompare (Prim2SF x) (Prim2SF y)) as [[| |]|]; congruence.
Qed.

(** The order of numbers is a strict order apart from NaN. *)

(** Case analysis on the comparisons of exponents and mantissas. *)
Ltac compare_cases :=
  repeat match goal with
  | H : context [Pos.compare_cont Eq ?m ?n] |- _ =>
      rewrite (Pos.compare_cont_spec m n Eq) in H; cbn [Pos.switch_Eq] in H
  | |- context [Pos.compare_cont Eq ?m ?n] =>
      rewrite (Pos.compare_cont_spec m n Eq); cbn [Pos.switch_Eq]
  end;
  repeat match goal with
  | H : context [(?a ?= ?b)%Z] |- _ =>
      destruct (Z.compare_spec a b); cbn [CompOpp] in *;
      try discriminate; try lia
  | |- context [(?a ?= ?b)%Z] =>
      destruct (Z.compare_spec a b); cbn [CompOpp] in *;
      try discriminate; try lia
  end;
  repeat match goal with
  | H : context [(?a ?= ?b)%positive] |- _ =>
      destruct (Pos.compare_spec a b); cbn [CompOpp] in *;
      try discriminate; try lia
  | |- context [(?a ?= ?b)%positive] =>
      destruct (Pos.compare_spec a b); cbn [CompOpp] in *;
      try discriminate; try lia
  end;
  try reflexivity; try discriminate; try lia.

Ltac spec_float_cases a b c :=
  destruct a as [?s|?s| |?s ?m ?e], b as [?s|?s| |?s ?m ?e],
    c as [?s|?s| |?s ?m ?e];
  cbn;
  repeat match goal with s : bool |- _ => destruct s end;
  try discriminate; try reflexivity;
  intros Hab Hbc; injection Hab as Hab; injection Hbc as Hbc; f_equal;
  compare_cases.

Lemma SFcompare_Lt_Lt a b c :
  SFcompare a b = Some Lt -> SFcompare b c = Some Lt ->
  SFcompare a c = Some Lt.
Proof. spec_float_cases a b c. Qed.

Lemma SFcompare_Lt_Eq a b c :
  SFcompare a b = Some Lt -> SFcompare b c = Some Eq ->
  SFcompare a c = Some Lt.
Proof. spec_float_cases a b c. Qed.

Lemma SFcompare_Eq_Lt a b c :
  SFcompare a b = Some Eq -> SFcompare b c = Some Lt ->
  SFcompare a c = Some Lt.
Proof. spec_float_cases a b c. Qed.

Lemma SFcompare_Eq_sym a b :
  SFcompare a b = Some Eq -> SFcompare b a = Some Eq.
Proof.
  destruct a as [sa|sa| |sa ma ea], b as [sb|sb| |sb mb eb]; cbn;
    repeat match goal with s : bool |- _ => destruct s end;
    try discriminate; try reflexivity;
    intros Hab; injection Hab as Hab; f_equal; compare_cases.
Qed.

Lemma SFcompare_Gt_Lt a b :
  SFcompare a b = Some Gt -> SFcompare b a = Some Lt.
Proof.
  destruct a as [sa|sa| |sa ma ea], b as [sb|sb| |sb mb eb]; cbn;
    repeat match goal with s : bool |- _ => destruct s end;
    try discriminate; try reflexivity;
    intros Hab; injection Hab as Hab; f_equal; compare_cases.
Qed.

(** A number that is compared with itself as equal is no NaN, and two such
    numbers are comparable. *)
Lemma SFcompare_comparable a b :
  SFcompare a a = Some Eq -> SFcompare b b = Some Eq ->
  exists r, SFcompare a b = Some r.
Proof.
  destruct a as [sa|sa| |sa ma ea], b as [sb|sb| |sb mb eb]; cbn;
    try discriminate; eauto.
Qed.

Lemma SFcompare_self_l a b r :
  SFcompare a b = Some r -> SFcompare a a = Some Eq.
Proof.
  destruct a as [sa|sa| |sa ma ea], b as [sb|sb| |sb mb eb]; cbn;
    repeat match goal with s : bool |- _ => destruct s end;
    try discriminate; try reflexivity; intros _; f_equal;
    rewrite ?Z.compare_refl, ?Pos.compare_cont_refl; reflexivity.
Qed.

Lemma SFcompare_self_r a b r :
  SFcompare a b = Some r -> SFcompare b b = Some Eq.
Proof.
  destruct a as [sa|sa| |sa ma ea], b as [sb|sb| |sb mb eb]; cbn;
    repeat match goal with s : bool |- _ => destruct s end;
    try discriminate; try reflexivity; intros _; f_equal;
    rewrite ?Z.compare_refl, ?Pos.compare_cont_refl; reflexivity.
Qed.

(** The same on numbers. *)
Lemma ltb_compare x y :
  (x <? y)%float = true <-> SFcompare (Prim2SF x) (Prim2SF y) = Some Lt.
Proof.
  rewrite FloatAxioms.ltb_spec. unfold SFltb.
  destruct (SFcompare (Prim2SF x) (Prim2SF y)) as [[| |]|];
    split; congruence.
Qed.

Lemma eqb_compare x y :
  (x =? y)%float = true <-> SFcompare (Prim2SF x) (Prim2SF y) = Some Eq.
Proof.
  rewrite FloatAxioms.eqb_spec. unfold SFeqb.
  destruct (SFcompare (Prim2SF x) (Prim2SF y)) as [[| |]|];
    split; congruence.
Qed.

Lemma ltb_trans x y z :
  (x <? y)%float = true -> (y <? z)%float = true -> (x <? z)%float = true.
Proof. rewrite !ltb_compare. apply SFcompare_Lt_Lt. Qed.

Lemma ltb_eqb_trans x y z :
  (x <? y)%float = true -> (y =? z)%float = true -> (x <? z)%float = true.
Proof. rewrite !ltb_compare, eqb_compare. apply SFcompare_Lt_Eq. Qed.

Lemma eqb_ltb_trans x y z :
  (x =? y)%float = true -> (y <? z)%float = true -> (x <? z)%float = true.
Proof. rewrite !ltb_compare, eqb_compare. apply SFcompare_Eq_Lt. Qed.

Lemma eqb_sym x y : (x =? y)%float = true -> (y =? x)%float = true.
Proof. rewrite !eqb_compare. apply SFcompare_Eq_sym. Qed.

Lemma ltb_irrefl x : (x <? x)%float = false.
Proof.
  destruct (x <? x)%float eqn:E; [|reflexivity].
  apply ltb_compare in E.
  rewrite (SFcompare_self_l _ _ _ E) in E. discriminate.
Qed.

Lemma ltb_asym x y :
  (x <? y)%float = true -> (y <? x)%float = true -> False.
Proof.
  intros Hxy Hyx. pose proof (ltb_trans _ _ _ Hxy Hyx) as E.
  now rewrite ltb_irrefl in E.
Qed.

Lemma ltb_eqb_absurd x y :
  (x <? y)%float = true -> (y =? x)%float = true -> False.
Proof.
  intros Hxy Hyx. pose proof (ltb_eqb_trans _ _ _ Hxy Hyx) as E.
  now rewrite ltb_irrefl in E.
Qed.

(** Of two numbers that are no NaN, the one that is not less is greater or
    equal. *)
Lemma ltb_total x y :
  (x =? x)%float = true -> (y =? y)%float = true ->
  (x <? y)%float = false ->
  (y <? x)%float = true \/ (y =? x)%float = true.
Proof.
  intros Hx Hy Hn. apply eqb_compare in Hx, Hy.
  destruct (SFcompare_comparable _ _ Hx Hy) as [[| |] E].
  - right. apply eqb_compare. now apply SFcompare_Eq_sym.
  - apply ltb_compare in E. congruence.
  - left. apply ltb_compare. now apply SFcompare_Gt_Lt.
Qed.

Lemma ltb_self_l x y : (x <? y)%float = true -> (x =? x)%float = true.
Proof.
  rewrite ltb_compare, eqb_compare. apply SFcompare_self_l.
Qed.

Lemma ltb_self_r x y : (x <? y)%float = true -> (y =? y)%float = true.
Proof.
  rewrite ltb_compare, eqb_compare. apply SFcompare_self_r.
Qed.

Lemma eqb_self_l x y : (x =? y)%float = true -> (x =? x)%float = true.
Proof. rewrite !eqb_compare. apply SFcompare_self_l. Qed.

Lemma eqb_self_r x y : (x =? y)%float = true -> (y =? y)%float = true.
Proof. rewrite !eqb_compare. apply SFcompare_self_r. Qed.

(** ** Scans that keep the last match *)

Lemma for_range_S {S : Type} n (body : nat -> S -> S) s :
  for_range 0 (Datatypes.S n) body s = body n (for_range 0 n body s).
Proof.
  unfold for_range. rewrite !Nat.sub_0_r, seq_S, fold_left_app. reflexivity.
Qed.

Lemma for_range_0 {S : Type} (body : nat -> S -> S) s :
  for_range 0 0 body s = s.
Proof. reflexivity. Qed.

Lemma for_range_ext {S : Type} n (body body' : nat -> S -> S) s :
  (forall i acc, i < n -> body i acc = body' i acc) ->
  for_range 0 n body s = for_range 0 n body' s.
Proof.
  induction n as [|n IH]; intros E; [reflexivity|].
  rewrite !for_range_S, IH by (intros; apply E; lia). apply E. lia.
Qed.

Lemma keep_last_none {B : Type} (f : nat -> option B) n init :
  (forall i, i < n -> f i = None) ->
  for_range 0 n (keep_last f) init = init.
Proof.
  induction n as [|n IH]; intros Hn; [reflexivity|].
  rewrite for_range_S. unfold keep_last at 1.
  rewrite Hn by lia. apply IH. intros; apply Hn; lia.
Qed.

Lemma keep_last_some {B : Type} (f : nat -> option B) n init i b :
  i < n -> f i = Some b -> (forall i', i < i' < n -> f i' = None) ->
  for_range 0 n (keep_last f) init = Some b.
Proof.
  induction n as [|n IH]; intros Hi Hf Hafter; [lia|].
  rewrite for_range_S. unfold keep_last at 1.
  destruct (Nat.eq_dec i n) as [->|Hne].
  - now rewrite Hf.
  - rewrite Hafter by lia. apply IH; auto; try lia.
    intros; apply Hafter; lia.
Qed.

(** The scan ends with its initial value when nothing matches, and otherwise
    with the match at the greatest index. *)
Lemma keep_last_cases {B : Type} (f : nat -> option B) n init :
  (for_range 0 n (keep_last f) init = init
   /\ forall i, i < n -> f i = None)
  \/ exists i b, i < n /\ f i = Some b
       /\ (forall i', i < i' < n -> f i' = None)
       /\ for_range 0 n (keep_last f) init = Some b.
Proof.
  induction n as [|n IH].
  - left. split; [reflexivity|lia].
  - destruct (f n) as [b|] eqn:En.
    + right. exists n, b. repeat split; auto; try lia.
      rewrite for_range_S. unfold keep_last at 1. now rewrite En.
    + destruct IH as [[E Hnone]|(i & b & Hi & Hf & Hafter & E)].
      * left. split.
        -- rewrite for_range_S. unfold keep_last at 1. now rewrite En.
        -- intros i Hi. destruct (Nat.eq_dec i n) as [->|]; auto.
           apply Hnone. lia.
      * right. exists i, b. repeat split; auto.
        -- intros i' Hi'. destruct (Nat.eq_dec i' n) as [->|]; auto.
           apply Hafter. lia.
        -- rewrite for_range_S. unfold keep_last at 1. now rewrite En.
Qed.

Lemma keep_last_init {B : Type} (f : nat -> option B) n init :
  for_range 0 n (keep_last f) init =
  match for_range 0 n (keep_last f) None with
  | Some b => Some b
  | None => init
  end.
Proof.
  induction n as [|n IH]; [reflexivity|].
  rewrite !for_range_S. unfold keep_last at 1 3.
  destruct (f n); [reflexivity|exact IH].
Qed.

(** ** refillCorner: the center *)

Lemma findCenter_rows control :
  findCenter control =
  for_range 0 (height control) (keep_last (row_center control)) None.
Proof.
  unfold findCenter. apply for_range_ext. intros y acc _.
  unfold keep_last at 1. unfold row_center.
  rewrite <- keep_last_init.
  apply for_range_ext. intros x c _. unfold keep_last, is_marker.
  now destruct (hasColor (data control) (width control) x y CENTER_COLOR).
Qed.

Lemma row_center_None control y :
  row_center control y = None <->
  forall x, x < width control -> is_marker control CENTER_COLOR x y = false.
Proof.
  unfold row_center.
  destruct (keep_last_cases
    (fun x => if is_marker control CENTER_COLOR x y then Some (x, y) else None)
    (width control) None) as [[E Hn]|(i & b & Hi & Hf & _ & E)].
  - rewrite E. split; [|reflexivity]. intros _ x Hx.
    specialize (Hn x Hx). cbv beta in Hn.
    now destruct (is_marker control CENTER_COLOR x y).
  - rewrite E. split; [discriminate|]. intros Hn.
    cbv beta in Hf. now rewrite (Hn i Hi) in Hf.
Qed.

Lemma row_center_Some control y p :
  row_center control y = Some p ->
  exists x, p = (x, y) /\ x < width control
    /\ is_marker control CENTER_COLOR x y = true
    /\ forall x', x < x' < width control ->
         is_marker control CENTER_COLOR x' y = false.
Proof.
  unfold row_center.
  destruct (keep_last_cases
    (fun x => if is_marker control CENTER_COLOR x y then Some (x, y) else None)
    (width control) None) as [[E Hn]|(i & b & Hi & Hf & Hafter & E)];
    rewrite E; [discriminate|].
  intros [= ->]. cbv beta in Hf.
  destruct (is_marker control CENTER_COLOR i y) eqn:Ei; [|discriminate].
  injection Hf as <-. exists i. repeat split; auto.
  intros x' Hx'. specialize (Hafter x' Hx'). cbv beta in Hafter.
  now destruct (is_marker control CENTER_COLOR x' y).
Qed.

Lemma findCenter_None control :
  findCenter control = None <->
  forall x y, x < width control -> y < height control ->
    is_marker control CENTER_COLOR x y = false.
Proof.
  rewrite findCenter_rows.
  destruct (keep_last_cases (row_center control) (height control) None)
    as [[E Hn]|(i & b & Hi & Hf & _ & E)]; rewrite E.
  - split; [|reflexivity]. intros _ x y Hx Hy.
    now apply (proj1 (row_center_None control y) (Hn y Hy)).
  - split; [discriminate|]. intros Hn.
    apply row_center_Some in Hf as (x & _ & Hx & Hm & _).
    now rewrite (Hn x i Hx Hi) in Hm.
Qed.

Lemma findCenter_Some control x y :
  findCenter control = Some (x, y) ->
  x < width control /\ y < height control
  /\ is_marker control CENTER_COLOR x y = true
  /\ forall x' y', x' < width control -> y' < height control ->
       is_marker control CENTER_COLOR x' y' = true ->
       scanned_before x' y' x y.
Proof.
  rewrite findCenter_rows.
  destruct (keep_last_cases (row_center control) (height control) None)
    as [[E Hn]|(i & b & Hi & Hf & Hafter & E)]; rewrite E; [discriminate|].
  intros [= ->].
  apply row_center_Some in Hf as (x0 & [= -> ->] & Hx & Hm & Hrow).
  repeat split; auto.
  intros x' y' Hx' Hy' Hm'. unfold scanned_before.
  destruct (Nat.lt_trichotomy y' i) as [L|[->|L]]; auto.
  - right. split; [reflexivity|].
    destruct (Nat.le_gt_cases x' x0) as [|L]; auto.
    rewrite Hrow in Hm' by lia. discriminate.
  - assert (En : row_center control y' = None) by (apply Hafter; lia).
    rewrite (proj1 (row_center_None control y') En x' Hx') in Hm'.
    discriminate.
Qed.

(** A marker is a pixel whose four bytes are exactly the marker's. *)
Lemma is_marker_bytes control x y c0 c1 c2 c3 :
  well_formed control = true -> x < width control -> y < height control ->
  forallb (fun c => (c =? 0)%Z || (c =? 255)%Z) [c0; c1; c2; c3] = true ->
  is_marker control (JS.num c0, JS.num c1, JS.num c2, JS.num c3) x y = true
  <-> bytes_at (data control) (width control) x y
      = (Some c0, Some c1, Some c2, Some c3).
Proof.
  intros Hwf Hx Hy Hc.
  destruct (bytes_at_well_formed control x y Hwf Hx Hy)
    as (b0 & b1 & b2 & b3 & Eb & H0 & H1 & H2 & H3).
  unfold is_marker, hasColor. rewrite getPixel_bytes_at, Eb. cbn [as_value].
  cbn [forallb] in Hc. rewrite !andb_true_iff, !orb_true_iff in Hc.
  destruct Hc as (Hc0 & Hc1 & Hc2 & Hc3 & _).
  assert (Heq : forall b c, is_byte b = true ->
            (c =? 0)%Z = true \/ (c =? 255)%Z = true ->
            JS.strict_eq (JS.num b) (JS.num c) = (b =? c)%Z).
  { intros b c Hb [Hc|Hc]; apply Z.eqb_eq in Hc; subst c;
      auto using strict_eq_num_0, strict_eq_num_255. }
  rewrite !Heq by assumption. rewrite !andb_true_iff, !Z.eqb_eq.
  split.
  - intros (((-> & ->) & ->) & ->). reflexivity.
  - intros [= -> -> -> ->]. auto.
Qed.

(** ** refillCorner: the samples *)

Lemma fold_left_invariant {A S : Type} (P : S -> Prop) (f : S -> A -> S)
  l s :
  P s -> (forall acc a, In a l -> P acc -> P (f acc a)) ->
  P (fold_left f l s).
Proof.
  revert s. induction l as [|a l IH]; intros s Hs Hstep; [exact Hs|].
  cbn. apply IH.
  - apply Hstep; [now left|exact Hs].
  - intros acc b Hb. apply Hstep. now right.
Qed.

(** Every sample comes from an EDGE pixel inside the quadrant: its angle is
    the adjusted [atan2] of that pixel and its color the source's there. *)
Lemma collectSamples_In atan2 source control bottomHalf centerX centerY s :
  In s (collectSamples atan2 source control bottomHalf centerX centerY) ->
  exists x y,
    x < width control /\ y < height control
    /\ is_marker control EDGE_COLOR x y = true
    /\ Sample.angle s = pixelAngle atan2 bottomHalf centerX centerY x y
    /\ Sample.color s = getPixel (data source) (width control) x y.
Proof.
  unfold collectSamples. rewrite nested_for_range. revert s.
  apply fold_left_invariant.
  - intros s [].
  - intros acc [y x] Hp IH s. apply in_grid in Hp. cbn [fst snd].
    destruct (hasColor (data control) (width control) x y EDGE_COLOR) eqn:E;
      cbn [negb]; [|apply IH].
    rewrite in_app_iff. intros [Hs|[<-|[]]]; [now apply IH|].
    exists x, y. cbn. repeat split; auto; lia.
Qed.

Lemma collectSamples_none atan2 source control bottomHalf centerX centerY :
  (forall x y, x < width control -> y < height control ->
     is_marker control EDGE_COLOR x y = false) ->
  collectSamples atan2 source control bottomHalf centerX centerY = [].
Proof.
  intros Hn. unfold collectSamples. rewrite nested_for_range.
  apply fold_left_invariant; [reflexivity|].
  intros acc [y x] Hp ->. apply in_grid in Hp. cbn [fst snd].
  unfold is_marker in Hn. now rewrite Hn by lia.
Qed.

Lemma insert_sample_In a l s :
  In s (insert_sample a l) <-> s = a \/ In s l.
Proof.
  induction l as [|h t IH]; cbn.
  - intuition auto.
  - destruct (Sample.angle a <? Sample.angle h)%float; cbn.
    + intuition auto.
    + rewrite IH. intuition auto.
Qed.

Lemma sortBy_In l s : In s (sortBy l) <-> In s l.
Proof.
  unfold sortBy.
  assert (G : forall acc, In s (fold_left (fun acc s => insert_sample s acc)
                                  l acc) <-> In s acc \/ In s l).
  { induction l as [|a l IH]; intros acc; cbn; [tauto|].
    rewrite IH, insert_sample_In. intuition auto. }
  rewrite G. cbn. tauto.
Qed.

Lemma collect_fold atan2 source control bottomHalf centerX centerY pts :
  forall acc,
  fold_left (fun unsortedSamples p =>
      if negb (hasColor (data control) (width control) (snd p) (fst p)
                 EDGE_COLOR)
      then unsortedSamples
      else unsortedSamples ++
        [Sample.mk (length unsortedSamples)
           (pixelAngle atan2 bottomHalf centerX centerY (snd p) (fst p))
           (getPixel (data source) (width control) (snd p) (fst p))])
    pts acc
  = acc ++ imap (fun i q =>
      Sample.mk (length acc + i)
        (pixelAngle atan2 bottomHalf centerX centerY (fst q) (snd q))
        (getPixel (data source) (width control) (fst q) (snd q)))
      (map (fun p => (snd p, fst p))
         (List.filter (fun p => is_marker control EDGE_COLOR (snd p) (fst p))
            pts)).
Proof.
  induction pts as [|p pts IH]; intros acc.
  - cbn. now rewrite app_nil_r.
  - cbn [fold_left List.filter]. unfold is_marker at 1.
    destruct (hasColor (data control) (width control) (snd p) (fst p)
                EDGE_COLOR); cbn [negb].
    + rewrite IH. cbn [map imap fst snd]. rewrite <- app_assoc. cbn [app].
      rewrite Nat.add_0_r. do 2 f_equal.
      apply imap_ext. intros i q _. cbn. rewrite length_app. cbn [length].
      f_equal. lia.
    + apply IH.
Qed.

Lemma collectSamples_imap atan2 source control bottomHalf centerX centerY :
  collectSamples atan2 source control bottomHalf centerX centerY
  = imap (fun i q =>
      Sample.mk i
        (pixelAngle atan2 bottomHalf centerX centerY (fst q) (snd q))
        (getPixel (data source) (width control) (fst q) (snd q)))
      (marked control EDGE_COLOR).
Proof.
  unfold collectSamples.
  rewrite (nested_for_range (height control) (width control)
    (fun y x unsortedSamples =>
       if negb (hasColor (data control) (width control) x y EDGE_COLOR)
       then unsortedSamples
       else unsortedSamples ++
         [Sample.mk (length unsortedSamples)
            (pixelAngle atan2 bottomHalf centerX centerY x y)
            (getPixel (data source) (width control) x y)])).
  now rewrite collect_fold.
Qed.

(** ** refillCorner: the order of the samples *)

Lemma sample_lt_asym a b : sample_lt a b -> sample_lt b a -> False.
Proof.
  intros [Hab|[Hab Rab]] [Hba|[Hba Rba]].
  - eapply ltb_asym; eauto.
  - eapply ltb_eqb_absurd; eauto.
  - eapply ltb_eqb_absurd; eauto.
  - lia.
Qed.

(** After a smaller sample, or an equal one that was pushed earlier, comes
    whatever comes after the larger. *)
Lemma sample_lt_angle s h t :
  (Sample.angle s <? Sample.angle h)%float = true -> sample_lt h t ->
  sample_lt s t.
Proof.
  intros Hsh [Hht|[Hht _]]; left.
  - eapply ltb_trans; eauto.
  - eapply ltb_eqb_trans; eauto.
Qed.

Lemma insert_sample_ordered s : forall acc,
  ForallOrdPairs sample_lt acc ->
  (forall a, In a acc -> Sample.ref a < Sample.ref s) ->
  (Sample.angle s =? Sample.angle s)%float = true ->
  (forall a, In a acc ->
     (Sample.angle a =? Sample.angle a)%float = true) ->
  ForallOrdPairs sample_lt (insert_sample s acc).
Proof.
  induction acc as [|h t IH]; intros Hord Href Hs Hacc; cbn [insert_sample].
  - constructor; constructor.
  - inversion Hord as [|? ? Hh Ht]; subst.
    destruct (Sample.angle s <? Sample.angle h)%float eqn:E.
    + constructor; [|exact Hord].
      constructor; [now left|].
      rewrite List.Forall_forall in Hh |- *. intros x Hx.
      eapply sample_lt_angle; eauto.
    + constructor.
      * rewrite List.Forall_forall in Hh |- *. intros x Hx.
        apply insert_sample_In in Hx as [->|Hx]; [|now apply Hh].
        destruct (ltb_total _ _ Hs (Hacc h (or_introl eq_refl)) E)
          as [Hlt|Heq]; [now left|].
        right. split; [exact Heq|]. apply Href. now left.
      * apply IH; auto.
        -- intros a Ha. apply Href. now right.
        -- intros a Ha. apply Hacc. now right.
Qed.

(** [sortBy] puts samples that are pushed in the order of their [ref] and
    whose angles are no NaN in the order of a stable sort by angle. *)
Lemma sortBy_ordered l :
  ForallOrdPairs (fun a b => Sample.ref a < Sample.ref b) l ->
  (forall a, In a l -> (Sample.angle a =? Sample.angle a)%float = true) ->
  ForallOrdPairs sample_lt (sortBy l).
Proof.
  unfold sortBy.
  assert (G : forall acc,
    ForallOrdPairs sample_lt acc ->
    (forall a s, In a acc -> In s l -> Sample.ref a < Sample.ref s) ->
    (forall a, In a acc ->
       (Sample.angle a =? Sample.angle a)%float = true) ->
    ForallOrdPairs (fun a b => Sample.ref a < Sample.ref b) l ->
    (forall a, In a l -> (Sample.angle a =? Sample.angle a)%float = true) ->
    ForallOrdPairs sample_lt
      (fold_left (fun acc s => insert_sample s acc) l acc)).
  { induction l as [|s l IH]; intros acc Hord Href Hacc Hl Hnan;
      [exact Hord|].
    cbn [fold_left]. inversion Hl as [|? ? Hs Hrest]; subst.
    apply IH.
    - apply insert_sample_ordered; auto.
      + intros a Ha. apply Href; [exact Ha|now left].
      + apply Hnan. now left.
    - intros a s' Ha Hs'. apply insert_sample_In in Ha as [->|Ha].
      + rewrite List.Forall_forall in Hs. now apply Hs.
      + apply Href; [exact Ha|now right].
    - intros a Ha. apply insert_sample_In in Ha as [->|Ha].
      + apply Hnan. now left.
      + now apply Hacc.
    - exact Hrest.
    - intros a Ha. apply Hnan. now right. }
  intros Hl Hnan. apply G; auto.
  - constructor.
  - intros a s [].
Qed.

(** The samples are pushed in the order of their [ref]. *)
Lemma imap_refs {A : Type} (g : nat -> A -> Sample.t) (l : list A) :
  forall k, (forall i q, Sample.ref (g i q) = k + i) ->
  ForallOrdPairs (fun a b => Sample.ref a < Sample.ref b) (imap g l).
Proof.
  revert g. induction l as [|x l IH]; intros g k Hg; [constructor|].
  cbn [imap]. constructor.
  - rewrite List.Forall_forall. intros s Hs.
    apply list_elem_of_In, elem_of_lookup_imap in Hs as (i & q & -> & _).
    cbn. rewrite !Hg. lia.
  - apply (IH _ (S k)). intros i q. cbn. rewrite Hg. lia.
Qed.

Lemma collectSamples_refs atan2 source control bottomHalf centerX centerY :
  ForallOrdPairs (fun a b => Sample.ref a < Sample.ref b)
    (collectSamples atan2 source control bottomHalf centerX centerY).
Proof.
  rewrite collectSamples_imap. apply (imap_refs _ _ 0). reflexivity.
Qed.

Lemma ordered_head {A : Type} (R : A -> A -> Prop) h t s :
  ForallOrdPairs R (h :: t) -> In s (h :: t) -> s = h \/ R h s.
Proof.
  intros Hord [<-|Hs]; [now left|]. right.
  inversion Hord as [|? ? Hh _]; subst.
  rewrite List.Forall_forall in Hh. now apply Hh.
Qed.

Lemma ordered_last {A : Type} (R : A -> A -> Prop) front final s :
  ForallOrdPairs R (front ++ [final]) -> In s (front ++ [final]) ->
  s = final \/ R s final.
Proof.
  induction front as [|h t IH]; cbn [app]; intros Hord Hs.
  - destruct Hs as [<-|[]]. now left.
  - inversion Hord as [|? ? Hh Ht]; subst.
    destruct Hs as [<-|Hs]; [|now apply IH].
    right. rewrite List.Forall_forall in Hh. apply Hh.
    apply in_app_iff. right. now left.
Qed.

(** The angles of the samples are no NaN when one of them is the smallest,
    or the largest. *)
Lemma smallest_no_nan samples low s :
  smallest_sample samples low ->
  (Sample.angle low =? Sample.angle low)%float = true -> In s samples ->
  (Sample.angle s =? Sample.angle s)%float = true.
Proof.
  intros [_ Hmin] Hlow Hs.
  destruct (Hmin s Hs) as [->|[Hlt|[Heq _]]]; [exact Hlow| |].
  - eapply ltb_self_r; eauto.
  - eapply eqb_self_r; eauto.
Qed.

Lemma largest_no_nan samples high s :
  largest_sample samples high ->
  (Sample.angle high =? Sample.angle high)%float = true -> In s samples ->
  (Sample.angle s =? Sample.angle s)%float = true.
Proof.
  intros [_ Hmax] Hhigh Hs.
  destruct (Hmax s Hs) as [->|[Hlt|[Heq _]]]; [exact Hhigh| |].
  - eapply ltb_self_l; eauto.
  - eapply eqb_self_l; eauto.
Qed.

(** The sorted samples start with the smallest and end with the largest. *)
Lemma sortBy_head l low :
  ForallOrdPairs (fun a b => Sample.ref a < Sample.ref b) l ->
  (Sample.angle low =? Sample.angle low)%float = true ->
  smallest_sample l low ->
  exists rest, sortBy l = low :: rest.
Proof.
  intros Hrefs Hlow Hsmall.
  pose proof (sortBy_ordered l Hrefs
                (fun s => smallest_no_nan l low s Hsmall Hlow)) as Hord.
  destruct Hsmall as [Hin Hmin].
  destruct (sortBy l) as [|h rest] eqn:Es.
  - apply sortBy_In in Hin. rewrite Es in Hin. destruct Hin.
  - exists rest. f_equal.
    assert (Hh : In h l) by (apply sortBy_In; rewrite Es; now left).
    assert (Hl : In low (h :: rest)) by (rewrite <- Es; now apply sortBy_In).
    destruct (Hmin h Hh) as [E|Hlt]; [exact E|].
    destruct (ordered_head _ _ _ _ Hord Hl) as [E|Hgt]; [now symmetry|].
    destruct (sample_lt_asym _ _ Hlt Hgt).
Qed.

Lemma sortBy_last l high :
  ForallOrdPairs (fun a b => Sample.ref a < Sample.ref b) l ->
  (Sample.angle high =? Sample.angle high)%float = true ->
  largest_sample l high ->
  exists front, sortBy l = front ++ [high].
Proof.
  intros Hrefs Hhigh Hlarge.
  pose proof (sortBy_ordered l Hrefs
                (fun s => largest_no_nan l high s Hlarge Hhigh)) as Hord.
  destruct Hlarge as [Hin Hmax].
  destruct (last (sortBy l)) as [final|] eqn:El.
  - apply last_Some in El as [front Es]. exists front.
    rewrite Es. do 2 f_equal.
    assert (Hf : In final l).
    { apply sortBy_In. rewrite Es. apply in_app_iff. right. now left. }
    assert (Hl : In high (front ++ [final]))
      by (rewrite <- Es; now apply sortBy_In).
    rewrite Es in Hord.
    destruct (Hmax final Hf) as [E|Hlt]; [exact E|].
    destruct (ordered_last _ _ _ _ Hord Hl) as [E|Hgt]; [now symmetry|].
    destruct (sample_lt_asym _ _ Hlt Hgt).
  - apply last_None in El. apply sortBy_In in Hin. rewrite El in Hin.
    destruct Hin.
Qed.

(** Samples whose angles are no NaN have a smallest and a largest one. *)
Lemma extreme_samples l :
  ForallOrdPairs (fun a b => Sample.ref a < Sample.ref b) l ->
  (forall s, In s l -> (Sample.angle s =? Sample.angle s)%float = true) ->
  l <> [] ->
  exists low high, smallest_sample l low /\ largest_sample l high.
Proof.
  intros Hrefs Hnan Hne. pose proof (sortBy_ordered l Hrefs Hnan) as Hord.
  destruct (sortBy l) as [|h rest] eqn:Es.
  { destruct l as [|s l]; [easy|].
    assert (Hs : In s (sortBy (s :: l))) by (apply sortBy_In; now left).
    rewrite Es in Hs. destruct Hs. }
  destruct (last (h :: rest)) as [final|] eqn:El;
    [|apply last_None in El; discriminate].
  apply last_Some in El as [front Ef].
  exists h, final. split; split.
  - apply sortBy_In. rewrite Es. now left.
  - intros s Hs. apply sortBy_In in Hs. rewrite Es in Hs.
    now apply (ordered_head _ _ _ _ Hord).
  - apply sortBy_In. rewrite Es, Ef. apply in_app_iff. right. now left.
  - intros s Hs. apply sortBy_In in Hs. rewrite Es, Ef in Hs.
    rewrite Ef in Hord. now apply (ordered_last _ _ _ _ Hord).
Qed.

(** ** refillCorner: the fill loop *)

Lemma refill_loop_grid atan2 control bottomHalf centerX centerY samples st :
  for_range 0 (height control) (fun y =>
    for_range 0 (width control) (fun x =>
      refill_body atan2 control bottomHalf centerX centerY samples x y)) st
  = fold_left (fun acc p =>
      refill_body atan2 control bottomHalf centerX centerY samples
        (snd p) (fst p) acc)
      (grid (height control) (width control)) st.
Proof.
  exact (nested_for_range (height control) (width control)
    (fun y x => refill_body atan2 control bottomHalf centerX centerY samples
                  x y) st).
Qed.

Lemma refill_fold_thrown atan2 control bottomHalf centerX centerY samples
  pts e :
  fold_left (fun acc p =>
      refill_body atan2 control bottomHalf centerX centerY samples
        (snd p) (fst p) acc) pts (inl e) = inl e.
Proof. induction pts as [|p pts IH]; [reflexivity|exact IH]. Qed.

(** Without a sample, the first target pixel throws and nothing has been
    written. *)
Lemma refill_fold_no_sample atan2 control bottomHalf centerX centerY pts
  result :
  fold_left (fun acc p =>
      refill_body atan2 control bottomHalf centerX centerY [] (snd p) (fst p)
        acc) pts (inr result)
  = if existsb (fun p => is_marker control TARGET_COLOR (snd p) (fst p)) pts
    then inl (TypeError, data result)
    else inr result.
Proof.
  induction pts as [|p pts IH]; [reflexivity|].
  cbn [fold_left existsb]. unfold refill_body at 2, is_marker at 1.
  destruct (hasColor (data control) (width control) (snd p) (fst p)
              TARGET_COLOR); cbn [negb orb].
  - cbn. apply refill_fold_thrown.
  - exact IH.
Qed.

Lemma sampleBefore_nonempty samples angle :
  samples <> [] -> exists s, sampleBefore samples angle = Some s.
Proof.
  intros Hne. unfold sampleBefore, JS.nullish.
  destruct (JS.findLast _ samples); [eauto|].
  destruct samples; [contradiction|]. cbn. eauto.
Qed.

Lemma index_last {A : Type} (front : list A) final :
  JS.index (front ++ [final]) (Z.of_nat (length (front ++ [final])) - 1)
  = Some final.
Proof.
  unfold JS.index. rewrite length_app. cbn [length].
  destruct (Z.of_nat (length front + 1) - 1 <? 0)%Z eqn:E;
    [apply Z.ltb_lt in E; lia|].
  replace (Z.to_nat (Z.of_nat (length front + 1) - 1)) with (length front)
    by lia.
  apply list_lookup_middle. reflexivity.
Qed.

Lemma sampleAfter_nonempty samples angle :
  samples <> [] -> exists s, sampleAfter samples angle = Some s.
Proof.
  intros Hne. unfold sampleAfter, JS.nullish.
  destruct (JS.find _ samples); [eauto|].
  destruct (exists_last Hne) as (front & final & ->).
  rewrite index_last. eauto.
Qed.

Lemma lerpSamples_defined b a angle :
  exists c, lerpSamples (Some b) (Some a) angle = inr c.
Proof.
  unfold lerpSamples. destruct (same_sample (Some b) (Some a)); [eauto|].
  destruct (Sample.color b) as [[[b0 b1] b2] b3].
  destruct (Sample.color a) as [[[a0 a1] a2] a3]. eauto.
Qed.

(** With a sample, the loop never throws: it plots the fill color on the
    target pixels. *)
Lemma refill_fold_plot atan2 control bottomHalf centerX centerY samples pts
  result :
  samples <> [] ->
  fold_left (fun acc p =>
      refill_body atan2 control bottomHalf centerX centerY samples
        (snd p) (fst p) acc) pts (inr result)
  = inr (plot (fun q =>
           fill_color samples
             (pixelAngle atan2 bottomHalf centerX centerY (fst q) (snd q)))
         (map (fun p => (snd p, fst p))
            (List.filter
               (fun p => is_marker control TARGET_COLOR (snd p) (fst p))
               pts))
         result).
Proof.
  intros Hne. revert result.
  induction pts as [|p pts IH]; intros result; [reflexivity|].
  cbn [fold_left List.filter]. unfold refill_body at 2, is_marker at 1.
  destruct (hasColor (data control) (width control) (snd p) (fst p)
              TARGET_COLOR); cbn [negb].
  - cbn [map]. rewrite plot_cons. cbn [fst snd]. unfold fill_color at 2.
    set (angle := pixelAngle atan2 bottomHalf centerX centerY (snd p) (fst p)).
    destruct (sampleBefore_nonempty samples angle Hne) as [b ->].
    destruct (sampleAfter_nonempty samples angle Hne) as [a ->].
    destruct (lerpSamples_defined b a angle) as [[[[r g] bl] al] ->].
    apply IH.
  - apply IH.
Qed.

Lemma in_targets control x y :
  In (x, y) (targets control) <->
  x < width control /\ y < height control
  /\ is_marker control TARGET_COLOR x y = true.
Proof.
  unfold targets. rewrite in_map_iff. split.
  - intros ([j i] & [= <- <-] & Hp). apply filter_In in Hp as [Hg Hm].
    apply in_grid in Hg. cbn [fst snd] in *. tauto.
  - intros (Hx & Hy & Hm). exists (y, x). split; [reflexivity|].
    apply filter_In. split; [apply in_grid; lia|exact Hm].
Qed.

(** ** refillCorner: the claims *)

(** C3.  In a well-formed control quadrant, the center that [refillCorner]
    uses is a pixel whose bytes are exactly (0, 255, 0, 255), and every
    other such pixel is scanned before it in row-major order; a center is
    found whenever such a pixel exists; and when none exists
    [refillCorner] ends in [process.exit(1)], returning no image. *)
Theorem refillCorner_center atan2 source control bottomHalf :
  well_formed control = true ->
  (forall x y, findCenter control = Some (x, y) ->
     x < width control /\ y < height control
     /\ bytes_at (data control) (width control) x y
        = (Some 0, Some 255, Some 0, Some 255)%Z
     /\ forall x' y', x' < width control -> y' < height control ->
          bytes_at (data control) (width control) x' y'
          = (Some 0, Some 255, Some 0, Some 255)%Z ->
          scanned_before x' y' x y)
  /\ ((exists x y, x < width control /\ y < height control
         /\ bytes_at (data control) (width control) x y
            = (Some 0, Some 255, Some 0, Some 255)%Z) ->
      exists x y, findCenter control = Some (x, y))
  /\ ((forall x y, x < width control -> y < height control ->
         bytes_at (data control) (width control) x y
         <> (Some 0, Some 255, Some 0, Some 255)%Z) ->
      findCenter control = None
      /\ refillCorner atan2 source control bottomHalf = Exited 1).
Proof.
  intros Hwf.
  assert (Hm : forall x y, x < width control -> y < height control ->
            is_marker control CENTER_COLOR x y = true
            <-> bytes_at (data control) (width control) x y
                = (Some 0, Some 255, Some 0, Some 255)%Z).
  { intros x y Hx Hy. now apply is_marker_bytes. }
  repeat split.
  - now apply findCenter_Some in H.
  - now apply findCenter_Some in H.
  - apply findCenter_Some in H as (Hx & Hy & Hc & _). now apply Hm.
  - intros x' y' Hx' Hy' Hb.
    apply findCenter_Some in H as (_ & _ & _ & Hlast).
    apply Hlast; auto. now apply Hm.
  - intros (x & y & Hx & Hy & Hb).
    destruct (findCenter control) as [[cx cy]|] eqn:E; [eauto|].
    apply (proj2 (Hm x y Hx Hy)) in Hb.
    rewrite (proj1 (findCenter_None control) E x y Hx Hy) in Hb. discriminate.
  - apply findCenter_None. intros x y Hx Hy.
    destruct (is_marker control CENTER_COLOR x y) eqn:E; [|reflexivity].
    apply Hm in E; auto. now apply H in E.
  - unfold refillCorner.
    assert (E : findCenter control = None).
    { apply findCenter_None. intros x y Hx Hy.
      destruct (is_marker control CENTER_COLOR x y) eqn:E; [|reflexivity].
      apply Hm in E; auto. now apply H in E. }
    now rewrite E.
Qed.

Lemma refillCorner_center_witness :
  (exists x y, findCenter two_centers = Some (x, y)
     /\ scanned_before 0 0 x y)
  /\ refillCorner atan2_compass row_of_four edge_and_target false = Exited 1.
Proof.
  split.
  - destruct (refillCorner_center atan2_compass row_of_four two_centers false
                eq_refl) as (Hlast & Hfound & _).
    destruct Hfound as (x & y & E).
    { exists 2, 0. repeat split; cbn; lia. }
    exists x, y. split; [exact E|].
    destruct (Hlast x y E) as (_ & _ & _ & Hbefore).
    apply Hbefore; [cbn; lia | cbn; lia | reflexivity].
  - destruct (refillCorner_center atan2_compass row_of_four edge_and_target
                false eq_refl) as (_ & _ & Hnone).
    apply Hnone. intros x y Hx Hy. cbn in Hx, Hy.
    destruct y as [|y]; [|lia].
    destruct x as [|[|[|[|x]]]]; try lia; discriminate.
Defined.

(** C4, as stated, fails at the raw angle 0, which is not negative: in a
    bottom-half quadrant it stays 0 and does not become [0 - 2 pi].  The
    raw angle 0 is that of a pixel in the center's row, to the right of the
    center: the two samples of the bottom-half row [two_edges_one_ray] have
    the adjusted angle 0. *)
Lemma adjustedAngle_bottom_zero :
  (JS.of_Z 0 <=? JS.of_Z 0)%float = true
  /\ adjustedAngle true (JS.of_Z 0) = JS.of_Z 0
  /\ adjustedAngle true (JS.of_Z 0) <> (JS.of_Z 0 - TWO_PI)%float
  /\ map Sample.angle
       (collectSamples atan2_compass row_of_four two_edges_one_ray true 0 0)
     = [JS.of_Z 0; JS.of_Z 0].
Proof.
  repeat split. intros E.
  apply (f_equal (fun a => (a =? JS.of_Z 0)%float)) in E.
  vm_compute in E. discriminate E.
Qed.

(** C4, amended.  Every sample angle and every target angle is
    [adjustedAngle bottomHalf (atan2 (centerY - y) (x - centerX))].  In a
    bottom-half quadrant a raw angle greater than 0 becomes [raw - 2 pi] and
    a raw angle that is 0 or negative is kept; in a top-half quadrant a
    negative raw angle becomes [raw + 2 pi] and a raw angle that is 0 or
    positive is kept. *)
Theorem adjustedAngle_by_half atan2 source control bottomHalf centerX centerY
  samples :
  (forall s,
     In s (collectSamples atan2 source control bottomHalf centerX centerY) ->
     exists x y, x < width control /\ y < height control
       /\ is_marker control EDGE_COLOR x y = true
       /\ Sample.angle s
          = adjustedAngle bottomHalf
              (atan2 (JS.of_nat centerY - JS.of_nat y)%float
                     (JS.of_nat x - JS.of_nat centerX)%float))
  /\ (forall x y result,
        is_marker control TARGET_COLOR x y = true ->
        refill_body atan2 control bottomHalf centerX centerY samples x y
          (inr result)
        = let angle :=
            adjustedAngle bottomHalf
              (atan2 (JS.of_nat centerY - JS.of_nat y)%float
                     (JS.of_nat x - JS.of_nat centerX)%float) in
          match lerpSamples (sampleBefore samples angle)
                  (sampleAfter samples angle) angle with
          | inl e => inl (e, data result)
          | inr (r, g, b, a) => inr (setPixel result x y r g b a)
          end)
  /\ (forall raw, (JS.of_Z 0 <? raw)%float = true ->
        adjustedAngle true raw = (raw - TWO_PI)%float)
  /\ (forall raw, (raw =? JS.of_Z 0)%float = true ->
        adjustedAngle true raw = raw)
  /\ (forall raw, (raw <? JS.of_Z 0)%float = true ->
        adjustedAngle true raw = raw)
  /\ (forall raw, (raw <? JS.of_Z 0)%float = true ->
        adjustedAngle false raw = (raw + TWO_PI)%float)
  /\ (forall raw, (JS.of_Z 0 <=? raw)%float = true ->
        adjustedAngle false raw = raw).
Proof.
  repeat split.
  - intros s Hs. apply collectSamples_In in Hs
      as (x & y & Hx & Hy & Hm & Ha & _).
    exists x, y. repeat split; auto.
  - intros x y result Hm. unfold refill_body.
    unfold is_marker in Hm. now rewrite Hm.
  - intros raw H. unfold adjustedAngle. now rewrite (ltb_not_leb _ _ H).
  - intros raw H. unfold adjustedAngle. now rewrite (eqb_leb _ _ H).
  - intros raw H. unfold adjustedAngle. now rewrite (ltb_leb _ _ H).
  - intros raw H. unfold adjustedAngle. now rewrite (ltb_not_leb _ _ H).
  - intros raw H. unfold adjustedAngle. now rewrite H.
Qed.

Lemma adjustedAngle_by_half_witness :
  adjustedAngle true Math_PI = (Math_PI - TWO_PI)%float
  /\ adjustedAngle true (JS.of_Z 0) = JS.of_Z 0
  /\ adjustedAngle false (- Math_PI)%float = (- Math_PI + TWO_PI)%float.
Proof.
  destruct (adjustedAngle_by_half atan2_compass row_of_four two_centers true
              2 0 []) as (_ & _ & Hpos & Hzero & _ & Hneg & _).
  split; [apply Hpos; reflexivity|].
  split; [apply Hzero; reflexivity|apply Hneg; reflexivity].
Defined.

(** C10.  A quadrant with a CENTER pixel and a TARGET pixel but no EDGE
    pixel: the sample list is empty, both bracketing samples are
    [undefined] whatever the angle, [lerpSamples] throws a [TypeError] on
    them, and [refillCorner] ends with that exception, thrown at the first
    target pixel, before any pixel has been written. *)
Theorem refillCorner_no_edge atan2 source control bottomHalf :
  (exists x y, x < width control /\ y < height control
     /\ is_marker control CENTER_COLOR x y = true) ->
  (forall x y, x < width control -> y < height control ->
     is_marker control EDGE_COLOR x y = false) ->
  (exists x y, x < width control /\ y < height control
     /\ is_marker control TARGET_COLOR x y = true) ->
  (exists centerX centerY,
     findCenter control = Some (centerX, centerY)
     /\ sortBy (collectSamples atan2 source control bottomHalf
                  centerX centerY) = [])
  /\ (forall angle,
        sampleBefore [] angle = None /\ sampleAfter [] angle = None
        /\ lerpSamples (sampleBefore [] angle) (sampleAfter [] angle) angle
           = inl TypeError)
  /\ refillCorner atan2 source control bottomHalf
     = Threw TypeError (data source).
Proof.
  intros (x & y & Hx & Hy & Hc) Hedge (tx & ty & Htx & Hty & Ht).
  destruct (findCenter control) as [[centerX centerY]|] eqn:E.
  2:{ rewrite (proj1 (findCenter_None control) E x y Hx Hy) in Hc.
      discriminate. }
  assert (Hs : sortBy (collectSamples atan2 source control bottomHalf
                         centerX centerY) = []).
  { now rewrite collectSamples_none. }
  split; [eauto|]. split; [intros angle; repeat split|].
  unfold refillCorner. rewrite E, Hs, refill_loop_grid, refill_fold_no_sample.
  cbn [data].
  replace (existsb _ _) with true; [reflexivity|].
  symmetry. apply existsb_exists. exists (ty, tx).
  split; [apply in_grid; lia|exact Ht].
Qed.

Lemma refillCorner_no_edge_witness :
  refillCorner atan2_compass row_of_four center_and_target false
  = Threw TypeError (data row_of_four).
Proof.
  apply (refillCorner_no_edge atan2_compass row_of_four center_and_target
           false).
  - exists 0, 0. repeat split; cbn; lia.
  - intros x y Hx Hy. cbn in Hx, Hy.
    destruct y as [|y]; [|lia].
    destruct x as [|[|[|[|x]]]]; try lia; reflexivity.
  - exists 3, 0. repeat split; cbn; lia.
Defined.

(** ** refillCorner: clamping at the extremes *)

Lemma find_all_false {A : Type} (p : A -> bool) l :
  (forall s, In s l -> p s = false) -> List.find p l = None.
Proof.
  induction l as [|a l IH]; intros H; [reflexivity|].
  cbn. rewrite (H a) by now left. apply IH. intros; apply H; now right.
Qed.

Lemma same_sample_refl s : same_sample (Some s) (Some s) = true.
Proof. cbn. apply Nat.eqb_refl. Qed.

(** Below every sample angle both brackets are the first sample. *)
Lemma brackets_below first rest angle :
  (forall s, In s (first :: rest) ->
     (angle <? Sample.angle s)%float = true) ->
  sampleBefore (first :: rest) angle = Some first
  /\ sampleAfter (first :: rest) angle = Some first.
Proof.
  intros Hlow. unfold sampleBefore, sampleAfter, JS.findLast, JS.find.
  rewrite find_all_false.
  2:{ intros s Hs. apply ltb_not_leb, Hlow. now apply in_rev. }
  cbn [JS.nullish List.find].
  rewrite (ltb_leb _ _ (Hlow first (or_introl eq_refl))).
  split; reflexivity.
Qed.

(** Above every sample angle both brackets are the last sample. *)
Lemma brackets_above front final angle :
  (forall s, In s (front ++ [final]) ->
     (Sample.angle s <? angle)%float = true) ->
  sampleBefore (front ++ [final]) angle = Some final
  /\ sampleAfter (front ++ [final]) angle = Some final.
Proof.
  intros Hhigh. unfold sampleBefore, sampleAfter, JS.findLast, JS.find.
  rewrite rev_unit. cbn [List.find].
  assert (Hf : In final (front ++ [final]))
    by (apply in_app_iff; right; now left).
  rewrite (ltb_leb _ _ (Hhigh final Hf)).
  rewrite (find_all_false (fun s => (angle <=? Sample.angle s)%float)).
  2:{ intros s Hs. now apply ltb_not_leb, Hhigh. }
  cbn [JS.nullish]. rewrite index_last. split; reflexivity.
Qed.

(** When both brackets are one sample, the fill color is that sample's. *)
Lemma fill_color_same samples angle s :
  sampleBefore samples angle = Some s ->
  sampleAfter samples angle = Some s ->
  fill_color samples angle = Sample.color s.
Proof.
  intros Eb Ea. unfold fill_color, lerpSamples.
  now rewrite Eb, Ea, same_sample_refl.
Qed.

(** The color of a sample is four bytes of the source. *)
Lemma sample_color_bytes atan2 source control bottomHalf centerX centerY s :
  well_formed source = true ->
  width source = width control -> height source = height control ->
  In s (sortBy (collectSamples atan2 source control bottomHalf
                  centerX centerY)) ->
  exists b0 b1 b2 b3,
    Sample.color s = (JS.num b0, JS.num b1, JS.num b2, JS.num b3)
    /\ is_byte b0 = true /\ is_byte b1 = true
    /\ is_byte b2 = true /\ is_byte b3 = true.
Proof.
  intros Hwf Ew Eh Hs. apply sortBy_In, collectSamples_In in Hs
    as (x & y & Hx & Hy & _ & _ & ->).
  rewrite <- Ew in *. rewrite <- Eh in *.
  destruct (bytes_at_well_formed source x y Hwf Hx Hy)
    as (b0 & b1 & b2 & b3 & Eb & H).
  exists b0, b1, b2, b3. split; [|exact H].
  now rewrite getPixel_bytes_at, Eb.
Qed.

(** C7.  In a quadrant whose center is found, take the samples in the order
    in which they are collected.  For a target pixel whose adjusted angle
    is smaller than the angle of the smallest sample (the sample of the
    smallest angle, of several the one collected first), the sorted samples
    start with that sample, both bracketing samples are that sample, no
    interpolation takes place, and [refillCorner] returns with the pixel
    holding exactly its color.  For a target pixel whose adjusted angle is
    larger than the angle of the largest sample (of several the one
    collected last), the sorted samples end with that sample and the pixel
    ends with exactly its color.  A quadrant with at least one sample,
    whose angles are no NaN, has a smallest and a largest sample. *)
Theorem refillCorner_clamps atan2 source control bottomHalf centerX centerY
  x y :
  well_formed source = true ->
  width source = width control -> height source = height control ->
  findCenter control = Some (centerX, centerY) ->
  x < width control -> y < height control ->
  is_marker control TARGET_COLOR x y = true ->
  let unsorted :=
    collectSamples atan2 source control bottomHalf centerX centerY in
  let samples := sortBy unsorted in
  let angle := pixelAngle atan2 bottomHalf centerX centerY x y in
  (forall low, smallest_sample unsorted low ->
     (angle <? Sample.angle low)%float = true ->
     exists result,
       refillCorner atan2 source control bottomHalf = Returned result
       /\ head samples = Some low
       /\ sampleBefore samples angle = Some low
       /\ sampleAfter samples angle = Some low
       /\ getPixel (data result) (width control) x y = Sample.color low)
  /\ (forall high, largest_sample unsorted high ->
        (Sample.angle high <? angle)%float = true ->
        exists result,
          refillCorner atan2 source control bottomHalf = Returned result
          /\ last samples = Some high
          /\ sampleBefore samples angle = Some high
          /\ sampleAfter samples angle = Some high
          /\ getPixel (data result) (width control) x y
             = Sample.color high)
  /\ (unsorted <> [] ->
      (forall s, In s unsorted ->
         (Sample.angle s =? Sample.angle s)%float = true) ->
      exists low high,
        smallest_sample unsorted low /\ largest_sample unsorted high).
Proof.
  intros Hwf Ew Eh Ec Hx Hy Ht unsorted samples angle.
  pose proof (collectSamples_refs atan2 source control bottomHalf
                centerX centerY) as Hrefs. fold unsorted in Hrefs.
  set (start := mkImageData (width control) (height control) (data source)).
  set (c := fun q : nat * nat =>
              fill_color samples
                (pixelAngle atan2 bottomHalf centerX centerY (fst q) (snd q))).
  assert (Hrun : samples <> [] ->
            refillCorner atan2 source control bottomHalf
            = Returned (plot c (targets control) start)).
  { intros Hne. unfold refillCorner. rewrite Ec. fold unsorted samples.
    rewrite refill_loop_grid, (refill_fold_plot _ _ _ _ _ _ _ _ Hne).
    reflexivity. }
  assert (Hlen : length (data start)
                 = PIXEL_SIZE * (width control * height control)).
  { apply well_formed_spec in Hwf as [Hl _]. cbn [start data].
    now rewrite Hl, Ew, Eh. }
  assert (Hpix : bytes_at (data (plot c (targets control) start))
                   (width control) x y = clamped (fill_color samples angle)).
  { change (width control) with (width start) at 1.
    rewrite plot_inside; [reflexivity| |now apply in_targets].
    intros [px py] Hp. apply in_targets in Hp as (Hpx & Hpy & _).
    cbn [fst snd]. split; [exact Hpx|].
    rewrite Hlen. now apply pixel_index_bound. }
  assert (Hcolor : forall s, In s samples ->
            fill_color samples angle = Sample.color s ->
            getPixel (data (plot c (targets control) start))
              (width control) x y = Sample.color s).
  { intros s Hs Es.
    destruct (sample_color_bytes atan2 source control bottomHalf
                centerX centerY s Hwf Ew Eh Hs)
      as (b0 & b1 & b2 & b3 & Eb & H0 & H1 & H2 & H3).
    rewrite getPixel_bytes_at, Hpix, Es, Eb. cbn [clamped as_value].
    now rewrite !ToUint8Clamp_num. }
  split; [|split].
  - intros low Hsmall Hangle.
    destruct (sortBy_head unsorted low Hrefs (ltb_self_r _ _ Hangle) Hsmall)
      as [rest Es]. fold samples in Es.
    assert (Hlow : forall s, In s (low :: rest) ->
              (angle <? Sample.angle s)%float = true).
    { intros s Hs. rewrite <- Es in Hs.
      apply (proj1 (sortBy_In unsorted s)) in Hs.
      destruct Hsmall as [_ Hmin].
      destruct (Hmin s Hs) as [->|[Hlt|[Heq _]]]; [exact Hangle| |].
      - eapply ltb_trans; eauto.
      - eapply ltb_eqb_trans; eauto. }
    destruct (brackets_below low rest angle Hlow) as [Eb Ea].
    rewrite <- Es in Eb, Ea.
    exists (plot c (targets control) start).
    split; [apply Hrun; rewrite Es; discriminate|].
    split; [now rewrite Es|]. split; [exact Eb|]. split; [exact Ea|].
    apply Hcolor; [rewrite Es; now left|]. now apply fill_color_same.
  - intros high Hlarge Hangle.
    destruct (sortBy_last unsorted high Hrefs (ltb_self_l _ _ Hangle) Hlarge)
      as [front Es]. fold samples in Es.
    assert (Hhigh : forall s, In s (front ++ [high]) ->
              (Sample.angle s <? angle)%float = true).
    { intros s Hs. rewrite <- Es in Hs.
      apply (proj1 (sortBy_In unsorted s)) in Hs.
      destruct Hlarge as [_ Hmax].
      destruct (Hmax s Hs) as [->|[Hlt|[Heq _]]]; [exact Hangle| |].
      - eapply ltb_trans; eauto.
      - eapply eqb_ltb_trans; eauto. }
    destruct (brackets_above front high angle Hhigh) as [Eb Ea].
    rewrite <- Es in Eb, Ea.
    exists (plot c (targets control) start).
    split; [apply Hrun; rewrite Es; now destruct front|].
    split; [rewrite Es; apply last_snoc|].
    split; [exact Eb|]. split; [exact Ea|].
    apply Hcolor; [rewrite Es; apply in_app_iff; right; now left|].
    now apply fill_color_same.
  - intros Hne Hnan. now apply extreme_samples.
Qed.

Lemma refillCorner_clamps_witness :
  exists result,
    refillCorner atan2_compass nine_colors fan_marks false = Returned result
    /\ getPixel (data result) 3 2 1 = getPixel (data nine_colors) 3 2 0
    /\ getPixel (data result) 3 0 1 = getPixel (data nine_colors) 3 0 0.
Proof.
  destruct (refillCorner_clamps atan2_compass nine_colors fan_marks false
              1 1 2 1 eq_refl eq_refl eq_refl eq_refl) as (Hlow & _ & _);
    [cbn; lia | cbn; lia | reflexivity |].
  destruct (refillCorner_clamps atan2_compass nine_colors fan_marks false
              1 1 0 1 eq_refl eq_refl eq_refl eq_refl) as (_ & Hhigh & _);
    [cbn; lia | cbn; lia | reflexivity |].
  destruct (Hlow (Sample.mk 1 (pixelAngle atan2_compass false 1 1 2 0)
                    (getPixel (data nine_colors) 3 2 0)))
    as (result & E & _ & _ & _ & Hpixel).
  { split; [right; left; reflexivity|].
    intros s Hs. vm_compute in Hs. destruct Hs as [<-|[<-|[]]].
    - right. left. reflexivity.
    - left. reflexivity. }
  { reflexivity. }
  destruct (Hhigh (Sample.mk 0 (pixelAngle atan2_compass false 1 1 0 0)
                     (getPixel (data nine_colors) 3 0 0)))
    as (result' & E' & _ & _ & _ & Hpixel').
  { split; [left; reflexivity|].
    intros s Hs. vm_compute in Hs. destruct Hs as [<-|[<-|[]]].
    - left. reflexivity.
    - right. left. reflexivity. }
  { reflexivity. }
  rewrite E in E'. injection E' as <-.
  exists result. split; [exact E|]. split; [exact Hpixel | exact Hpixel'].
Defined.

(** C8 (the code departs from it).  In the control row [two_edges_one_ray]
    both EDGE pixels and the TARGET pixel lie on the ray from the center to
    the right, where [Math.atan2(+0, x)] is [+0]: the two samples are
    different objects with the same angle.  For the target, the last sample
    not above its angle is the second and the first sample not below it is
    the first; they are not the identical entry, their angles are equal, the
    divisor is 0, both influences are NaN, and the target pixel is written
    as (0, 0, 0, 0). *)
Theorem refillCorner_equal_angles :
  let samples :=
    sortBy (collectSamples atan2_compass row_of_four two_edges_one_ray false
              0 0) in
  let angle := pixelAngle atan2_compass false 0 0 3 0 in
  exists before after,
    sampleBefore samples angle = Some before
    /\ sampleAfter samples angle = Some after
    /\ same_sample (Some before) (Some after) = false
    /\ (Sample.angle after - Sample.angle before)%float = JS.of_Z 0
    /\ lerpSamples (Some before) (Some after) angle
       = inr (Some PrimFloat.nan, Some PrimFloat.nan,
              Some PrimFloat.nan, Some PrimFloat.nan)
    /\ refillCorner atan2_compass row_of_four two_edges_one_ray false
       = Returned (mkImageData 4 1
           [9; 9; 9; 255;  10; 20; 30; 255;  40; 50; 60; 255;
            0; 0; 0; 0]%Z).
Proof.
  eexists _, _. repeat split; vm_compute; reflexivity.
Qed.

(** ** The canvas *)

Lemma exact_store_opaque p : alpha p = 255%Z -> exact_store p = p.
Proof. unfold exact_store. now intros ->. Qed.

Lemma exact_store_clear p : alpha p = 0%Z -> exact_store p = transparent.
Proof. unfold exact_store. now intros ->. Qed.

Lemma exact_over_opaque s d : alpha s = 255%Z -> exact_over s d = s.
Proof. unfold exact_over. now intros ->. Qed.

Lemma exact_over_clear d : exact_over transparent d = d.
Proof. reflexivity. Qed.

#[export] Instance exact_compositing : Compositing :=
  {| store := exact_store;
     over := exact_over;
     store_opaque := exact_store_opaque;
     store_clear := exact_store_clear;
     over_opaque := exact_over_opaque;
     over_clear := exact_over_clear |}.

Lemma inside_spec c X Y :
  inside c X Y = true <->
  (0 <= X < Z.of_nat (canvas_width c))%Z
  /\ (0 <= Y < Z.of_nat (canvas_height c))%Z.
Proof.
  unfold inside. rewrite !andb_true_iff, !Z.leb_le, !Z.ltb_lt. tauto.
Qed.

Lemma inside_false c X Y :
  inside c X Y = false <->
  ~ ((0 <= X < Z.of_nat (canvas_width c))%Z
     /\ (0 <= Y < Z.of_nat (canvas_height c))%Z).
Proof. rewrite <- inside_spec. now destruct (inside c X Y). Qed.

Section CanvasFacts.

Context `{Compositing}.

(** The bytes [getImageData] lays out for the pixel [(X, Y)] of the whole
    canvas. *)
Lemma getImageData_bytes ctx (X Y : nat) :
  X < canvas_width (surface ctx) -> Y < canvas_height (surface ctx) ->
  let image := getImageData ctx 0 0 (canvas_width (surface ctx))
                 (canvas_height (surface ctx)) in
  let '(r, g, b, a) := bitmap (surface ctx) (Z.of_nat X) (Z.of_nat Y) in
  bytes_at (data image) (width image) X Y
  = (Some r, Some g, Some b, Some a).
Proof.
  intros HX HY. cbv zeta.
  set (W := canvas_width (surface ctx)) in *.
  set (Hh := canvas_height (surface ctx)) in *.
  destruct (bitmap (surface ctx) (Z.of_nat X) (Z.of_nat Y))
    as [[[r g] b] a] eqn:Eb.
  unfold bytes_at, getImageData. cbn [data width].
  assert (Hk : forall k, k < 4 ->
    (PIXEL_SIZE * (X + Y * W) + k) / PIXEL_SIZE = X + Y * W
    /\ (PIXEL_SIZE * (X + Y * W) + k) mod PIXEL_SIZE = k).
  { intros k Hk. unfold PIXEL_SIZE. split.
    - symmetry. apply (Nat.div_unique _ 4 _ k); lia.
    - symmetry. apply (Nat.mod_unique _ 4 (X + Y * W) k); lia. }
  assert (Hx : (X + Y * W) mod W = X).
  { symmetry. apply (Nat.mod_unique _ W Y X); lia. }
  assert (Hy : (X + Y * W) / W = Y).
  { symmetry. apply (Nat.div_unique _ W Y X); lia. }
  assert (Hin : inside (surface ctx) (0 + Z.of_nat X) (0 + Z.of_nat Y) = true).
  { apply inside_spec. fold W Hh. lia. }
  assert (Hl : forall k, k < 4 ->
    PIXEL_SIZE * (X + Y * W) + k < PIXEL_SIZE * (W * Hh)).
  { intros k Hk'. unfold PIXEL_SIZE. nia. }
  rewrite <- (Nat.add_0_r (PIXEL_SIZE * (X + Y * W))) at 1.
  rewrite !lookup_map_seq by (apply Hl; lia).
  destruct (Hk 0) as [-> ->]; [lia|].
  destruct (Hk 1) as [-> ->]; [lia|].
  destruct (Hk 2) as [-> ->]; [lia|].
  destruct (Hk 3) as [-> ->]; [lia|].
  rewrite Hx, Hy, Hin. change (0 + Z.of_nat X)%Z with (Z.of_nat X).
  change (0 + Z.of_nat Y)%Z with (Z.of_nat Y). rewrite Eb. reflexivity.
Qed.

End CanvasFacts.

(** ** addBleed: the paints *)

Section AddBleedFacts.

Context `{Compositing}.

Lemma addBleed_context source padding :
  addBleed source padding =
  getImageData (bleed_context source padding) 0 0
    (width source + 2 * padding) (height source + 2 * padding).
Proof. reflexivity. Qed.

Lemma inside_size c c' X Y :
  canvas_width c = canvas_width c' -> canvas_height c = canvas_height c' ->
  inside c X Y = inside c' X Y.
Proof. unfold inside. now intros -> ->. Qed.

Lemma paint_copy_spec source padding ctx copy :
  transform ctx = mkMatrix 1 1 0 0 ->
  let ctx' := paint_copy (width source) (height source) padding
                (source_canvas source) ctx copy in
  transform ctx' = mkMatrix 1 1 0 0
  /\ canvas_width (surface ctx') = canvas_width (surface ctx)
  /\ canvas_height (surface ctx') = canvas_height (surface ctx)
  /\ forall X Y,
       bitmap (surface ctx') X Y =
       copy_pixel source padding (canvas_width (surface ctx))
         (canvas_height (surface ctx)) X Y (bitmap (surface ctx) X Y) copy.
Proof.
  intros Ht ctx'. subst ctx'. unfold paint_copy, restore, drawImage, scale,
    translate, save. cbn [surface transform saved canvas_width canvas_height
    bitmap scale_x scale_y shift_x shift_y].
  rewrite Ht. cbn [scale_x scale_y shift_x shift_y].
  repeat split. intros X Y. unfold copy_pixel.
  rewrite !Z.mul_1_l, !Z.add_0_l.
  now rewrite (inside_size (surface ctx)
    (mkCanvas (canvas_width (surface ctx)) (canvas_height (surface ctx))
       (fun _ _ => transparent))).
Qed.

Lemma paint_copies_spec source padding copies : forall ctx,
  transform ctx = mkMatrix 1 1 0 0 ->
  let ctx' := fold_left (paint_copy (width source) (height source) padding
                           (source_canvas source)) copies ctx in
  canvas_width (surface ctx') = canvas_width (surface ctx)
  /\ canvas_height (surface ctx') = canvas_height (surface ctx)
  /\ forall X Y,
       bitmap (surface ctx') X Y =
       fold_left (copy_pixel source padding (canvas_width (surface ctx))
                    (canvas_height (surface ctx)) X Y)
         copies (bitmap (surface ctx) X Y).
Proof.
  induction copies as [|copy copies IH]; intros ctx Ht; [cbn; auto|].
  cbn [fold_left].
  destruct (paint_copy_spec source padding ctx copy Ht)
    as (Ht' & Ew & Eh & Hb).
  destruct (IH _ Ht') as (Ew' & Eh' & Hb').
  cbv zeta in *. rewrite Ew', Eh', Ew, Eh. repeat split.
  intros X Y. now rewrite Hb', Ew, Eh, Hb.
Qed.

Lemma source_canvas_bitmap source (i j : nat) :
  i < width source -> j < height source ->
  bitmap (source_canvas source) (Z.of_nat i) (Z.of_nat j)
  = store (image_pixel source (Z.of_nat i) (Z.of_nat j)).
Proof.
  intros Hi Hj. unfold source_canvas, putImageData.
  cbn [surface bitmap getContext createCanvas canvas_width canvas_height].
  rewrite !Z.sub_0_r.
  replace (inside _ _ _) with true
    by (symmetry; apply inside_spec; cbn; lia).
  replace (0 <=? Z.of_nat i)%Z with true by (symmetry; apply Z.leb_le; lia).
  replace (0 <=? Z.of_nat j)%Z with true by (symmetry; apply Z.leb_le; lia).
  replace (Z.of_nat i <? Z.of_nat (width source))%Z with true
    by (symmetry; apply Z.ltb_lt; lia).
  replace (Z.of_nat j <? Z.of_nat (height source))%Z with true
    by (symmetry; apply Z.ltb_lt; lia).
  reflexivity.
Qed.

Lemma copy_pixel_miss source padding W Hh X Y px copy :
  ~ ((0 <= preimage (scaleX copy)
             (shiftX copy * Z.of_nat (width source) + Z.of_nat padding) 0 X
         < Z.of_nat (width source))%Z
     /\ (0 <= preimage (scaleY copy)
               (shiftY copy * Z.of_nat (height source) + Z.of_nat padding) 0 Y
           < Z.of_nat (height source))%Z) ->
  copy_pixel source padding W Hh X Y px copy = px.
Proof.
  intros Hm. unfold copy_pixel. cbv zeta.
  replace (inside (source_canvas source) _ _) with false.
  - now rewrite andb_false_r.
  - symmetry. apply inside_false. exact Hm.
Qed.

Lemma copy_pixel_hit source padding W Hh X Y px copy (i j : nat) :
  (0 <= X < Z.of_nat W)%Z -> (0 <= Y < Z.of_nat Hh)%Z ->
  i < width source -> j < height source ->
  preimage (scaleX copy)
    (shiftX copy * Z.of_nat (width source) + Z.of_nat padding) 0 X
  = Z.of_nat i ->
  preimage (scaleY copy)
    (shiftY copy * Z.of_nat (height source) + Z.of_nat padding) 0 Y
  = Z.of_nat j ->
  copy_pixel source padding W Hh X Y px copy
  = over (store (image_pixel source (Z.of_nat i) (Z.of_nat j))) px.
Proof.
  intros HX HY Hi Hj Ex Ey. unfold copy_pixel. cbv zeta. rewrite Ex, Ey.
  replace (inside (mkCanvas W Hh _) X Y) with true
    by (symmetry; apply inside_spec; cbn; lia).
  replace (inside (source_canvas source) _ _) with true
    by (symmetry; apply inside_spec; cbn; lia).
  cbn [andb]. now rewrite source_canvas_bitmap.
Qed.

(** The first paint, of the source at [(padding, padding)]. *)
Lemma first_paint_bitmap source padding X Y :
  bitmap (surface
    (drawImage
       (getContext (createCanvas (width source + 2 * padding)
                      (height source + 2 * padding)))
       (source_canvas source) (Z.of_nat padding) (Z.of_nat padding))) X Y
  = if inside (createCanvas (width source + 2 * padding)
                 (height source + 2 * padding)) X Y
       && inside (source_canvas source) (X - 0 - Z.of_nat padding)
            (Y - 0 - Z.of_nat padding)
    then over (bitmap (source_canvas source) (X - 0 - Z.of_nat padding)
                 (Y - 0 - Z.of_nat padding)) transparent
    else transparent.
Proof. reflexivity. Qed.

Lemma bleed_context_bitmap source padding X Y :
  bitmap (surface (bleed_context source padding)) X Y =
  fold_left (copy_pixel source padding (width source + 2 * padding)
               (height source + 2 * padding) X Y)
    COPIES
    (if inside (createCanvas (width source + 2 * padding)
                  (height source + 2 * padding)) X Y
        && inside (source_canvas source) (X - 0 - Z.of_nat padding)
             (Y - 0 - Z.of_nat padding)
     then over (bitmap (source_canvas source) (X - 0 - Z.of_nat padding)
                  (Y - 0 - Z.of_nat padding)) transparent
     else transparent).
Proof.
  unfold bleed_context.
  destruct (paint_copies_spec source padding COPIES
    (drawImage
       (getContext (createCanvas (width source + 2 * padding)
                      (height source + 2 * padding)))
       (source_canvas source) (Z.of_nat padding) (Z.of_nat padding))
    eq_refl) as (_ & _ & Hb).
  rewrite Hb. reflexivity.
Qed.

Lemma bleed_context_size source padding :
  canvas_width (surface (bleed_context source padding))
  = width source + 2 * padding
  /\ canvas_height (surface (bleed_context source padding))
     = height source + 2 * padding.
Proof.
  unfold bleed_context.
  destruct (paint_copies_spec source padding COPIES
    (drawImage
       (getContext (createCanvas (width source + 2 * padding)
                      (height source + 2 * padding)))
       (source_canvas source) (Z.of_nat padding) (Z.of_nat padding))
    eq_refl) as (Ew & Eh & _).
  split; [exact Ew|exact Eh].
Qed.

End AddBleedFacts.

(** ** addBleed: the claims *)

Section AddBleedClaims.

Context `{Compositing}.

Lemma first_paint_miss source padding X Y :
  ~ ((0 <= X - 0 - Z.of_nat padding < Z.of_nat (width source))%Z
     /\ (0 <= Y - 0 - Z.of_nat padding < Z.of_nat (height source))%Z) ->
  (if inside (createCanvas (width source + 2 * padding)
                (height source + 2 * padding)) X Y
      && inside (source_canvas source) (X - 0 - Z.of_nat padding)
           (Y - 0 - Z.of_nat padding)
   then over (bitmap (source_canvas source) (X - 0 - Z.of_nat padding)
                (Y - 0 - Z.of_nat padding)) transparent
   else transparent) = transparent.
Proof.
  intros Hm. replace (inside (source_canvas source) _ _) with false.
  - now rewrite andb_false_r.
  - symmetry. apply inside_false. exact Hm.
Qed.

Lemma first_paint_hit source padding X Y (i j : nat) :
  i < width source -> j < height source ->
  (X - 0 - Z.of_nat padding = Z.of_nat i)%Z ->
  (Y - 0 - Z.of_nat padding = Z.of_nat j)%Z ->
  (if inside (createCanvas (width source + 2 * padding)
                (height source + 2 * padding)) X Y
      && inside (source_canvas source) (X - 0 - Z.of_nat padding)
           (Y - 0 - Z.of_nat padding)
   then over (bitmap (source_canvas source) (X - 0 - Z.of_nat padding)
                (Y - 0 - Z.of_nat padding)) transparent
   else transparent)
  = over (store (image_pixel source (Z.of_nat i) (Z.of_nat j))) transparent.
Proof.
  intros Hi Hj Ex Ey. rewrite Ex, Ey.
  replace (inside (createCanvas _ _) X Y) with true
    by (symmetry; apply inside_spec; cbn; lia).
  replace (inside (source_canvas source) _ _) with true
    by (symmetry; apply inside_spec; cbn; lia).
  cbn [andb]. now rewrite source_canvas_bitmap.
Qed.

(** The bytes of a source pixel that is opaque or transparent black survive
    storing and painting on a fresh canvas. *)
Lemma exact_pixel_kept source i j :
  well_formed source = true -> i < width source -> j < height source ->
  exact_at source i j ->
  over (store (image_pixel source (Z.of_nat i) (Z.of_nat j))) transparent
  = image_pixel source (Z.of_nat i) (Z.of_nat j)
  /\ bytes_at (data source) (width source) i j
     = (let '(r, g, b, a) :=
          image_pixel source (Z.of_nat i) (Z.of_nat j) in
        (Some r, Some g, Some b, Some a)).
Proof.
  intros Hwf Hi Hj Hex.
  destruct (bytes_at_well_formed source i j Hwf Hi Hj)
    as (b0 & b1 & b2 & b3 & Eb & _).
  assert (Ep : image_pixel source (Z.of_nat i) (Z.of_nat j)
               = (b0, b1, b2, b3)).
  { unfold image_pixel. rewrite !Nat2Z.id.
    unfold bytes_at in Eb. cbv zeta in Eb.
    remember (PIXEL_SIZE * (i + j * width source)) as index.
    injection Eb as E0 E1 E2 E3.
    rewrite !nth_lookup, E0, E1, E2, E3. reflexivity. }
  rewrite Ep, Eb. split; [|reflexivity].
  destruct Hex as [Hop|Hzero].
  - assert (Ea : b3 = 255%Z).
    { unfold opaque_at in Hop. unfold bytes_at in Eb. cbv zeta in Eb.
      remember (PIXEL_SIZE * (i + j * width source)) as index.
      injection Eb as _ _ _ E3. congruence. }
    subst b3. rewrite store_opaque by reflexivity. now apply over_opaque.
  - rewrite Eb in Hzero. injection Hzero as -> -> -> ->.
    rewrite (store_clear (0, 0, 0, 0)%Z) by reflexivity. apply over_clear.
Qed.

(** An output pixel whose device pixel holds a source pixel that the canvas
    keeps exactly reads as that source pixel. *)
Lemma addBleed_pixel source padding X Y i j :
  well_formed source = true ->
  X < width source + 2 * padding -> Y < height source + 2 * padding ->
  i < width source -> j < height source -> exact_at source i j ->
  bitmap (surface (bleed_context source padding)) (Z.of_nat X) (Z.of_nat Y)
  = over (store (image_pixel source (Z.of_nat i) (Z.of_nat j))) transparent ->
  getPixel (data (addBleed source padding)) (width source + 2 * padding) X Y
  = getPixel (data source) (width source) i j.
Proof.
  intros Hwf HX HY Hi Hj Hop Hb.
  destruct (exact_pixel_kept source i j Hwf Hi Hj Hop)
    as [Ekeep Ebytes].
  destruct (bleed_context_size source padding) as [Ew Eh].
  pose proof (getImageData_bytes (bleed_context source padding) X Y) as Hg.
  rewrite Ew, Eh in Hg. specialize (Hg HX HY). cbv zeta in Hg.
  rewrite Hb, Ekeep in Hg.
  rewrite addBleed_context, !getPixel_bytes_at, Ebytes.
  destruct (image_pixel source (Z.of_nat i) (Z.of_nat j)) as [[[r g] b] a].
  change (width (getImageData (bleed_context source padding) 0 0
                   (width source + 2 * padding) (height source + 2 * padding)))
    with (width source + 2 * padding) in Hg.
  now rewrite Hg.
Qed.

End AddBleedClaims.

(** Stepping through the paints of [COPIES] at one device pixel. *)
Ltac bleed_geometry :=
  unfold preimage; cbn [scaleX scaleY shiftX shiftY];
  change (0 <? -1)%Z with false; change (0 <? 1)%Z with true; cbv iota;
  lia.

Ltac copy_step i j :=
  match goal with
  | |- context [fold_left ?f (?c :: ?l) ?x] =>
      change (fold_left f (c :: l) x) with (fold_left f l (f x c));
      first
        [ rewrite (copy_pixel_miss _ _ _ _ _ _ x c) by bleed_geometry
        | rewrite (copy_pixel_hit _ _ _ _ _ _ x c i j) by bleed_geometry ]
  end.

Ltac bleed_paints i j :=
  rewrite bleed_context_bitmap;
  first [ rewrite first_paint_miss by lia
        | rewrite (first_paint_hit _ _ _ _ i j) by lia ];
  unfold COPIES; do 8 (copy_step i j); cbn [fold_left];
  rewrite ?over_clear; reflexivity.

Section AddBleedTheorems.

Context `{Compositing}.

(** C5, amended.  [addBleed] returns an image of [width + 2 * padding] by
    [height + 2 * padding] pixels in which the pixel at
    [(padding + i, padding + j)] equals the source pixel at [(i, j)]
    whenever that source pixel is opaque or transparent black. *)
Theorem addBleed_original source padding :
  well_formed source = true ->
  width (addBleed source padding) = width source + 2 * padding
  /\ height (addBleed source padding) = height source + 2 * padding
  /\ forall i j, i < width source -> j < height source ->
       exact_at source i j ->
       getPixel (data (addBleed source padding))
         (width source + 2 * padding) (padding + i) (padding + j)
       = getPixel (data source) (width source) i j.
Proof.
  intros Hwf. repeat split. intros i j Hi Hj Hop.
  apply addBleed_pixel; auto; try lia.
  bleed_paints i j.
Qed.

(** A fully transparent source pixel comes out as transparent black,
    whatever its color bytes. *)
Lemma addBleed_clear_pixel source padding i j :
  i < width source -> j < height source ->
  alpha (image_pixel source (Z.of_nat i) (Z.of_nat j)) = 0%Z ->
  bytes_at (data (addBleed source padding)) (width source + 2 * padding)
    (padding + i) (padding + j)
  = (Some 0, Some 0, Some 0, Some 0)%Z.
Proof.
  intros Hi Hj Ha.
  destruct (bleed_context_size source padding) as [Ew Eh].
  pose proof (getImageData_bytes (bleed_context source padding)
                (padding + i) (padding + j)) as Hg.
  rewrite Ew, Eh in Hg. specialize (Hg ltac:(lia) ltac:(lia)).
  cbv zeta in Hg.
  assert (Hb : bitmap (surface (bleed_context source padding))
                 (Z.of_nat (padding + i)) (Z.of_nat (padding + j))
               = transparent).
  { rewrite bleed_context_bitmap.
    rewrite (first_paint_hit _ _ _ _ i j) by lia.
    rewrite (store_clear _ Ha), over_clear.
    unfold COPIES. do 8 (copy_step i j). reflexivity. }
  rewrite Hb in Hg. exact Hg.
Qed.

(** C6, amended.  Within the source's own extent, the padding border holds
    the reflections of the source pixels that are opaque or transparent
    black: for [k] below both the padding and the width, and [l] below both
    the padding and the height, the left, right, top and bottom mirrors and
    the four corner mirrors equal the reflected source pixel. *)
Theorem addBleed_mirrors source padding :
  well_formed source = true ->
  let w := width source in
  let h := height source in
  let out x y :=
    getPixel (data (addBleed source padding)) (w + 2 * padding) x y in
  let src x y := getPixel (data source) w x y in
  (forall k j, k < padding -> k < w -> j < h -> exact_at source k j ->
     out (padding - 1 - k) (padding + j) = src k j)
  /\ (forall k j, k < padding -> k < w -> j < h ->
        exact_at source (w - 1 - k) j ->
        out (padding + w + k) (padding + j) = src (w - 1 - k) j)
  /\ (forall i l, l < padding -> l < h -> i < w -> exact_at source i l ->
        out (padding + i) (padding - 1 - l) = src i l)
  /\ (forall i l, l < padding -> l < h -> i < w ->
        exact_at source i (h - 1 - l) ->
        out (padding + i) (padding + h + l) = src i (h - 1 - l))
  /\ (forall k l, k < padding -> k < w -> l < padding -> l < h ->
        exact_at source k l ->
        out (padding - 1 - k) (padding - 1 - l) = src k l)
  /\ (forall k l, k < padding -> k < w -> l < padding -> l < h ->
        exact_at source (w - 1 - k) l ->
        out (padding + w + k) (padding - 1 - l) = src (w - 1 - k) l)
  /\ (forall k l, k < padding -> k < w -> l < padding -> l < h ->
        exact_at source k (h - 1 - l) ->
        out (padding - 1 - k) (padding + h + l) = src k (h - 1 - l))
  /\ (forall k l, k < padding -> k < w -> l < padding -> l < h ->
        exact_at source (w - 1 - k) (h - 1 - l) ->
        out (padding + w + k) (padding + h + l)
        = src (w - 1 - k) (h - 1 - l)).
Proof.
  intros Hwf w h out src. subst w h out src. cbv beta.
  repeat split; intros.
  - apply addBleed_pixel; auto; try lia. bleed_paints k j.
  - apply addBleed_pixel; auto; try lia.
    bleed_paints (width source - 1 - k) j.
  - apply addBleed_pixel; auto; try lia. bleed_paints i l.
  - apply addBleed_pixel; auto; try lia.
    bleed_paints i (height source - 1 - l).
  - apply addBleed_pixel; auto; try lia. bleed_paints k l.
  - apply addBleed_pixel; auto; try lia.
    bleed_paints (width source - 1 - k) l.
  - apply addBleed_pixel; auto; try lia.
    bleed_paints k (height source - 1 - l).
  - apply addBleed_pixel; auto; try lia.
    bleed_paints (width source - 1 - k) (height source - 1 - l).
Qed.

End AddBleedTheorems.

Lemma addBleed_original_witness :
  width (addBleed two_opaque 1) = 4 /\ height (addBleed two_opaque 1) = 3
  /\ getPixel (data (addBleed two_opaque 1)) 4 2 1
     = getPixel (data two_opaque) 2 1 0.
Proof.
  destruct (addBleed_original two_opaque 1 eq_refl) as (Ew & Eh & Hp).
  split; [exact Ew|]. split; [exact Eh|].
  apply (Hp 1 0); [cbn; lia | cbn; lia | left; reflexivity].
Defined.

(** C5, as stated, fails on a source pixel that is fully transparent and
    colored: the canvas keeps no color under alpha 0, and the pixel comes
    out as (0, 0, 0, 0), here on the canvas [exact_compositing] and, by
    [addBleed_clear_pixel], on every canvas of the interface. *)
Lemma addBleed_loses_clear_pixel :
  getPixel (data (addBleed one_clear 1)) 3 1 1
  <> getPixel (data one_clear) 1 0 0.
Proof.
  rewrite !getPixel_bytes_at.
  rewrite (addBleed_clear_pixel one_clear 1 0 0)
    by (cbn; first [lia | reflexivity]).
  intros E. apply (f_equal (fun c : PixelData =>
    let '(r, _, _, _) := c in JS.ToUint8Clamp r)) in E.
  vm_compute in E. discriminate E.
Qed.

Lemma addBleed_mirrors_witness :
  getPixel (data (addBleed two_opaque 1)) 4 0 1
  = getPixel (data two_opaque) 2 0 0
  /\ getPixel (data (addBleed two_opaque 1)) 4 3 1
     = getPixel (data two_opaque) 2 1 0.
Proof.
  destruct (addBleed_mirrors two_opaque 1 eq_refl) as (Hl & Hr & _).
  split.
  - apply (Hl 0 0); [cbn; lia | cbn; lia | cbn; lia | left; reflexivity].
  - apply (Hr 0 0); [cbn; lia | cbn; lia | cbn; lia | left; reflexivity].
Defined.

(** C6, as stated, fails in two ways.  With a padding wider than the source
    the left mirror ends after [width] columns: for the 1 by 1 source
    [one_opaque] and padding 2, the output pixel (0, 2) (k = 1, j = 0) is
    transparent black, and the source has no pixel (1, 0).  And the mirror
    of a fully transparent colored pixel is transparent black: for
    [one_clear] and padding 1, the output pixel (0, 1) (k = 0, j = 0)
    differs from the source pixel (0, 0). *)
Lemma addBleed_mirror_fails :
  getPixel (data (addBleed one_opaque 2)) 5 0 2
  <> getPixel (data one_opaque) 1 1 0
  /\ getPixel (data (addBleed one_clear 1)) 3 0 1
     <> getPixel (data one_clear) 1 0 0.
Proof.
  split.
  - intros E. vm_compute in E. discriminate E.
  - intros E. apply (f_equal (fun c : PixelData =>
      let '(r, _, _, _) := c in JS.ToUint8Clamp r)) in E.
    vm_compute in E. discriminate E.
Qed.

(** * Further properties of the code *)

(** ** util.ts: reading back what was written *)

Lemma strict_eq_num a b :
  is_byte a = true -> is_byte b = true ->
  JS.strict_eq (JS.num a) (JS.num b) = (a =? b)%Z.
Proof.
  intros Ha Hb.
  apply (byte_cases (fun a =>
    forallb (fun b => Bool.eqb (JS.strict_eq (JS.num a) (JS.num b)) (a =? b)%Z)
      (map Z.of_nat (seq 0 256)))) in Ha.
  - apply (byte_cases _ Ha) in Hb. now apply Bool.eqb_prop in Hb.
  - vm_compute. reflexivity.
Qed.

Lemma as_value_eq o c :
  (forall b, o = Some b -> is_byte b = true) -> is_byte c = true ->
  JS.strict_eq (as_value o) (JS.num c) = true <-> o = Some c.
Proof.
  intros Ho Hc. destruct o as [b|]; cbn [as_value].
  - rewrite strict_eq_num by auto. rewrite Z.eqb_eq.
    split; [now intros -> | now intros [= ->]].
  - split; discriminate.
Qed.

(** X1.  A pixel that lies inside the array reads back, through [getPixel],
    as the numbers [setPixel] was given after the typed array's clamping; in
    particular four bytes read back unchanged. *)
Theorem getPixel_setPixel image x y r g b a :
  PIXEL_SIZE * (x + y * width image) + 3 < length (data image) ->
  getPixel (data (setPixel image x y r g b a)) (width image) x y
  = (JS.num (JS.ToUint8Clamp r), JS.num (JS.ToUint8Clamp g),
     JS.num (JS.ToUint8Clamp b), JS.num (JS.ToUint8Clamp a))
  /\ forall r' g' b' a',
       r = JS.num r' -> g = JS.num g' -> b = JS.num b' -> a = JS.num a' ->
       forallb is_byte [r'; g'; b'; a'] = true ->
       getPixel (data (setPixel image x y r g b a)) (width image) x y
       = (r, g, b, a).
Proof.
  intros Hin.
  assert (E : getPixel (data (setPixel image x y r g b a)) (width image) x y
    = (JS.num (JS.ToUint8Clamp r), JS.num (JS.ToUint8Clamp g),
       JS.num (JS.ToUint8Clamp b), JS.num (JS.ToUint8Clamp a))).
  { rewrite getPixel_bytes_at, bytes_at_setPixel_same by exact Hin.
    reflexivity. }
  split; [exact E|].
  intros r' g' b' a' -> -> -> -> Hb. rewrite E.
  cbn [forallb] in Hb. rewrite !andb_true_iff in Hb.
  destruct Hb as (Hr & Hg & Hb & Ha & _).
  now rewrite !ToUint8Clamp_num.
Qed.

(** X2.  [setPixel] at a column inside the image changes no other pixel of
    the image, neither its size nor the length of its array. *)
Theorem setPixel_frame image x y r g b a x' y' :
  x < width image -> x' < width image -> (x, y) <> (x', y') ->
  getPixel (data (setPixel image x y r g b a)) (width image) x' y'
  = getPixel (data image) (width image) x' y'
  /\ width (setPixel image x y r g b a) = width image
  /\ height (setPixel image x y r g b a) = height image
  /\ length (data (setPixel image x y r g b a)) = length (data image).
Proof.
  intros Hx Hx' Hne. repeat split; [|apply setPixel_length].
  now rewrite !getPixel_bytes_at, bytes_at_setPixel_other.
Qed.

(** Neither function checks its coordinates.  A pixel that starts at or
    past the end of the array is written nowhere, the image stays as it is,
    and it reads as four [undefined]; and a column at or past the width is
    the same pixel as a column of the next row. *)
Lemma setPixel_unchecked image x y r g b a :
  (length (data image) <= PIXEL_SIZE * (x + y * width image) ->
   setPixel image x y r g b a = image
   /\ getPixel (data image) (width image) x y
      = (JS.undefined, JS.undefined, JS.undefined, JS.undefined))
  /\ setPixel image (x + width image) y r g b a
     = setPixel image x (y + 1) r g b a
  /\ getPixel (data image) (width image) (x + width image) y
     = getPixel (data image) (width image) x (y + 1).
Proof.
  split; [intros Hout; split|split].
  - destruct image as [w h d]. unfold setPixel, JS.set in *.
    cbn [width height data] in *. f_equal.
    rewrite !list_insert_ge; rewrite ?length_insert; auto; lia.
  - unfold getPixel, JS.get.
    rewrite !lookup_ge_None_2 by lia. reflexivity.
  - unfold setPixel.
    replace (PIXEL_SIZE * (x + width image + y * width image))
      with (PIXEL_SIZE * (x + (y + 1) * width image)) by lia.
    reflexivity.
  - unfold getPixel.
    replace (PIXEL_SIZE * (x + width image + y * width image))
      with (PIXEL_SIZE * (x + (y + 1) * width image)) by lia.
    reflexivity.
Qed.

Lemma hasColor_at pixels w x y b0 b1 b2 b3 c0 c1 c2 c3 :
  bytes_at pixels w x y = (Some b0, Some b1, Some b2, Some b3) ->
  forallb is_byte [b0; b1; b2; b3] = true ->
  forallb is_byte [c0; c1; c2; c3] = true ->
  hasColor pixels w x y (JS.num c0, JS.num c1, JS.num c2, JS.num c3)
  = (b0 =? c0)%Z && (b1 =? c1)%Z && (b2 =? c2)%Z && (b3 =? c3)%Z.
Proof.
  intros Eb Hb Hc. cbn [forallb] in Hb, Hc.
  rewrite !andb_true_iff in Hb, Hc.
  destruct Hb as (Hb0 & Hb1 & Hb2 & Hb3 & _).
  destruct Hc as (Hc0 & Hc1 & Hc2 & Hc3 & _).
  unfold hasColor. rewrite getPixel_bytes_at, Eb. cbn [as_value].
  now rewrite !strict_eq_num.
Qed.

(** X3.  On an array of bytes, [hasColor] holds of a color of four bytes
    exactly when the array has the pixel and its four bytes are those of the
    color; on a pixel past the end of the array it fails. *)
Theorem hasColor_bytes pixels w x y c0 c1 c2 c3 :
  forallb is_byte pixels = true ->
  forallb is_byte [c0; c1; c2; c3] = true ->
  hasColor pixels w x y (JS.num c0, JS.num c1, JS.num c2, JS.num c3) = true
  <-> bytes_at pixels w x y = (Some c0, Some c1, Some c2, Some c3).
Proof.
  intros Hp Hc. cbn [forallb] in Hc. rewrite !andb_true_iff in Hc.
  destruct Hc as (H0 & H1 & H2 & H3 & _).
  assert (Hb : forall i b, pixels !! i = Some b -> is_byte b = true).
  { intros i b Hi. rewrite forallb_forall in Hp. apply Hp.
    apply list_elem_of_In. eapply list_elem_of_lookup_2; eauto. }
  unfold hasColor. rewrite getPixel_bytes_at. unfold bytes_at. cbv zeta.
  remember (PIXEL_SIZE * (x + y * w)) as index.
  rewrite !andb_true_iff, !as_value_eq by eauto.
  split.
  - intros (((-> & ->) & ->) & ->). reflexivity.
  - intros [= -> -> -> ->]. auto.
Qed.

(** ** extendSides: what a run keeps *)

(** X4.  Whatever the control image holds, [extendSides] returns an image of
    the source's width and height whose array has the source's length, and
    a well-formed source stays well-formed. *)
Theorem extendSides_shape source control :
  well_formed source = true ->
  width (extendSides source control) = width source
  /\ height (extendSides source control) = height source
  /\ length (data (extendSides source control)) = length (data source)
  /\ well_formed (extendSides source control) = true.
Proof.
  intros Hwf. rewrite extendSides_run.
  destruct (run_shape control (grid (width control) (height control)) source)
    as (Ew & Eh & El & Hwf').
  auto.
Qed.

Lemma run_skip control pts : forall s,
  (forall p, In p pts ->
     directive_at (width s) control (fst p) (snd p) = None) ->
  run control pts s = s.
Proof.
  induction pts as [|p pts IH]; intros s Hn; [reflexivity|].
  rewrite run_cons, extendSides_body_skip by (apply Hn; now left).
  apply IH. intros q Hq. apply Hn. now right.
Qed.

(** X5.  A control image of the source's width whose pixels all have alpha 0
    leaves the source as it is. *)
Theorem extendSides_transparent_control source control :
  width control = width source ->
  (forall x y, x < width control -> y < height control ->
     data control !! (PIXEL_SIZE * (x + y * width control) + 3) = Some 0%Z) ->
  extendSides source control = source.
Proof.
  intros Ew Hclear. rewrite extendSides_run. apply run_skip.
  intros [x y] Hp. apply in_grid in Hp as [Hx Hy]. cbn [fst snd].
  unfold directive_at, decode, getPixel, JS.get. rewrite <- Ew.
  now rewrite (Hclear x y Hx Hy).
Qed.

(** X6.  With a control image no larger than the source, a source pixel that
    lies in the half-row or half-column of no directive comes out of
    [extendSides] unchanged. *)
Theorem extendSides_frame source control x' y' :
  well_formed source = true ->
  width control <= width source -> height control <= height source ->
  x' < width source -> y' < height source ->
  (forall x y d, x < width control -> y < height control ->
     directive_at (width source) control x y = Some d ->
     targeted d x y x' y' = false) ->
  getPixel (data (extendSides source control)) (width source) x' y'
  = getPixel (data source) (width source) x' y'.
Proof.
  intros Hwf Hw Hh Hx' Hy' Hfree.
  rewrite extendSides_run, !getPixel_bytes_at, run_untouched; auto.
  - intros [x y] Hp. apply in_grid in Hp. cbn [fst snd]. lia.
  - intros [x y] d Hp. apply in_grid in Hp as [Hx Hy]. cbn [fst snd].
    now apply Hfree.
Qed.

(** Every pixel of a run's result holds the bytes some pixel of its start
    held. *)
Lemma run_colors control pts : forall s,
  well_formed s = true ->
  (forall p, In p pts -> fst p < width s /\ snd p < height s) ->
  forall x' y', x' < width s -> y' < height s ->
    exists x y, x < width s /\ y < height s
      /\ bytes_at (data (run control pts s)) (width s) x' y'
         = bytes_at (data s) (width s) x y.
Proof.
  induction pts as [|p pts IH]; intros s Hwf Hin x' y' Hx' Hy'.
  - exists x', y'. auto.
  - rewrite run_cons. destruct (Hin p) as [Hpx Hpy]; [now left|].
    destruct (directive_at (width s) control (fst p) (snd p)) as [d|] eqn:Ed.
    + destruct (extendSides_body_bytes control (fst p) (snd p) s d
                  Hwf Hpx Hpy Ed) as (Ew & Eh & Hwf1 & Hb1).
      set (s1 := extendSides_body control (fst p) (snd p) s) in *.
      destruct (IH s1 Hwf1) with (x' := x') (y' := y')
        as (x & y & Hx & Hy & E); rewrite ?Ew, ?Eh; auto.
      { intros q Hq. apply Hin. now right. }
      rewrite Ew, Eh in *. rewrite E, Hb1 by assumption.
      destruct (targeted d (fst p) (snd p) x y); eauto.
    + rewrite (extendSides_body_skip control (fst p) (snd p) s Ed).
      apply IH; auto. intros q Hq. apply Hin. now right.
Qed.

(** X7.  With a control image no larger than the source, [extendSides]
    brings in no color: every pixel of its result is a pixel of the source
    as it was. *)
Theorem extendSides_colors source control x' y' :
  well_formed source = true ->
  width control <= width source -> height control <= height source ->
  x' < width source -> y' < height source ->
  exists x y, x < width source /\ y < height source
    /\ getPixel (data (extendSides source control)) (width source) x' y'
       = getPixel (data source) (width source) x y.
Proof.
  intros Hwf Hw Hh Hx' Hy'.
  destruct (run_colors control (grid (width control) (height control))
              source Hwf) with (x' := x') (y' := y')
    as (x & y & Hx & Hy & E); auto.
  { intros [x y] Hp. apply in_grid in Hp. cbn [fst snd]. lia. }
  exists x, y. rewrite extendSides_run, !getPixel_bytes_at, E. auto.
Qed.

(** ** refillCorner: the samples and the pixels it keeps *)

Lemma in_marked control color x y :
  In (x, y) (marked control color) <->
  x < width control /\ y < height control
  /\ is_marker control color x y = true.
Proof.
  unfold marked. rewrite in_map_iff. split.
  - intros ([y' x'] & [= -> ->] & Hin). cbn [fst snd] in *.
    apply filter_In in Hin as [Hin Hm]. apply in_grid in Hin. tauto.
  - intros (Hx & Hy & Hm). exists (y, x). split; [reflexivity|].
    apply filter_In. split; [now apply in_grid|exact Hm].
Qed.

Lemma collectSamples_some atan2 source control bottomHalf centerX centerY
  x y :
  x < width control -> y < height control ->
  is_marker control EDGE_COLOR x y = true ->
  sortBy (collectSamples atan2 source control bottomHalf centerX centerY)
  <> [].
Proof.
  intros Hx Hy Hm.
  assert (Hin : In (x, y) (marked control EDGE_COLOR))
    by (apply in_marked; auto).
  apply list_elem_of_In, list_elem_of_lookup_1 in Hin as [i Hi].
  assert (Hs : exists s, In s
    (collectSamples atan2 source control bottomHalf centerX centerY)).
  { eexists. apply list_elem_of_In. eapply list_elem_of_lookup_2 with (i := i).
    rewrite collectSamples_imap, list_lookup_imap, Hi. reflexivity. }
  destruct Hs as [s Hs].
  apply sortBy_In in Hs. intros E. now rewrite E in Hs.
Qed.

(** X8.  The samples [refillCorner] collects are, in row-major order, one
    per EDGE pixel of the control quadrant: the i-th of them is the i-th
    object pushed, and carries the adjusted angle of its pixel seen from the
    center and the source color at its pixel. *)
Theorem collectSamples_scan atan2 source control bottomHalf centerX centerY :
  let samples :=
    collectSamples atan2 source control bottomHalf centerX centerY in
  length samples = length (marked control EDGE_COLOR)
  /\ forall i x y, marked control EDGE_COLOR !! i = Some (x, y) ->
       samples !! i
       = Some (Sample.mk i
                 (pixelAngle atan2 bottomHalf centerX centerY x y)
                 (getPixel (data source) (width control) x y)).
Proof.
  cbv zeta. rewrite collectSamples_imap. split.
  - apply length_imap.
  - intros i x y Hi. now rewrite list_lookup_imap, Hi.
Qed.

Lemma start_well_formed source control :
  well_formed source = true ->
  width source = width control -> height source = height control ->
  well_formed (mkImageData (width control) (height control) (data source))
  = true.
Proof.
  intros Hwf Ew Eh. destruct source as [w h d]. cbn [width height data] in *.
  now subst.
Qed.

(** What the third pair of loops leaves when it ends normally. *)
Lemma refill_result atan2 source control bottomHalf result :
  refillCorner atan2 source control bottomHalf = Returned result ->
  exists c,
    result = plot c (marked control TARGET_COLOR)
               (mkImageData (width control) (height control) (data source)).
Proof.
  unfold refillCorner.
  destruct (findCenter control) as [[centerX centerY]|]; [|discriminate].
  rewrite refill_loop_grid.
  destruct (sortBy (collectSamples atan2 source control bottomHalf
                      centerX centerY)) as [|s0 rest] eqn:Es.
  - rewrite refill_fold_no_sample.
    destruct (existsb _ _) eqn:Ex; [discriminate|].
    intros [= <-]. exists (fun _ => CENTER_COLOR).
    assert (En : marked control TARGET_COLOR = []).
    { unfold marked.
      destruct (List.filter _ _) as [|p l] eqn:Ef; [reflexivity|].
      assert (Hp : In p (p :: l)) by now left.
      rewrite <- Ef in Hp. apply filter_In in Hp as [Hg Hm].
      assert (Hex : existsb
        (fun p => is_marker control TARGET_COLOR (snd p) (fst p))
        (grid (height control) (width control)) = true)
        by (apply existsb_exists; eauto).
      congruence. }
    now rewrite En.
  - rewrite refill_fold_plot by discriminate.
    intros [= <-]. eexists. reflexivity.
Qed.

Lemma refill_keeps atan2 source control bottomHalf result :
  refillCorner atan2 source control bottomHalf = Returned result ->
  width result = width control /\ height result = height control
  /\ forall x y, x < width control -> y < height control ->
       is_marker control TARGET_COLOR x y = false ->
       bytes_at (data result) (width control) x y
       = bytes_at (data source) (width control) x y.
Proof.
  intros Hr. apply refill_result in Hr as [c ->].
  set (start := mkImageData (width control) (height control) (data source)).
  destruct (plot_dims c (marked control TARGET_COLOR) start)
    as (Ew' & Eh' & _).
  repeat split; auto.
  intros x y Hx Hy Hm.
  change (width control) with (width start) at 1.
  rewrite plot_outside; auto.
  - intros [px py] Hp. apply in_marked in Hp. cbn. tauto.
  - intros Hp. apply in_marked in Hp. destruct Hp as (_ & _ & Hp).
    congruence.
Qed.

(** X9.  When [refillCorner] returns, its result has the control
    quadrant's size and is well-formed, and every pixel that the control
    quadrant does not mark as TARGET holds the color of the source. *)
Theorem refillCorner_frame atan2 source control bottomHalf result :
  well_formed source = true ->
  width source = width control -> height source = height control ->
  refillCorner atan2 source control bottomHalf = Returned result ->
  width result = width control /\ height result = height control
  /\ well_formed result = true
  /\ forall x y, x < width control -> y < height control ->
       is_marker control TARGET_COLOR x y = false ->
       getPixel (data result) (width control) x y
       = getPixel (data source) (width control) x y.
Proof.
  intros Hwf Ew Eh Hr.
  destruct (refill_keeps atan2 source control bottomHalf result Hr)
    as (Ew' & Eh' & Hpx).
  repeat split; auto.
  - apply refill_result in Hr as [c ->].
    apply plot_well_formed. now apply start_well_formed.
  - intros x y Hx Hy Hm. now rewrite !getPixel_bytes_at, Hpx.
Qed.

(** X10.  A control quadrant with a CENTER pixel and with an EDGE pixel or
    without any TARGET pixel makes [refillCorner] return an image, of the
    quadrant's size; without any TARGET pixel that image has the source's
    array as it was. *)
Theorem refillCorner_returns atan2 source control bottomHalf cx cy :
  cx < width control -> cy < height control ->
  is_marker control CENTER_COLOR cx cy = true ->
  ((exists x y, x < width control /\ y < height control
      /\ is_marker control EDGE_COLOR x y = true) ->
   exists result,
     refillCorner atan2 source control bottomHalf = Returned result
     /\ width result = width control /\ height result = height control)
  /\ ((forall x y, x < width control -> y < height control ->
         is_marker control TARGET_COLOR x y = false) ->
      refillCorner atan2 source control bottomHalf
      = Returned (mkImageData (width control) (height control)
                    (data source))).
Proof.
  intros Hcx Hcy Hc.
  destruct (findCenter control) as [[centerX centerY]|] eqn:Ec.
  2:{ pose proof (proj1 (findCenter_None control) Ec cx cy Hcx Hcy).
      congruence. }
  split.
  - intros (x & y & Hx & Hy & He).
    pose proof (collectSamples_some atan2 source control bottomHalf
                  centerX centerY x y Hx Hy He) as Hne.
    unfold refillCorner. rewrite Ec, refill_loop_grid.
    rewrite refill_fold_plot by exact Hne.
    eexists. split; [reflexivity|].
    match goal with |- width (plot ?c ?l ?s) = _ /\ _ =>
      destruct (plot_dims c l s) as (Ew & Eh & _) end.
    now rewrite Ew, Eh.
  - intros Hno.
    assert (En : List.filter
      (fun p => is_marker control TARGET_COLOR (snd p) (fst p))
      (grid (height control) (width control)) = []).
    { destruct (List.filter _ _) as [|p l] eqn:Ef; [reflexivity|].
      assert (Hp : In p (p :: l)) by now left.
      rewrite <- Ef in Hp. apply filter_In in Hp as [Hg Hm].
      destruct p as [y x]. apply in_grid in Hg as [Hy Hx].
      cbn [fst snd] in Hm. rewrite Hno in Hm by assumption. discriminate. }
    unfold refillCorner. rewrite Ec, refill_loop_grid.
    destruct (sortBy (collectSamples atan2 source control bottomHalf
                        centerX centerY)) as [|s0 rest] eqn:Es.
    + rewrite refill_fold_no_sample.
      destruct (existsb _ _) eqn:Ex; [|reflexivity].
      apply existsb_exists in Ex as ([y x] & Hg & Hm).
      apply in_grid in Hg as [Hy Hx]. cbn [fst snd] in Hm.
      rewrite Hno in Hm by assumption. discriminate.
    + rewrite refill_fold_plot by discriminate. now rewrite En.
Qed.

(** ** Regions *)







(** Padding a region by 0 gives the region back, padding twice is
    padding by the sum, so padding by [-p] undoes padding by [p]; and a
    region padded by a non-negative amount covers the region. *)
Lemma padRegion_laws original p q :
  padRegion original 0 = original
  /\ padRegion (padRegion original p) q = padRegion original (p + q)
  /\ padRegion (padRegion original p) (- p) = original
  /\ ((0 <= p)%Z -> covers (padRegion original p) original).
Proof.
  destruct original as [x y w h]. unfold padRegion, covers. cbn.
  repeat split; try (f_equal; lia); lia.
Qed.

(** ** Integers as binary64 numbers: the arithmetic is exact below 2^53 *)

Lemma Zpos_shl m k : (0 <= k)%Z -> Zpos (shl m k) = (Zpos m * 2 ^ k)%Z.
Proof.
  intros Hk. destruct k as [|k|k]; [cbn; lia| |lia].
  cbn [shl]. rewrite <- Z.shiftl_mul_pow2 by lia. cbn [Z.shiftl].
  apply (Pos.iter_swap_gen _ _ Zpos xO (Z.mul 2)). reflexivity.
Qed.

Lemma digits_shl m k :
  (0 <= k)%Z ->
  Zpos (digits2_pos (shl m k)) = (Zpos (digits2_pos m) + k)%Z.
Proof.
  intros Hk. destruct k as [|k|k]; [cbn; lia| |lia].
  cbn [shl]. induction k as [|k IH] using Pos.peano_ind.
  - cbn. lia.
  - rewrite Pos.iter_succ. cbn [digits2_pos]. lia.
Qed.

Lemma shl_shl m j k :
  (0 <= j)%Z -> (0 <= k)%Z -> shl (shl m j) k = shl m (j + k).
Proof.
  intros Hj Hk. apply Pos2Z.inj. rewrite !Zpos_shl by lia.
  rewrite Z.pow_add_r by lia. lia.
Qed.

Lemma digits_bounds m :
  (2 ^ (Zpos (digits2_pos m) - 1) <= Zpos m < 2 ^ Zpos (digits2_pos m))%Z.
Proof.
  induction m as [m IH|m IH|]; cbn [digits2_pos].
  - rewrite Pos2Z.inj_succ.
    replace (Z.succ (Zpos (digits2_pos m)) - 1)%Z
      with (Zpos (digits2_pos m)) by lia.
    rewrite Z.pow_succ_r by lia.
    replace (Zpos (digits2_pos m)) with (Z.succ (Zpos (digits2_pos m) - 1))
      at 1 by lia.
    rewrite Z.pow_succ_r by lia. lia.
  - rewrite Pos2Z.inj_succ.
    replace (Z.succ (Zpos (digits2_pos m)) - 1)%Z
      with (Zpos (digits2_pos m)) by lia.
    rewrite Z.pow_succ_r by lia.
    replace (Zpos (digits2_pos m)) with (Z.succ (Zpos (digits2_pos m) - 1))
      at 1 by lia.
    rewrite Z.pow_succ_r by lia. lia.
  - cbn. lia.
Qed.

(** A number below 2^53 has at most 53 digits. *)
Lemma digits_le m : (Zpos m < 2 ^ 53)%Z -> (Zpos (digits2_pos m) <= 53)%Z.
Proof.
  intros Hm. destruct (digits_bounds m) as [Hlow _].
  destruct (Z.le_gt_cases (Zpos (digits2_pos m)) 53) as [H|H]; [exact H|].
  assert (2 ^ 53 <= 2 ^ (Zpos (digits2_pos m) - 1))%Z
    by (apply Z.pow_le_mono_r; lia).
  lia.
Qed.

Lemma iter_pos_iter {A : Type} (f : A -> A) p : forall x,
  SpecFloat.iter_pos f p x = Pos.iter f x p.
Proof.
  induction p as [p IH|p IH|]; intros x; cbn [SpecFloat.iter_pos Pos.iter].
  - rewrite !IH. now rewrite <- !Pos.iter_swap.
  - now rewrite !IH.
  - reflexivity.
Qed.

(** Shifting out zeros is exact. *)
Lemma shr_zeros m k :
  SpecFloat.iter_pos shr_1 k
    {| shr_m := Zpos (Pos.iter xO m k); shr_r := false; shr_s := false |}
  = {| shr_m := Zpos m; shr_r := false; shr_s := false |}.
Proof.
  rewrite iter_pos_iter. induction k as [|k IH] using Pos.peano_ind.
  - reflexivity.
  - rewrite Pos.iter_succ_r, Pos.iter_succ. cbn [shr_1 orb]. exact IH.
Qed.
Lemma fexp_digits d : (1 <= d)%Z -> fexp prec emax d = (d - 53)%Z.
Proof. intros Hd. unfold fexp, emin, prec, emax. lia. Qed.

(** A mantissa that has the digits its exponent asks for is kept. *)
Lemma round_aux_kept s m e :
  fexp prec emax (Zpos (digits2_pos m) + e) = e -> (e <= 971)%Z ->
  binary_round_aux prec emax s (Zpos m) e loc_Exact = S754_finite s m e.
Proof.
  intros He Hmax. unfold binary_round_aux, shr_fexp.
  cbn [Zdigits2 shr_record_of_loc]. rewrite He, Z.sub_diag.
  cbn [shr shr_m loc_of_shr_record round_nearest_even Zdigits2
       shr_record_of_loc].
  rewrite He, Z.sub_diag. cbn [shr shr_m].
  replace (e <=? emax - prec)%Z with true; [reflexivity|].
  symmetry. apply Z.leb_le. unfold emax, prec. lia.
Qed.

(** Rounding the integer [c], given as [c * 2^k] with the exponent [- k],
    gives the integer. *)
Lemma binary_round_int s c k :
  (Zpos (digits2_pos c) <= 53)%Z -> (0 <= k)%Z ->
  binary_round prec emax s (shl c k) (- k)
  = S754_finite s (shl c (53 - Zpos (digits2_pos c)))
      (Zpos (digits2_pos c) - 53).
Proof.
  intros Hc Hk. set (dc := Zpos (digits2_pos c)) in *.
  assert (Hd : (1 <= dc)%Z) by (unfold dc; lia).
  assert (Hcanon : fexp prec emax
            (Zpos (digits2_pos (shl c (53 - dc))) + (dc - 53)) = (dc - 53)%Z).
  { rewrite digits_shl by lia. fold dc.
    replace (dc + (53 - dc) + (dc - 53))%Z with dc by lia.
    now apply fexp_digits. }
  unfold binary_round. rewrite digits_shl by exact Hk. fold dc.
  replace (dc + k + - k)%Z with dc by lia. rewrite fexp_digits by exact Hd.
  unfold shl_align.
  destruct (dc - 53 - - k)%Z as [|p|d] eqn:Ediff.
  - (* the mantissa has its digits *)
    replace k with (53 - dc)%Z by lia.
    replace (- (53 - dc))%Z with (dc - 53)%Z by lia.
    apply round_aux_kept; [exact Hcanon|lia].
  - (* zeros are shifted out *)
    assert (Ek : shl c k = Pos.iter xO (shl c (53 - dc)) p).
    { change (Pos.iter xO (shl c (53 - dc)) p)
        with (shl (shl c (53 - dc)) (Zpos p)).
      rewrite shl_shl by lia. f_equal. lia. }
    unfold binary_round_aux, shr_fexp.
    cbn [Zdigits2 shr_record_of_loc]. rewrite digits_shl by exact Hk.
    fold dc. replace (dc + k + - k)%Z with dc by lia.
    rewrite fexp_digits by exact Hd. rewrite Ediff. cbn [shr].
    rewrite Ek, shr_zeros.
    cbn [shr_m loc_of_shr_record round_nearest_even Zdigits2
         shr_record_of_loc].
    replace (- k + Zpos p)%Z with (dc - 53)%Z by lia.
    rewrite Hcanon, Z.sub_diag. cbn [shr shr_m].
    replace (dc - 53 <=? emax - prec)%Z with true; [reflexivity|].
    symmetry. apply Z.leb_le. unfold emax, prec. lia.
  - (* the mantissa is moved up *)
    pose proof (Pos2Z.opp_pos d) as Hneg.
    change (Pos.iter xO (shl c k) d) with (shl (shl c k) (Zpos d)).
    rewrite shl_shl by lia.
    replace (k + Zpos d)%Z with (53 - dc)%Z by lia.
    apply round_aux_kept; [exact Hcanon|lia].
Qed.

Lemma binary_normalize_int z k :
  (Z.abs z < 2 ^ 53)%Z -> (0 <= k)%Z ->
  binary_normalize prec emax (z * 2 ^ k) (- k) false = SFint z.
Proof.
  intros Hz Hk. destruct z as [|p|p]; cbn [Z.mul SFint].
  - reflexivity.
  - rewrite <- Zpos_shl by exact Hk. cbn [binary_normalize].
    apply binary_round_int; [apply digits_le; lia|exact Hk].
  - rewrite <- Pos2Z.opp_pos, Z.mul_opp_l.
    rewrite <- Zpos_shl by exact Hk. cbn [Z.opp binary_normalize].
    apply binary_round_int; [apply digits_le; lia|exact Hk].
Qed.
Lemma Prim2SF_inj x y : Prim2SF x = Prim2SF y -> x = y.
Proof.
  intros E. rewrite <- (SF2Prim_Prim2SF x), <- (SF2Prim_Prim2SF y).
  now rewrite E.
Qed.

(** The number [JS.of_Z z] is the integer [z]. *)
Lemma of_Z_int z : (Z.abs z < 2 ^ 53)%Z -> Prim2SF (JS.of_Z z) = SFint z.
Proof.
  intros Hz. unfold JS.of_Z.
  assert (Hround : forall n, (0 <= n < 2 ^ 53)%Z ->
            Prim2SF (of_uint63 (Uint63.of_Z n)) = SFint n).
  { intros n Hn. rewrite of_uint63_spec, Uint63.of_Z_spec.
    rewrite Z.mod_small by (change Uint63.wB with (2 ^ 63)%Z; lia).
    rewrite <- (binary_normalize_int n 0) by lia.
    now rewrite Z.mul_1_r. }
  destruct (z <? 0)%Z eqn:E.
  - apply Z.ltb_lt in E. rewrite opp_spec, Hround by lia.
    destruct z as [|p|p]; try lia. reflexivity.
  - apply Z.ltb_ge in E. apply Hround. lia.
Qed.

(** A mantissa aligned with a smaller exponent. *)
Lemma align_int p ez :
  (Zpos (digits2_pos p) <= 53)%Z -> (ez <= Zpos (digits2_pos p) - 53)%Z ->
  Zpos (fst (shl_align (shl p (53 - Zpos (digits2_pos p)))
               (Zpos (digits2_pos p) - 53) ez))
  = (Zpos p * 2 ^ (- ez))%Z.
Proof.
  intros Hp He. set (dp := Zpos (digits2_pos p)) in *. unfold shl_align.
  destruct (ez - (dp - 53))%Z as [|d|d] eqn:Ediff; cbn [fst].
  - rewrite Zpos_shl by lia. do 2 f_equal. lia.
  - lia.
  - pose proof (Pos2Z.opp_pos d) as Hneg.
    change (Pos.iter xO (shl p (53 - dp)) d)
      with (shl (shl p (53 - dp)) (Zpos d)).
    rewrite shl_shl, Zpos_shl by lia. do 2 f_equal. lia.
Qed.

(** The sign and the aligned mantissa of a nonzero integer. *)
Lemma SFint_aligned z ez :
  z <> 0%Z -> (Z.abs z < 2 ^ 53)%Z ->
  exists s m,
    SFint z = S754_finite s m (Zdigits2 z - 53)
    /\ (Zdigits2 z - 53 <= 0)%Z
    /\ ((ez <= Zdigits2 z - 53)%Z ->
        cond_Zopp s (Zpos (fst (shl_align m (Zdigits2 z - 53) ez)))
        = (z * 2 ^ (- ez))%Z).
Proof.
  intros Hz Hb. destruct z as [|p|p]; [easy| |].
  - pose proof (digits_le p ltac:(lia)) as Hd.
    eexists _, _. split; [reflexivity|]. cbn [Zdigits2]. split; [lia|].
    intros He. cbn [cond_Zopp]. now apply align_int.
  - pose proof (digits_le p ltac:(lia)) as Hd.
    eexists _, _. split; [reflexivity|]. cbn [Zdigits2]. split; [lia|].
    intros He. cbn [cond_Zopp]. rewrite align_int by assumption.
    now rewrite <- Pos2Z.opp_pos, Z.mul_opp_l.
Qed.

Lemma SFadd_int a b :
  (Z.abs a < 2 ^ 53)%Z -> (Z.abs b < 2 ^ 53)%Z ->
  (Z.abs (a + b) < 2 ^ 53)%Z ->
  SFadd prec emax (SFint a) (SFint b) = SFint (a + b).
Proof.
  intros Ha Hb Hab.
  destruct (Z.eq_dec a 0%Z) as [->|Hna].
  { destruct b; reflexivity. }
  destruct (Z.eq_dec b 0%Z) as [->|Hnb].
  { rewrite Z.add_0_r. destruct a; reflexivity. }
  set (ea := (Zdigits2 a - 53)%Z). set (eb := (Zdigits2 b - 53)%Z).
  destruct (SFint_aligned a (Z.min ea eb) Hna Ha)
    as (sa & ma & Ea & Hea & Aa).
  destruct (SFint_aligned b (Z.min ea eb) Hnb Hb)
    as (sb & mb & Eb & Heb & Ab).
  fold ea in Ea, Hea, Aa. fold eb in Eb, Heb, Ab.
  rewrite Ea, Eb. cbn [SFadd].
  rewrite Aa, Ab by lia. rewrite <- Z.mul_add_distr_r.
  set (k := (- Z.min ea eb)%Z).
  replace (Z.min ea eb) with (- k)%Z by lia.
  apply binary_normalize_int; lia.
Qed.

Lemma SFsub_int a b :
  (Z.abs a < 2 ^ 53)%Z -> (Z.abs b < 2 ^ 53)%Z ->
  (Z.abs (a - b) < 2 ^ 53)%Z ->
  SFsub prec emax (SFint a) (SFint b) = SFint (a - b).
Proof.
  intros Ha Hb Hab.
  destruct (Z.eq_dec b 0%Z) as [->|Hnb].
  { rewrite Z.sub_0_r. destruct a; reflexivity. }
  destruct (Z.eq_dec a 0%Z) as [->|Hna].
  { destruct b; reflexivity. }
  set (ea := (Zdigits2 a - 53)%Z). set (eb := (Zdigits2 b - 53)%Z).
  destruct (SFint_aligned a (Z.min ea eb) Hna Ha)
    as (sa & ma & Ea & Hea & Aa).
  destruct (SFint_aligned b (Z.min ea eb) Hnb Hb)
    as (sb & mb & Eb & Heb & Ab).
  fold ea in Ea, Hea, Aa. fold eb in Eb, Heb, Ab.
  rewrite Ea, Eb. cbn [SFsub].
  rewrite Aa, Ab by lia. rewrite <- Z.mul_sub_distr_r.
  set (k := (- Z.min ea eb)%Z).
  replace (Z.min ea eb) with (- k)%Z by lia.
  apply binary_normalize_int; lia.
Qed.
(** More digits, larger number. *)
Lemma digits_lt p q :
  (Zpos (digits2_pos p) < Zpos (digits2_pos q))%Z -> (p < q)%positive.
Proof.
  intros Hd. destruct (digits_bounds p) as [_ Hp].
  destruct (digits_bounds q) as [Hq _].
  assert (2 ^ Zpos (digits2_pos p) <= 2 ^ (Zpos (digits2_pos q) - 1))%Z
    by (apply Z.pow_le_mono_r; lia).
  apply Pos2Z.pos_lt_pos. lia.
Qed.

Lemma compare_mantissas p q :
  match (Zpos (digits2_pos p) - 53 ?= Zpos (digits2_pos q) - 53)%Z with
  | Lt => Lt
  | Gt => Gt
  | Eq =>
      Pos.compare_cont Eq (shl p (53 - Zpos (digits2_pos p)))
        (shl q (53 - Zpos (digits2_pos q)))
  end = (p ?= q)%positive.
Proof.
  intros. destruct (Z.compare_spec (Zpos (digits2_pos p) - 53)
                      (Zpos (digits2_pos q) - 53)) as [E|E|E].
  - assert (Ed : digits2_pos p = digits2_pos q) by lia. rewrite Ed.
    rewrite Pos.compare_cont_spec.
    assert (Hs : forall c, Pos.switch_Eq Eq c = c) by now intros [].
    rewrite Hs.
    destruct (Z.le_gt_cases 0 (53 - Zpos (digits2_pos q))) as [Hk|Hk].
    + rewrite !Pos2Z.inj_compare, !Zpos_shl by exact Hk.
      symmetry. apply Zmult_compare_compat_r.
      apply Z.lt_gt, Z.pow_pos_nonneg; lia.
    + destruct (53 - Zpos (digits2_pos q))%Z; try lia. reflexivity.
  - symmetry. apply Pos.compare_lt_iff, digits_lt. lia.
  - symmetry. apply Pos.compare_gt_iff, digits_lt. lia.
Qed.

Lemma SFcompare_int a b :
  SFcompare (SFint a) (SFint b) = Some (a ?= b)%Z.
Proof.
  destruct a as [|p|p], b as [|q|q]; try reflexivity;
    cbn [SFint SFcompare Z.compare]; f_equal.
  - apply compare_mantissas.
  - rewrite <- (compare_mantissas p q).
    now destruct (Zpos (digits2_pos p) - 53 ?= Zpos (digits2_pos q) - 53)%Z.
Qed.

(** On integers of magnitude below 2^53 the operations on numbers are
    those on the integers. *)
Lemma of_Z_add a b :
  (Z.abs a < 2 ^ 53)%Z -> (Z.abs b < 2 ^ 53)%Z ->
  (Z.abs (a + b) < 2 ^ 53)%Z ->
  (JS.of_Z a + JS.of_Z b)%float = JS.of_Z (a + b).
Proof.
  intros Ha Hb Hab. apply Prim2SF_inj.
  rewrite add_spec, !of_Z_int by assumption. now apply SFadd_int.
Qed.

Lemma of_Z_sub a b :
  (Z.abs a < 2 ^ 53)%Z -> (Z.abs b < 2 ^ 53)%Z ->
  (Z.abs (a - b) < 2 ^ 53)%Z ->
  (JS.of_Z a - JS.of_Z b)%float = JS.of_Z (a - b).
Proof.
  intros Ha Hb Hab. apply Prim2SF_inj.
  rewrite sub_spec, !of_Z_int by assumption. now apply SFsub_int.
Qed.

Lemma of_Z_ltb a b :
  (Z.abs a < 2 ^ 53)%Z -> (Z.abs b < 2 ^ 53)%Z ->
  (JS.of_Z a <? JS.of_Z b)%float = (a <? b)%Z.
Proof.
  intros Ha Hb. rewrite FloatAxioms.ltb_spec, !of_Z_int by assumption.
  unfold SFltb, Z.ltb. rewrite SFcompare_int. now destruct (a ?= b)%Z.
Qed.

Lemma of_Z_is_nan a : (Z.abs a < 2 ^ 53)%Z -> is_nan (JS.of_Z a) = false.
Proof.
  intros Ha. unfold is_nan.
  rewrite FloatAxioms.eqb_spec, !of_Z_int by assumption.
  unfold SFeqb. now rewrite SFcompare_int, Z.compare_refl.
Qed.
Lemma Math_min_int a b :
  (Z.abs a < 2 ^ 53)%Z -> (Z.abs b < 2 ^ 53)%Z ->
  Math_min (JS.of_Z a) (JS.of_Z b) = JS.of_Z (Z.min a b).
Proof.
  intros Ha Hb. unfold Math_min.
  rewrite !of_Z_is_nan, !of_Z_ltb by assumption. cbn [orb].
  destruct (a <? b)%Z eqn:Eab; [f_equal; lia|].
  destruct (b <? a)%Z eqn:Eba; [f_equal; lia|].
  assert (a = b) by lia. subst b. rewrite Z.min_id.
  now destruct (get_sign (JS.of_Z a)).
Qed.

Lemma Math_max_int a b :
  (Z.abs a < 2 ^ 53)%Z -> (Z.abs b < 2 ^ 53)%Z ->
  Math_max (JS.of_Z a) (JS.of_Z b) = JS.of_Z (Z.max a b).
Proof.
  intros Ha Hb. unfold Math_max.
  rewrite !of_Z_is_nan, !of_Z_ltb by assumption. cbn [orb].
  destruct (a <? b)%Z eqn:Eab; [f_equal; lia|].
  destruct (b <? a)%Z eqn:Eba; [f_equal; lia|].
  assert (a = b) by lia. subst b. rewrite Z.max_id.
  now destruct (get_sign (JS.of_Z a)).
Qed.

(** On regions of integers of magnitude below 2^52 [mergeRegions] computes
    the hull. *)
Lemma mergeRegions_hull r1 r2 :
  exact_region r1 -> exact_region r2 ->
  mergeRegions (numbers r1) (numbers r2) = numbers (hull r1 r2).
Proof.
  destruct r1 as [x1 y1 w1 h1], r2 as [x2 y2 w2 h2].
  unfold exact_region. cbn [Region.x Region.y Region.w Region.h].
  intros (? & ? & ? & ? & ? & ?) (? & ? & ? & ? & ? & ?).
  unfold mergeRegions, numbers, hull.
  cbn [Region.x Region.y Region.w Region.h
       NumRegion.x NumRegion.y NumRegion.w NumRegion.h].
  rewrite !of_Z_add by lia. rewrite !Math_min_int, !Math_max_int by lia.
  rewrite !of_Z_sub by lia. reflexivity.
Qed.

(** X14.  On regions whose coordinates, sizes and far corners are integers
    of magnitude below 2^52, where the arithmetic of [mergeRegions] on
    numbers is exact, the region it returns is a region of integers that
    covers both regions and is covered by every region that covers both;
    merging is commutative, and merging a region with itself gives the
    region back. *)
Theorem mergeRegions_least r1 r2 :
  exact_region r1 -> exact_region r2 ->
  exists merged,
    mergeRegions (numbers r1) (numbers r2) = numbers merged
    /\ covers merged r1 /\ covers merged r2
    /\ (forall r, covers r r1 -> covers r r2 -> covers r merged)
    /\ mergeRegions (numbers r2) (numbers r1) = numbers merged
    /\ mergeRegions (numbers r1) (numbers r1) = numbers r1.
Proof.
  intros H1 H2. exists (hull r1 r2).
  split; [now apply mergeRegions_hull|].
  rewrite (mergeRegions_hull r2 r1 H2 H1), (mergeRegions_hull r1 r1 H1 H1).
  destruct r1 as [x1 y1 w1 h1], r2 as [x2 y2 w2 h2].
  unfold hull, covers. cbn.
  split; [lia|]. split; [lia|].
  split; [intros r (? & ? & ? & ?) (? & ? & ? & ?); lia|].
  split; do 2 f_equal; lia.
Qed.

Lemma mergeRegions_least_witness :
  exists merged,
    mergeRegions (numbers (Region.mk 0 0 10 10))
      (numbers (Region.mk 5 (-3) 10 4))
    = numbers merged
    /\ covers merged (Region.mk 0 0 10 10)
    /\ covers merged (Region.mk 5 (-3) 10 4).
Proof.
  destruct (mergeRegions_least (Region.mk 0 0 10 10)
              (Region.mk 5 (-3) 10 4)) as (merged & E & H1 & H2 & _).
  - unfold exact_region. cbn. lia.
  - unfold exact_region. cbn. lia.
  - exists merged. split; [exact E|]. split; [exact H1 | exact H2].
Defined.

(** Past 2^53 the sums are rounded: the region merged from the regions of
    width 2^53 at 1 and of width 1 at 0 has the width 2^53, and ends before
    the first region does. *)
Lemma mergeRegions_rounds :
  mergeRegions
    (NumRegion.mk (JS.of_Z 1) (JS.of_Z 0) (JS.of_Z (2 ^ 53)) (JS.of_Z 1))
    (NumRegion.mk (JS.of_Z 0) (JS.of_Z 0) (JS.of_Z 1) (JS.of_Z 1))
  = NumRegion.mk (JS.of_Z 0) (JS.of_Z 0) (JS.of_Z (2 ^ 53)) (JS.of_Z 1).
Proof. vm_compute. reflexivity. Qed.

(** ** Reading rectangles off a canvas *)

(** Two images of the same size whose arrays have the length of that size
    and hold the same pixels are the same image. *)
Lemma image_eq a b :
  width a = width b -> height a = height b ->
  length (data a) = PIXEL_SIZE * (width a * height a) ->
  length (data b) = PIXEL_SIZE * (width b * height b) ->
  (forall x y, x < width a -> y < height a ->
     bytes_at (data a) (width a) x y = bytes_at (data b) (width a) x y) ->
  a = b.
Proof.
  destruct a as [wa ha da], b as [wb hb db]. cbn [width height data].
  intros <- <- Hla Hlb Hpx.
  f_equal. apply list_eq. intros i.
  destruct (Nat.lt_ge_cases i (PIXEL_SIZE * (wa * ha))) as [Hi|Hi].
  - unfold PIXEL_SIZE in *.
    assert (Hw : 0 < wa) by (destruct wa; lia).
    set (q := i / 4). set (k := i mod 4).
    assert (Hq : i = 4 * q + k) by (apply Nat.div_mod; lia).
    assert (Hk : k < 4) by (apply Nat.mod_upper_bound; lia).
    assert (Hqlt : q < wa * ha) by lia.
    set (x := q mod wa). set (y := q / wa).
    assert (Hxy : q = wa * y + x) by (apply Nat.div_mod; lia).
    assert (Hx : x < wa) by (apply Nat.mod_upper_bound; lia).
    assert (Hy : y < ha).
    { apply Nat.Div0.div_lt_upper_bound. lia. }
    specialize (Hpx x y Hx Hy). unfold bytes_at in Hpx. cbv zeta in Hpx.
    remember (PIXEL_SIZE * (x + y * wa)) as index eqn:Eindex.
    assert (Ei : i = index + k) by (subst index; unfold PIXEL_SIZE; lia).
    injection Hpx as E0 E1 E2 E3.
    rewrite Ei. clearbody k. clear - E0 E1 E2 E3 Hk.
    destruct k as [|[|[|[|k]]]]; try lia;
      rewrite ?Nat.add_0_r; assumption.
  - rewrite !lookup_ge_None_2 by lia. reflexivity.
Qed.

(** The color the library reads at a pixel whose four bytes the array
    has. *)
Lemma image_pixel_bytes image i j r g b a :
  bytes_at (data image) (width image) i j
  = (Some r, Some g, Some b, Some a) ->
  image_pixel image (Z.of_nat i) (Z.of_nat j) = (r, g, b, a).
Proof.
  intros Eb. unfold image_pixel. rewrite !Nat2Z.id.
  unfold bytes_at in Eb. cbv zeta in Eb.
  remember (PIXEL_SIZE * (i + j * width image)) as index.
  injection Eb as E0 E1 E2 E3.
  now rewrite !nth_lookup, E0, E1, E2, E3.
Qed.

Section CanvasRectangles.

Context `{Compositing}.

(** The bytes [getImageData] lays out for the pixel [(i, j)] of a
    rectangle. *)
Lemma getImageData_rect ctx sx sy sw sh i j :
  i < sw -> j < sh ->
  bytes_at (data (getImageData ctx sx sy sw sh)) sw i j
  = bytes_of
      (if inside (surface ctx) (sx + Z.of_nat i) (sy + Z.of_nat j)
       then bitmap (surface ctx) (sx + Z.of_nat i) (sy + Z.of_nat j)
       else transparent).
Proof.
  intros Hi Hj.
  set (p := if inside (surface ctx) (sx + Z.of_nat i) (sy + Z.of_nat j)
            then bitmap (surface ctx) (sx + Z.of_nat i) (sy + Z.of_nat j)
            else transparent).
  unfold bytes_at, getImageData. cbn [data width].
  assert (Hk : forall k, k < 4 ->
    (PIXEL_SIZE * (i + j * sw) + k) / PIXEL_SIZE = i + j * sw
    /\ (PIXEL_SIZE * (i + j * sw) + k) mod PIXEL_SIZE = k).
  { intros k Hk. unfold PIXEL_SIZE. split.
    - symmetry. apply (Nat.div_unique _ 4 _ k); lia.
    - symmetry. apply (Nat.mod_unique _ 4 (i + j * sw) k); lia. }
  assert (Hx : (i + j * sw) mod sw = i).
  { symmetry. apply (Nat.mod_unique _ sw j i); lia. }
  assert (Hy : (i + j * sw) / sw = j).
  { symmetry. apply (Nat.div_unique _ sw j i); lia. }
  assert (Hl : forall k, k < 4 ->
    PIXEL_SIZE * (i + j * sw) + k < PIXEL_SIZE * (sw * sh)).
  { intros k Hk'. unfold PIXEL_SIZE. nia. }
  rewrite <- (Nat.add_0_r (PIXEL_SIZE * (i + j * sw))) at 1.
  rewrite !lookup_map_seq by (apply Hl; lia).
  destruct (Hk 0) as [-> ->]; [lia|].
  destruct (Hk 1) as [-> ->]; [lia|].
  destruct (Hk 2) as [-> ->]; [lia|].
  destruct (Hk 3) as [-> ->]; [lia|].
  rewrite Hx, Hy. fold p. now destruct p as [[[r g] b] a].
Qed.

Lemma getImageData_length ctx sx sy sw sh :
  length (data (getImageData ctx sx sy sw sh)) = PIXEL_SIZE * (sw * sh).
Proof. unfold getImageData. cbn [data]. now rewrite length_map, length_seq. Qed.

(** The bitmap of a fresh canvas after [putImageData] at [(dx, dy)]. *)
Lemma put_fresh_bitmap w h image (dx dy : nat) (i j : nat) :
  i < width image -> j < height image ->
  dx + i < w -> dy + j < h ->
  bitmap (surface (putImageData (getContext (createCanvas w h)) image
                     (Z.of_nat dx) (Z.of_nat dy)))
    (Z.of_nat (dx + i)) (Z.of_nat (dy + j))
  = store (image_pixel image (Z.of_nat i) (Z.of_nat j)).
Proof.
  intros Hi Hj HX HY. unfold putImageData.
  cbn [surface bitmap getContext createCanvas canvas_width canvas_height].
  replace (inside _ _ _) with true
    by (symmetry; apply inside_spec; cbn; lia).
  replace (Z.of_nat (dx + i) - Z.of_nat dx)%Z with (Z.of_nat i) by lia.
  replace (Z.of_nat (dy + j) - Z.of_nat dy)%Z with (Z.of_nat j) by lia.
  replace (0 <=? Z.of_nat i)%Z with true by (symmetry; apply Z.leb_le; lia).
  replace (0 <=? Z.of_nat j)%Z with true by (symmetry; apply Z.leb_le; lia).
  replace (Z.of_nat i <? Z.of_nat (width image))%Z with true
    by (symmetry; apply Z.ltb_lt; lia).
  replace (Z.of_nat j <? Z.of_nat (height image))%Z with true
    by (symmetry; apply Z.ltb_lt; lia).
  reflexivity.
Qed.

(** A pixel the canvas holds exactly is stored as it is. *)
Lemma store_exact source i j :
  well_formed source = true -> i < width source -> j < height source ->
  exact_at source i j ->
  bytes_of (store (image_pixel source (Z.of_nat i) (Z.of_nat j)))
  = bytes_at (data source) (width source) i j.
Proof.
  intros Hwf Hi Hj Hex.
  destruct (bytes_at_well_formed source i j Hwf Hi Hj)
    as (b0 & b1 & b2 & b3 & Eb & _).
  rewrite (image_pixel_bytes _ _ _ _ _ _ _ Eb), Eb.
  destruct Hex as [Hop|Hzero].
  - assert (Ea : b3 = 255%Z).
    { unfold opaque_at in Hop. unfold bytes_at in Eb. cbv zeta in Eb.
      remember (PIXEL_SIZE * (i + j * width source)) as index.
      injection Eb as _ _ _ E3. congruence. }
    subst b3. now rewrite store_opaque.
  - rewrite Eb in Hzero. injection Hzero as -> -> -> ->.
    now rewrite (store_clear (0, 0, 0, 0)%Z).
Qed.

Lemma inside_nat c (X Y : nat) :
  X < canvas_width c -> Y < canvas_height c ->
  inside c (Z.of_nat X) (Z.of_nat Y) = true.
Proof. intros HX HY. apply inside_spec. lia. Qed.

Lemma putImageData_bitmap ctx image dx dy X Y :
  bitmap (surface (putImageData ctx image dx dy)) X Y
  = if inside (surface ctx) X Y
       && (0 <=? X - dx)%Z && (X - dx <? Z.of_nat (width image))%Z
       && (0 <=? Y - dy)%Z && (Y - dy <? Z.of_nat (height image))%Z
    then store (image_pixel image (X - dx) (Y - dy))
    else bitmap (surface ctx) X Y.
Proof. reflexivity. Qed.

Lemma fillRect_bitmap ctx style x y w h X Y :
  bitmap (surface (fillRect ctx style x y w h)) X Y
  = if inside (surface ctx) X Y && (x <=? X)%Z && (X <? x + Z.of_nat w)%Z
       && (y <=? Y)%Z && (Y <? y + Z.of_nat h)%Z
    then over style (bitmap (surface ctx) X Y)
    else bitmap (surface ctx) X Y.
Proof. reflexivity. Qed.

End CanvasRectangles.

(** ** crop and cropMany *)

Lemma exact_at_bytes a b i j i' j' :
  bytes_at (data a) (width a) i j = bytes_at (data b) (width b) i' j' ->
  exact_at b i' j' -> exact_at a i j.
Proof.
  unfold exact_at, opaque_at, bytes_at. cbv zeta.
  remember (PIXEL_SIZE * (i + j * width a)) as index.
  remember (PIXEL_SIZE * (i' + j' * width b)) as index'.
  intros E [Hop|Hz].
  - left. injection E as _ _ _ E3. congruence.
  - right. congruence.
Qed.

(** An image whose array has the length of its size and whose pixels all
    have four bytes is well-formed. *)
Lemma well_formed_pixels image :
  length (data image) = PIXEL_SIZE * (width image * height image) ->
  (forall x y, x < width image -> y < height image ->
     exists b0 b1 b2 b3,
       bytes_at (data image) (width image) x y
       = (Some b0, Some b1, Some b2, Some b3)
       /\ is_byte b0 = true /\ is_byte b1 = true
       /\ is_byte b2 = true /\ is_byte b3 = true) ->
  well_formed image = true.
Proof.
  intros Hl Hpx. apply well_formed_spec. split; [exact Hl|].
  intros i c Hi. apply lookup_lt_Some in Hi as Hlt. rewrite Hl in Hlt.
  unfold PIXEL_SIZE in *.
  assert (Hw : 0 < width image) by (destruct (width image); lia).
  set (q := i / 4). set (k := i mod 4).
  assert (Hq : i = 4 * q + k) by (apply Nat.div_mod; lia).
  assert (Hk : k < 4) by (apply Nat.mod_upper_bound; lia).
  set (x := q mod width image). set (y := q / width image).
  assert (Hxy : q = width image * y + x) by (apply Nat.div_mod; lia).
  assert (Hx : x < width image) by (apply Nat.mod_upper_bound; lia).
  assert (Hy : y < height image).
  { apply Nat.Div0.div_lt_upper_bound. lia. }
  destruct (Hpx x y Hx Hy) as (b0 & b1 & b2 & b3 & Eb & H0 & H1 & H2 & H3).
  unfold bytes_at in Eb. cbv zeta in Eb.
  remember (PIXEL_SIZE * (x + y * width image)) as index eqn:Eindex.
  assert (Ei : i = index + k) by (subst index; unfold PIXEL_SIZE; lia).
  injection Eb as E0 E1 E2 E3. rewrite Ei in Hi.
  clearbody k. clear - E0 E1 E2 E3 Hk Hi H0 H1 H2 H3.
  destruct k as [|[|[|[|k]]]]; try lia;
    rewrite ?Nat.add_0_r in Hi; congruence.
Qed.

Section CropFacts.

Context `{Compositing}.

Lemma crop_bytes source region :
  well_formed source = true -> region_inside region source ->
  exists image,
    crop source region = inr image
    /\ width image = Z.to_nat (Region.w region)
    /\ height image = Z.to_nat (Region.h region)
    /\ length (data image) = PIXEL_SIZE * (width image * height image)
    /\ forall i j, i < width image -> j < height image ->
         exact_at source (Z.to_nat (Region.x region) + i)
           (Z.to_nat (Region.y region) + j) ->
         bytes_at (data image) (width image) i j
         = bytes_at (data source) (width source)
             (Z.to_nat (Region.x region) + i)
             (Z.to_nat (Region.y region) + j).
Proof.
  intros Hwf (Hx & Hy & Hw & Hh & Hxw & Hyh).
  unfold crop, getImageData_sized.
  replace (Z.to_nat (Region.w region) =? 0) with false
    by (symmetry; apply Nat.eqb_neq; lia).
  replace (Z.to_nat (Region.h region) =? 0) with false
    by (symmetry; apply Nat.eqb_neq; lia).
  cbn [orb]. eexists. split; [reflexivity|].
  split; [reflexivity|]. split; [reflexivity|].
  split; [apply getImageData_length|].
  intros i j Hi Hj Hex.
  unfold getImageData in Hi, Hj. cbn [width height] in Hi, Hj.
  rewrite getImageData_rect by assumption.
  remember (Z.to_nat (Region.x region) + i) as i' eqn:Ei'.
  remember (Z.to_nat (Region.y region) + j) as j' eqn:Ej'.
  replace (Region.x region + Z.of_nat i)%Z with (Z.of_nat (0 + i')) by lia.
  replace (Region.y region + Z.of_nat j)%Z with (Z.of_nat (0 + j')) by lia.
  replace (inside _ _ _) with true
    by (symmetry; apply inside_spec; cbn; lia).
  rewrite (put_fresh_bitmap _ _ source 0 0 i' j') by lia.
  apply store_exact; auto; lia.
Qed.

(** X15.  For a region of positive size inside a well-formed source, [crop]
    returns an image of the region's size whose pixel [(i, j)] is the source
    pixel [(x + i, y + j)], wherever that source pixel is opaque or
    transparent black. *)
Theorem crop_pixels source region :
  well_formed source = true -> region_inside region source ->
  exists image,
    crop source region = inr image
    /\ width image = Z.to_nat (Region.w region)
    /\ height image = Z.to_nat (Region.h region)
    /\ forall i j, i < width image -> j < height image ->
         exact_at source (Z.to_nat (Region.x region) + i)
           (Z.to_nat (Region.y region) + j) ->
         getPixel (data image) (width image) i j
         = getPixel (data source) (width source)
             (Z.to_nat (Region.x region) + i)
             (Z.to_nat (Region.y region) + j).
Proof.
  intros Hwf Hin.
  destruct (crop_bytes source region Hwf Hin)
    as (image & Ec & Ew & Eh & _ & Hpx).
  exists image. repeat split; auto.
  intros i j Hi Hj Hex. now rewrite !getPixel_bytes_at, Hpx.
Qed.

(** X16.  Cropping a well-formed image, whose pixels are all opaque or
    transparent black, to its full extent gives the image back. *)
Theorem crop_whole source :
  well_formed source = true -> 0 < width source -> 0 < height source ->
  all_exact source ->
  crop source
    (Region.mk 0 0 (Z.of_nat (width source)) (Z.of_nat (height source)))
  = inr source.
Proof.
  intros Hwf Hw Hh Hex.
  destruct (crop_bytes source
    (Region.mk 0 0 (Z.of_nat (width source)) (Z.of_nat (height source))) Hwf)
    as (image & Ec & Ew & Eh & El & Hpx).
  { unfold region_inside. cbn. lia. }
  cbn [Region.x Region.y Region.w Region.h] in *.
  rewrite Nat2Z.id in Ew, Eh. rewrite Ec. f_equal.
  apply image_eq; auto.
  - now apply well_formed_spec in Hwf.
  - intros x y Hx Hy. rewrite Hpx by (cbn; auto; apply Hex; cbn; lia).
    now rewrite Ew.
Qed.

Lemma crop_well_formed source region image :
  well_formed source = true -> region_inside region source ->
  all_exact source -> crop source region = inr image ->
  well_formed image = true /\ all_exact image.
Proof.
  intros Hwf Hin Hex Ec.
  destruct (crop_bytes source region Hwf Hin)
    as (image' & Ec' & Ew & Eh & El & Hpx).
  rewrite Ec in Ec'. injection Ec' as <-.
  destruct Hin as (Hx & Hy & Hw & Hh & Hxw & Hyh).
  assert (Hsrc : forall i j, i < width image -> j < height image ->
    Z.to_nat (Region.x region) + i < width source
    /\ Z.to_nat (Region.y region) + j < height source) by lia.
  split.
  - apply well_formed_pixels; [exact El|]. intros i j Hi Hj.
    destruct (Hsrc i j Hi Hj) as [Hi' Hj'].
    rewrite Hpx by auto. now apply bytes_at_well_formed.
  - intros i j Hi Hj. destruct (Hsrc i j Hi Hj) as [Hi' Hj'].
    eapply exact_at_bytes; [apply Hpx; auto|]; auto.
Qed.

(** X17.  Cropping a crop is cropping once: for a well-formed source whose
    pixels are all opaque or transparent black, a region [r1] inside the
    source and a region [r2] inside the crop to [r1], cropping the crop to
    [r2] gives the crop of the source to [r2] moved by the corner of
    [r1]. *)
Theorem crop_crop source r1 r2 mid :
  well_formed source = true -> all_exact source ->
  region_inside r1 source -> crop source r1 = inr mid ->
  region_inside r2 mid ->
  exists image,
    crop mid r2 = inr image
    /\ crop source
         (Region.mk (Region.x r1 + Region.x r2) (Region.y r1 + Region.y r2)
            (Region.w r2) (Region.h r2))
       = inr image.
Proof.
  intros Hwf Hex Hin1 Ec1 Hin2.
  destruct (crop_well_formed source r1 mid Hwf Hin1 Hex Ec1) as [Hwfm Hexm].
  destruct (crop_bytes source r1 Hwf Hin1)
    as (mid' & Ec1' & Ew1 & Eh1 & _ & Hpx1).
  rewrite Ec1 in Ec1'. injection Ec1' as <-.
  destruct (crop_bytes mid r2 Hwfm Hin2)
    as (image & Ec2 & Ew2 & Eh2 & El2 & Hpx2).
  set (r := Region.mk (Region.x r1 + Region.x r2) (Region.y r1 + Region.y r2)
              (Region.w r2) (Region.h r2)).
  destruct Hin1 as (Hx1 & Hy1 & Hw1 & Hh1 & Hxw1 & Hyh1).
  destruct Hin2 as (Hx2 & Hy2 & Hw2 & Hh2 & Hxw2 & Hyh2).
  destruct (crop_bytes source r Hwf)
    as (image' & Ec & Ew & Eh & El & Hpx).
  { unfold region_inside. cbn. lia. }
  cbn [r Region.x Region.y Region.w Region.h] in Ew, Eh, Hpx.
  exists image. split; [exact Ec2|]. rewrite Ec. f_equal.
  apply image_eq; try congruence.
  intros i j Hi Hj.
  rewrite Hpx by (try apply Hex; lia).
  replace (width image') with (width image) by congruence.
  rewrite Hpx2 by (try apply Hexm; lia).
  rewrite Hpx1 by (try apply Hex; lia).
  f_equal; lia.
Qed.

(** X18.  [cropMany] returns the crops of the regions, in their order, when
    [crop] returns an image for each of them, and throws when [crop] throws
    for one of them. *)
Theorem cropMany_crops source regions :
  (forall images, cropMany source regions = inr images <->
     Forall2 (fun region image => crop source region = inr image)
       regions images)
  /\ (forall e, cropMany source regions = inl e <->
        exists region, In region regions /\ crop source region = inl e).
Proof.
  induction regions as [|r regions [IHr IHl]] using rev_ind.
  - split.
    + intros images. cbn. split.
      * intros [= <-]. constructor.
      * intros Hf. inversion Hf. reflexivity.
    + intros e. cbn. split; [discriminate|].
      intros (q & Hq & _). destruct Hq.
  - assert (Estep : cropMany source (regions ++ [r]) =
      match cropMany source regions with
      | inl e => inl e
      | inr images =>
          match crop source r with
          | inl e => inl e
          | inr image => inr (images ++ [image])
          end
      end).
    { unfold cropMany at 1. rewrite fold_left_app. cbn [fold_left].
      fold (cropMany source regions). reflexivity. }
    rewrite Estep. split.
    + intros images. split.
      * destruct (cropMany source regions) as [e|rest] eqn:Er; [discriminate|].
        destruct (crop source r) as [e|image] eqn:Ec; [discriminate|].
        intros [= <-]. apply Forall2_app; [now apply IHr|].
        constructor; [exact Ec|constructor].
      * intros Hf. apply Forall2_app_inv_l in Hf
          as (rest & last & Hrest & Hlast & ->).
        apply IHr in Hrest. rewrite Hrest.
        inversion Hlast as [|? image ? tl Ec Htl]; subst.
        inversion Htl; subst. now rewrite Ec.
    + intros e. split.
      * destruct (cropMany source regions) as [e'|rest] eqn:Er.
        -- intros _. destruct e, e'.
           destruct (proj1 (IHl IndexSizeError) eq_refl) as (q & Hq & Eq).
           exists q. split; [apply in_app_iff; now left|exact Eq].
        -- destruct (crop source r) as [e'|image] eqn:Ec; [|discriminate].
           intros _. destruct e, e'. exists r. split; [|exact Ec].
           apply in_app_iff. right. now left.
      * intros (q & Hq & Eq). destruct e.
        destruct (cropMany source regions) as [[]|rest]; [reflexivity|].
        destruct (crop source r) as [[]|image] eqn:Ec; [reflexivity|].
        apply in_app_iff in Hq as [Hq|[<-|Hq]]; [| |destruct Hq].
        -- assert (Hl : @inr DOMException _ rest = inl IndexSizeError)
             by (apply IHl; eauto). discriminate.
        -- congruence.
Qed.

End CropFacts.

(** ** addBleedSolid *)

Section SolidFacts.

Context `{Compositing}.

Variable parseColor : String.string -> option RGBA.

Lemma solid_bytes source padding fill X Y :
  X < width source + 2 * padding -> Y < height source + 2 * padding ->
  bytes_at (data (addBleedSolid parseColor source padding fill))
    (width source + 2 * padding) X Y
  = bytes_of
      (if (padding <=? X) && (X <? padding + width source)
          && (padding <=? Y) && (Y <? padding + height source)
       then store (image_pixel source (Z.of_nat (X - padding))
                     (Z.of_nat (Y - padding)))
       else over (fill_style parseColor fill) transparent).
Proof.
  intros HX HY. unfold addBleedSolid. fold (fill_style parseColor fill).
  rewrite getImageData_rect by assumption. rewrite !Z.add_0_l.
  rewrite inside_nat by (cbn; lia).
  rewrite putImageData_bitmap, inside_nat by (cbn; lia).
  rewrite fillRect_bitmap, inside_nat by (cbn; lia).
  cbn [andb surface getContext createCanvas bitmap].
  replace ((0 <=? Z.of_nat X)%Z
           && (Z.of_nat X <? 0 + Z.of_nat (width source + 2 * padding))%Z
           && (0 <=? Z.of_nat Y)%Z
           && (Z.of_nat Y <? 0 + Z.of_nat (height source + 2 * padding))%Z)
    with true
    by (symmetry; rewrite !andb_true_iff, !Z.leb_le, !Z.ltb_lt; lia).
  destruct ((padding <=? X) && (X <? padding + width source)
            && (padding <=? Y) && (Y <? padding + height source)) eqn:Ein.
  - rewrite !andb_true_iff, !Nat.leb_le, !Nat.ltb_lt in Ein.
    replace ((0 <=? Z.of_nat X - Z.of_nat padding)%Z
             && (Z.of_nat X - Z.of_nat padding <? Z.of_nat (width source))%Z
             && (0 <=? Z.of_nat Y - Z.of_nat padding)%Z
             && (Z.of_nat Y - Z.of_nat padding <? Z.of_nat (height source))%Z)
      with true
      by (symmetry; rewrite !andb_true_iff, !Z.leb_le, !Z.ltb_lt; lia).
    replace (Z.of_nat X - Z.of_nat padding)%Z with (Z.of_nat (X - padding))
      by lia.
    replace (Z.of_nat Y - Z.of_nat padding)%Z with (Z.of_nat (Y - padding))
      by lia.
    reflexivity.
  - replace ((0 <=? Z.of_nat X - Z.of_nat padding)%Z
             && (Z.of_nat X - Z.of_nat padding <? Z.of_nat (width source))%Z
             && (0 <=? Z.of_nat Y - Z.of_nat padding)%Z
             && (Z.of_nat Y - Z.of_nat padding <? Z.of_nat (height source))%Z)
      with false; [reflexivity|].
    symmetry. apply not_true_is_false. intros Et.
    rewrite !andb_true_iff, !Z.leb_le, !Z.ltb_lt in Et.
    apply not_true_iff_false in Ein. apply Ein.
    rewrite !andb_true_iff, !Nat.leb_le, !Nat.ltb_lt. lia.
Qed.

(** X19.  [addBleedSolid] returns an image of [width + 2 * padding] by
    [height + 2 * padding] pixels.  The pixel at [(padding + i, padding + j)]
    is the source pixel [(i, j)] where that one is opaque or transparent
    black, and is transparent black wherever the source pixel has alpha 0:
    the source replaces the fill, it is not painted over it.  Outside the
    source's rectangle every pixel has the fill color when that color is
    opaque; a string that is no color gives opaque black. *)
Theorem addBleedSolid_layout source padding fill :
  well_formed source = true ->
  let w := width source in
  let h := height source in
  let out := addBleedSolid parseColor source padding fill in
  width out = w + 2 * padding /\ height out = h + 2 * padding
  /\ (forall i j, i < w -> j < h -> exact_at source i j ->
        getPixel (data out) (w + 2 * padding) (padding + i) (padding + j)
        = getPixel (data source) w i j)
  /\ (forall i j, i < w -> j < h ->
        alpha (image_pixel source (Z.of_nat i) (Z.of_nat j)) = 0%Z ->
        bytes_at (data out) (w + 2 * padding) (padding + i) (padding + j)
        = bytes_of transparent)
  /\ (forall X Y, X < w + 2 * padding -> Y < h + 2 * padding ->
        ~ (padding <= X < padding + w /\ padding <= Y < padding + h) ->
        alpha (fill_style parseColor fill) = 255%Z ->
        bytes_at (data out) (w + 2 * padding) X Y
        = bytes_of (fill_style parseColor fill))
  /\ (parseColor fill = None -> fill_style parseColor fill = (0, 0, 0, 255)%Z).
Proof.
  intros Hwf w h out. subst w h out.
  split; [reflexivity|]. split; [reflexivity|].
  assert (Hin : forall i j, i < width source -> j < height source ->
    (padding <=? padding + i) && (padding + i <? padding + width source)
    && (padding <=? padding + j) && (padding + j <? padding + height source)
    = true).
  { intros i j Hi Hj.
    rewrite !andb_true_iff, !Nat.leb_le, !Nat.ltb_lt. lia. }
  split; [|split; [|split]].
  - intros i j Hi Hj Hex.
    rewrite !getPixel_bytes_at, solid_bytes, Hin by lia.
    replace (padding + i - padding) with i by lia.
    replace (padding + j - padding) with j by lia.
    now rewrite store_exact.
  - intros i j Hi Hj Ha. rewrite solid_bytes, Hin by lia.
    replace (padding + i - padding) with i by lia.
    replace (padding + j - padding) with j by lia.
    now rewrite store_clear.
  - intros X Y HX HY Hout Ha. rewrite solid_bytes by assumption.
    replace ((padding <=? X) && (X <? padding + width source)
             && (padding <=? Y) && (Y <? padding + height source))
      with false.
    + now rewrite over_opaque.
    + symmetry. apply not_true_is_false. intros Et.
      rewrite !andb_true_iff, !Nat.leb_le, !Nat.ltb_lt in Et. lia.
  - unfold fill_style. now intros ->.
Qed.

End SolidFacts.

(** ** extendCorners *)

Section CornerFacts.

Context `{Compositing}.

Variable atan2 : JS.number -> JS.number -> JS.number.

Lemma corners_loop_stop controlCtx segs stop :
  corners_loop atan2 controlCtx segs (inl stop) = inl stop.
Proof. induction segs as [|s segs IH]; [reflexivity|exact IH]. Qed.

Lemma corners_loop_cons controlCtx s segs ctx :
  corners_loop atan2 controlCtx (s :: segs) (inr ctx)
  = corners_loop atan2 controlCtx segs
      (extendCorners_body atan2 controlCtx s ctx).
Proof. reflexivity. Qed.

(** The loop body never ends the function with an image. *)
Lemma body_stop controlCtx segment ctx stop image :
  extendCorners_body atan2 controlCtx segment ctx = inl stop ->
  stop <> Normal image.
Proof.
  destruct segment as [[[[bottomHalf fromX] toX] fromY] toY].
  unfold extendCorners_body.
  destruct (getImageData_sized _ _ _ _ _) as [e|sourcePixels];
    [intros [= <-]; discriminate|].
  destruct (getImageData_sized _ _ _ _ _) as [e|controlPixels];
    [intros [= <-]; discriminate|].
  destruct (refillCorner _ _ _ _) as [fillData|code|e heap];
    [discriminate| |]; intros [= <-]; discriminate.
Qed.

(** A segment without pixels makes the canvas throw. *)
Lemma body_empty controlCtx bottomHalf fromX toX fromY toY ctx :
  toX - fromX = 0 \/ toY - fromY = 0 ->
  extendCorners_body atan2 controlCtx (bottomHalf, fromX, toX, fromY, toY)
    ctx
  = inl (Throw (inr IndexSizeError)).
Proof.
  intros Hempty. unfold extendCorners_body, getImageData_sized.
  destruct Hempty as [-> | ->]; cbn [Nat.eqb orb];
    now rewrite ?orb_true_r.
Qed.

Lemma loop_empty controlCtx segs bottomHalf fromX toX fromY toY :
  In (bottomHalf, fromX, toX, fromY, toY) segs ->
  toX - fromX = 0 \/ toY - fromY = 0 ->
  forall ctx, exists stop,
    corners_loop atan2 controlCtx segs (inr ctx) = inl stop
    /\ forall image, stop <> Normal image.
Proof.
  intros Hin Hempty.
  induction segs as [|s segs IH]; intros ctx; [destruct Hin|].
  rewrite corners_loop_cons.
  destruct (extendCorners_body atan2 controlCtx s ctx) as [stop|ctx'] eqn:Eb.
  - exists stop. rewrite corners_loop_stop. split; [reflexivity|].
    intros image. eapply body_stop; eauto.
  - destruct Hin as [->|Hin]; [|now apply IH].
    rewrite body_empty in Eb by assumption. discriminate.
Qed.

Lemma extendCorners_loop source control :
  extendCorners atan2 source control
  = match
      corners_loop atan2
        (putImageData
           (getContext (createCanvas (width control) (height control)))
           control 0 0)
        (segments (width source) (height source))
        (inr (putImageData
                (getContext (createCanvas (width source) (height source)))
                source 0 0))
    with
    | inl stop => stop
    | inr ctx =>
        match getImageData_sized ctx 0 0 (width source) (height source) with
        | inl e => Throw (inr e)
        | inr image => Normal image
        end
    end.
Proof. reflexivity. Qed.

Lemma ceil_half_bounds n :
  ceil_half n <= n /\ (2 <= n -> 0 < ceil_half n < n)
  /\ (n < 2 -> n - ceil_half n = 0).
Proof.
  unfold ceil_half.
  pose proof (Nat.div_mod (n + 1) 2 ltac:(lia)).
  pose proof (Nat.mod_upper_bound (n + 1) 2 ltac:(lia)).
  lia.
Qed.

(** X20.  On a source less than two pixels wide or less than two pixels
    high [extendCorners] returns no image: a right or a bottom segment is
    empty, and reading it off the canvas throws, unless [refillCorner] has
    ended the run on an earlier segment. *)
Theorem extendCorners_small source control :
  width source < 2 \/ height source < 2 ->
  exists stop,
    extendCorners atan2 source control = stop
    /\ forall image, stop <> Normal image.
Proof.
  intros Hsmall. rewrite extendCorners_loop.
  set (controlCtx := putImageData _ control 0 0).
  set (ctx := putImageData _ source 0 0).
  destruct Hsmall as [Hw|Hh].
  - destruct (loop_empty controlCtx
      (segments (width source) (height source))
      false (ceil_half (width source)) (width source)
      0 (ceil_half (height source))) with (ctx := ctx)
      as (stop & -> & Hstop).
    + right. now left.
    + left. now apply ceil_half_bounds.
    + eauto.
  - destruct (loop_empty controlCtx
      (segments (width source) (height source))
      true 0 (ceil_half (width source))
      (ceil_half (height source)) (height source)) with (ctx := ctx)
      as (stop & -> & Hstop).
    + right. right. now left.
    + right. now apply ceil_half_bounds.
    + eauto.
Qed.

(** What a segment's step has done when the loop goes on. *)
Lemma body_continue controlCtx bottomHalf fromX toX fromY toY ctx ctx' :
  extendCorners_body atan2 controlCtx (bottomHalf, fromX, toX, fromY, toY)
    ctx = inr ctx' ->
  0 < toX - fromX /\ 0 < toY - fromY
  /\ exists fillData,
       refillCorner atan2
         (getImageData ctx (Z.of_nat fromX) (Z.of_nat fromY)
            (toX - fromX) (toY - fromY))
         (getImageData controlCtx (Z.of_nat fromX) (Z.of_nat fromY)
            (toX - fromX) (toY - fromY))
         bottomHalf = Returned fillData
       /\ ctx' = putImageData ctx fillData (Z.of_nat fromX) (Z.of_nat fromY).
Proof.
  unfold extendCorners_body, getImageData_sized.
  destruct (toX - fromX) as [|sw] eqn:Esw; [discriminate|].
  destruct (toY - fromY) as [|sh] eqn:Esh; [discriminate|].
  cbn [Nat.eqb orb].
  destruct (refillCorner _ _ _ _) as [fillData|code|e heap] eqn:Er;
    [|discriminate|discriminate].
  intros [= <-]. repeat split; try lia. eauto.
Qed.

Lemma store_exact_color p : exact_color p -> store p = p.
Proof.
  intros [Ha | ->]; [now apply store_opaque | now apply store_clear].
Qed.

Lemma body_keeps controlCtx segment ctx ctx' X Y :
  extendCorners_body atan2 controlCtx segment ctx = inr ctx' ->
  canvas_width (surface ctx') = canvas_width (surface ctx)
  /\ canvas_height (surface ctx') = canvas_height (surface ctx)
  /\ (X < canvas_width (surface ctx) -> Y < canvas_height (surface ctx) ->
      exact_color (bitmap (surface ctx) (Z.of_nat X) (Z.of_nat Y)) ->
      unmarked controlCtx segment X Y ->
      bitmap (surface ctx') (Z.of_nat X) (Z.of_nat Y)
      = bitmap (surface ctx) (Z.of_nat X) (Z.of_nat Y)).
Proof.
  destruct segment as [[[[bottomHalf fromX] toX] fromY] toY].
  intros Hb. apply body_continue in Hb as (Hsw & Hsh & fillData & Er & ->).
  split; [reflexivity|]. split; [reflexivity|].
  intros HX HY Hex Hun. cbn [unmarked] in Hun.
  destruct (refill_keeps _ _ _ _ _ Er) as (Ew & Eh & Hpx).
  unfold getImageData in Ew, Eh. cbn [width height] in Ew, Eh.
  rewrite putImageData_bitmap, inside_nat by assumption. cbn [andb].
  destruct ((0 <=? Z.of_nat X - Z.of_nat fromX)%Z
            && (Z.of_nat X - Z.of_nat fromX <? Z.of_nat (width fillData))%Z
            && (0 <=? Z.of_nat Y - Z.of_nat fromY)%Z
            && (Z.of_nat Y - Z.of_nat fromY <? Z.of_nat (height fillData))%Z)
    eqn:Ein; [|reflexivity].
  rewrite !andb_true_iff, !Z.leb_le, !Z.ltb_lt, Ew, Eh in Ein.
  assert (HinX : fromX <= X < toX) by lia.
  assert (HinY : fromY <= Y < toY) by lia.
  specialize (Hun HinX HinY).
  change (width (getImageData controlCtx (Z.of_nat fromX) (Z.of_nat fromY)
                   (toX - fromX) (toY - fromY)))
    with (toX - fromX) in Hpx.
  change (height (getImageData controlCtx (Z.of_nat fromX) (Z.of_nat fromY)
                    (toX - fromX) (toY - fromY)))
    with (toY - fromY) in Hpx.
  specialize (Hpx (X - fromX) (Y - fromY) ltac:(lia) ltac:(lia) Hun).
  rewrite getImageData_rect in Hpx by lia.
  replace (Z.of_nat fromX + Z.of_nat (X - fromX))%Z with (Z.of_nat X)
    in Hpx by lia.
  replace (Z.of_nat fromY + Z.of_nat (Y - fromY))%Z with (Z.of_nat Y)
    in Hpx by lia.
  rewrite inside_nat in Hpx by assumption.
  replace (Z.of_nat X - Z.of_nat fromX)%Z with (Z.of_nat (X - fromX)) by lia.
  replace (Z.of_nat Y - Z.of_nat fromY)%Z with (Z.of_nat (Y - fromY)) by lia.
  destruct (bitmap (surface ctx) (Z.of_nat X) (Z.of_nat Y))
    as [[[r g] b] a] eqn:Ep.
  rewrite <- Ew in Hpx.
  rewrite (image_pixel_bytes fillData _ _ r g b a Hpx).
  now apply store_exact_color.
Qed.

Lemma loop_keeps controlCtx segs X Y : forall ctx ctx',
  corners_loop atan2 controlCtx segs (inr ctx) = inr ctx' ->
  canvas_width (surface ctx') = canvas_width (surface ctx)
  /\ canvas_height (surface ctx') = canvas_height (surface ctx)
  /\ (X < canvas_width (surface ctx) -> Y < canvas_height (surface ctx) ->
      exact_color (bitmap (surface ctx) (Z.of_nat X) (Z.of_nat Y)) ->
      Forall (fun segment => unmarked controlCtx segment X Y) segs ->
      bitmap (surface ctx') (Z.of_nat X) (Z.of_nat Y)
      = bitmap (surface ctx) (Z.of_nat X) (Z.of_nat Y)).
Proof.
  induction segs as [|s segs IH]; intros ctx ctx'.
  - intros [= <-]. auto.
  - rewrite corners_loop_cons.
    destruct (extendCorners_body atan2 controlCtx s ctx) as [stop|ctx1] eqn:Eb.
    + now rewrite corners_loop_stop.
    + intros Hl. destruct (body_keeps _ _ _ _ X Y Eb) as (Ew1 & Eh1 & Hk1).
      destruct (IH _ _ Hl) as (Ew2 & Eh2 & Hk2).
      rewrite Ew2, Eh2, Ew1, Eh1. split; [reflexivity|]. split; [reflexivity|].
      intros HX HY Hex Hun. inversion Hun as [|? ? Hs Hrest]; subst.
      rewrite Hk2, Hk1; auto; try lia.
      rewrite Hk1; auto.
Qed.

Lemma loop_stop controlCtx segs : forall ctx stop image,
  corners_loop atan2 controlCtx segs (inr ctx) = inl stop ->
  stop <> Normal image.
Proof.
  induction segs as [|s segs IH]; intros ctx stop image; [discriminate|].
  rewrite corners_loop_cons.
  destruct (extendCorners_body atan2 controlCtx s ctx) as [stop'|ctx'] eqn:Eb.
  - rewrite corners_loop_stop. intros [= <-]. eapply body_stop; eauto.
  - apply IH.
Qed.

(** The pixel of a quadrant of the control canvas is the control image's,
    where that one is opaque or transparent black. *)
Lemma quadrant_bytes control fromX toX fromY toY X Y :
  well_formed control = true ->
  X < width control -> Y < height control -> exact_at control X Y ->
  fromX <= X < toX -> fromY <= Y < toY ->
  bytes_at
    (data (getImageData (control_context control) (Z.of_nat fromX)
             (Z.of_nat fromY) (toX - fromX) (toY - fromY)))
    (toX - fromX) (X - fromX) (Y - fromY)
  = bytes_at (data control) (width control) X Y.
Proof.
  intros Hwf HX HY Hex HinX HinY.
  rewrite getImageData_rect by lia.
  replace (Z.of_nat fromX + Z.of_nat (X - fromX))%Z with (Z.of_nat (0 + X))
    by lia.
  replace (Z.of_nat fromY + Z.of_nat (Y - fromY))%Z with (Z.of_nat (0 + Y))
    by lia.
  unfold control_context.
  rewrite inside_nat by (cbn; lia).
  rewrite (put_fresh_bitmap _ _ control 0 0 X Y) by lia.
  now apply store_exact.
Qed.

Lemma control_unmarked control segment X Y :
  well_formed control = true ->
  X < width control -> Y < height control -> exact_at control X Y ->
  bytes_at (data control) (width control) X Y
  <> (Some 0, Some 0, Some 0, Some 255)%Z ->
  unmarked (control_context control) segment X Y.
Proof.
  intros Hwf HX HY Hex Hne.
  destruct segment as [[[[bottomHalf fromX] toX] fromY] toY].
  cbn [unmarked]. intros HinX HinY. unfold is_marker.
  change (width (getImageData ?c ?a ?b ?w ?h)) with w.
  destruct (bytes_at_well_formed control X Y Hwf HX HY)
    as (b0 & b1 & b2 & b3 & Eb & H0 & H1 & H2 & H3).
  rewrite (hasColor_at _ _ _ _ b0 b1 b2 b3 0 0 0 255).
  - apply not_true_is_false. intros Et.
    rewrite !andb_true_iff, !Z.eqb_eq in Et.
    destruct Et as (((-> & ->) & ->) & ->). now apply Hne.
  - now rewrite quadrant_bytes.
  - cbn [forallb]. now rewrite H0, H1, H2, H3.
  - reflexivity.
Qed.

Lemma stored_exact source X Y :
  well_formed source = true ->
  X < width source -> Y < height source -> exact_at source X Y ->
  exact_color (store (image_pixel source (Z.of_nat X) (Z.of_nat Y))).
Proof.
  intros Hwf HX HY Hex.
  destruct (bytes_at_well_formed source X Y Hwf HX HY)
    as (b0 & b1 & b2 & b3 & Eb & _).
  rewrite (image_pixel_bytes _ _ _ _ _ _ _ Eb).
  destruct Hex as [Hop|Hzero].
  - assert (Ea : b3 = 255%Z).
    { unfold opaque_at in Hop. unfold bytes_at in Eb. cbv zeta in Eb.
      remember (PIXEL_SIZE * (X + Y * width source)) as index.
      injection Eb as _ _ _ E3. congruence. }
    subst b3. left. now rewrite store_opaque.
  - rewrite Eb in Hzero. injection Hzero as -> -> -> ->.
    right. now rewrite (store_clear (0, 0, 0, 0)%Z).
Qed.

(** X21.  When [extendCorners] returns an image for a control image of the
    source's size, the image has the source's size, and every source pixel
    that is opaque or transparent black and whose control pixel is opaque or
    transparent black and is not the TARGET color comes out unchanged. *)
Theorem extendCorners_frame source control image :
  well_formed source = true -> well_formed control = true ->
  width control = width source -> height control = height source ->
  extendCorners atan2 source control = Normal image ->
  width image = width source /\ height image = height source
  /\ forall X Y, X < width source -> Y < height source ->
       exact_at source X Y -> exact_at control X Y ->
       bytes_at (data control) (width control) X Y
       <> (Some 0, Some 0, Some 0, Some 255)%Z ->
       getPixel (data image) (width source) X Y
       = getPixel (data source) (width source) X Y.
Proof.
  intros Hwfs Hwfc Ew Eh. rewrite extendCorners_loop.
  fold (control_context control).
  set (ctx := putImageData _ source 0 0).
  destruct (corners_loop _ _ _ _) as [stop|ctx'] eqn:El.
  { intros ->. now apply loop_stop with (image := image) in El. }
  unfold getImageData_sized.
  destruct ((width source =? 0) || (height source =? 0)); [discriminate|].
  intros [= <-]. split; [reflexivity|]. split; [reflexivity|].
  intros X Y HX HY Hexs Hexc Hne.
  destruct (loop_keeps _ _ X Y _ _ El) as (Ew' & Eh' & Hk).
  rewrite !getPixel_bytes_at, getImageData_rect by assumption.
  rewrite !Z.add_0_l, inside_nat by (rewrite ?Ew', ?Eh'; cbn; lia).
  assert (Eb : bitmap (surface ctx) (Z.of_nat X) (Z.of_nat Y)
               = store (image_pixel source (Z.of_nat X) (Z.of_nat Y))).
  { apply (put_fresh_bitmap _ _ source 0 0 X Y); lia. }
  rewrite Hk, Eb.
  - now rewrite store_exact.
  - cbn. lia.
  - cbn. lia.
  - rewrite Eb. now apply stored_exact.
  - apply Forall_forall. intros segment _.
    apply control_unmarked; auto; lia.
Qed.

Lemma loop_centers controlCtx segs : forall ctx ctx',
  corners_loop atan2 controlCtx segs (inr ctx) = inr ctx' ->
  Forall (fun segment : Segment =>
    let '(_, fromX, toX, fromY, toY) := segment in
    0 < toX - fromX /\ 0 < toY - fromY
    /\ exists x y,
         findCenter
           (getImageData controlCtx (Z.of_nat fromX) (Z.of_nat fromY)
              (toX - fromX) (toY - fromY)) = Some (x, y)) segs.
Proof.
  induction segs as [|s segs IH]; intros ctx ctx'; [constructor|].
  rewrite corners_loop_cons.
  destruct (extendCorners_body atan2 controlCtx s ctx) as [stop|ctx1] eqn:Eb.
  - now rewrite corners_loop_stop.
  - intros Hl. constructor; [|eapply IH; eauto].
    destruct s as [[[[bottomHalf fromX] toX] fromY] toY].
    apply body_continue in Eb as (Hsw & Hsh & fillData & Er & _).
    repeat split; auto.
    unfold refillCorner in Er.
    destruct (findCenter _) as [[x y]|]; [eauto|discriminate].
Qed.

(** X22.  [extendCorners] returns an image only if each of the four
    quadrants has a CENTER: for a well-formed control image of the source's
    size whose pixels are all opaque or transparent black, each segment
    holds a control pixel with the bytes (0, 255, 0, 255). *)
Theorem extendCorners_centers source control image :
  well_formed control = true -> all_exact control ->
  width control = width source -> height control = height source ->
  extendCorners atan2 source control = Normal image ->
  Forall (fun segment : Segment =>
    let '(_, fromX, toX, fromY, toY) := segment in
    exists X Y, fromX <= X < toX /\ fromY <= Y < toY
      /\ bytes_at (data control) (width control) X Y
         = (Some 0, Some 255, Some 0, Some 255)%Z)
    (segments (width source) (height source)).
Proof.
  intros Hwf Hex Ew Eh. rewrite extendCorners_loop.
  fold (control_context control).
  destruct (corners_loop _ _ _ _) as [stop|ctx'] eqn:El.
  { intros ->. now apply loop_stop with (image := image) in El. }
  intros _. apply loop_centers in El.
  assert (Hb : Forall (fun segment : Segment =>
    let '(_, fromX, toX, fromY, toY) := segment in
    toX <= width control /\ toY <= height control)
    (segments (width source) (height source))).
  { pose proof (ceil_half_bounds (width source)) as (Hcw & _).
    pose proof (ceil_half_bounds (height source)) as (Hch & _).
    unfold segments. repeat constructor; lia. }
  rewrite Forall_forall in *. intros segment Hin.
  specialize (El segment Hin). specialize (Hb segment Hin).
  destruct segment as [[[[bottomHalf fromX] toX] fromY] toY].
  destruct El as (Hsw & Hsh & x & y & Ec). destruct Hb as [HtoX HtoY].
  apply findCenter_Some in Ec as (Hx & Hy & Hm & _).
  change (width (getImageData ?c ?a ?b ?w ?h)) with w in Hx, Hm.
  change (height (getImageData ?c ?a ?b ?w ?h)) with h in Hy.
  exists (fromX + x), (fromY + y).
  split; [lia|]. split; [lia|].
  assert (HX : fromX + x < width control) by lia.
  assert (HY : fromY + y < height control) by lia.
  destruct (bytes_at_well_formed control _ _ Hwf HX HY)
    as (b0 & b1 & b2 & b3 & Eb & H0 & H1 & H2 & H3).
  unfold is_marker in Hm.
  change (width (getImageData ?c ?a ?b ?w ?h)) with w in Hm.
  rewrite (hasColor_at _ _ _ _ b0 b1 b2 b3 0 255 0 255) in Hm.
  - rewrite !andb_true_iff, !Z.eqb_eq in Hm.
    destruct Hm as (((-> & ->) & ->) & ->). exact Eb.
  - rewrite <- Eb.
    rewrite <- (quadrant_bytes control fromX toX fromY toY
                  (fromX + x) (fromY + y)); auto; try lia.
    do 2 f_equal; lia.
  - cbn [forallb]. now rewrite H0, H1, H2, H3.
  - reflexivity.
Qed.

End CornerFacts.

(** ** main.ts: extending the sides, then adding bleed *)

Lemma extendSides_exact source control :
  well_formed source = true ->
  width control <= width source -> height control <= height source ->
  all_exact source -> all_exact (extendSides source control).
Proof.
  intros Hwf Hw Hh Hex i j.
  destruct (run_shape control (grid (width control) (height control)) source)
    as (Ew & Eh & _ & _).
  rewrite extendSides_run, Ew, Eh. intros Hi Hj.
  destruct (run_colors control (grid (width control) (height control))
              source Hwf) with (x' := i) (y' := j)
    as (x & y & Hx & Hy & E); auto.
  { intros [px py] Hp. apply in_grid in Hp. cbn [fst snd]. lia. }
  apply (exact_at_bytes _ source i j x y); [|now apply Hex].
  now rewrite Ew.
Qed.

Section CombatFacts.

Context `{Compositing}.

(** X23.  For a well-formed source image whose pixels are all opaque or
    transparent black and a control image no larger than it,
    [preprocessCombat] produces an image 72 pixels wider and higher, whose
    pixel at [(36 + i, 36 + j)] is the pixel [(i, j)] of the source with its
    sides extended; that pixel is a pixel of the source image. *)
Theorem preprocessCombat_layout control sourceImage :
  well_formed sourceImage = true -> all_exact sourceImage ->
  width control <= width sourceImage ->
  height control <= height sourceImage ->
  let w := width sourceImage in
  let h := height sourceImage in
  let out := preprocessCombat control sourceImage in
  width out = w + 72 /\ height out = h + 72
  /\ forall i j, i < w -> j < h ->
       getPixel (data out) (w + 72) (36 + i) (36 + j)
       = getPixel (data (extendSides sourceImage control)) w i j
       /\ exists x y, x < w /\ y < h
            /\ getPixel (data out) (w + 72) (36 + i) (36 + j)
               = getPixel (data sourceImage) w x y.
Proof.
  intros Hwf Hex Hw Hh w h out. subst w h out. unfold preprocessCombat.
  set (step1 := extendSides sourceImage control).
  destruct (run_shape control (grid (width control) (height control))
              sourceImage) as (Ew & Eh & _ & Hwf1).
  rewrite <- extendSides_run in Ew, Eh, Hwf1. fold step1 in Ew, Eh, Hwf1.
  specialize (Hwf1 Hwf).
  pose proof (extendSides_exact sourceImage control Hwf Hw Hh Hex) as Hex1.
  fold step1 in Hex1.
  split; [cbn; lia|]. split; [cbn; lia|].
  intros i j Hi Hj.
  assert (E : getPixel (data (addBleed step1 36)) (width sourceImage + 72)
                (36 + i) (36 + j)
              = getPixel (data step1) (width sourceImage) i j).
  { rewrite <- Ew. change 72 with (2 * 36).
    apply addBleed_pixel; auto; try lia.
    - apply Hex1; lia.
    - bleed_paints i j. }
  split; [exact E|].
  destruct (run_colors control (grid (width control) (height control))
              sourceImage Hwf) with (x' := i) (y' := j)
    as (x & y & Hx & Hy & Eb); auto.
  { intros [px py] Hp. apply in_grid in Hp. cbn [fst snd]. lia. }
  exists x, y. repeat split; auto.
  rewrite E. unfold step1.
  now rewrite extendSides_run, !getPixel_bytes_at, Eb.
Qed.

End CombatFacts.

(** ** autofill.ts: validation *)

Lemma filter_all {A : Type} (l : list A) : List.filter (fun _ => true) l = l.
Proof. induction l as [|x l IH]; [reflexivity|]. cbn. now rewrite IH. Qed.

Lemma filter_twice {A : Type} (p q : A -> bool) l :
  List.filter p (List.filter q l) = List.filter (fun x => q x && p x) l.
Proof.
  induction l as [|x l IH]; [reflexivity|].
  cbn [List.filter]. destruct (q x); cbn [andb List.filter]; now rewrite IH.
Qed.

Lemma delete_one slots : forall expected,
  fold_left (fun expected slot =>
    List.filter (fun s => negb (s =? slot)) expected) slots expected
  = List.filter (fun s => negb (existsb (Nat.eqb s) slots)) expected.
Proof.
  induction slots as [|slot slots IH]; intros expected; cbn [fold_left existsb].
  - symmetry. apply filter_all.
  - rewrite IH, filter_twice. apply filter_ext. intros s.
    now rewrite negb_orb.
Qed.

Lemma delete_slots_filter entries : forall expected,
  delete_slots entries expected
  = List.filter (fun s => negb (existsb (Nat.eqb s) (all_slots entries)))
      expected.
Proof.
  unfold delete_slots, all_slots.
  induction entries as [|e entries IH]; intros expected;
    cbn [fold_left flat_map existsb].
  - symmetry. apply filter_all.
  - rewrite IH, delete_one, filter_twice. apply filter_ext. intros s.
    now rewrite existsb_app, negb_orb.
Qed.

Lemma missing_nil quantity entries :
  missing quantity entries = [] <->
  forall s, s < quantity -> In s (all_slots entries).
Proof.
  unfold missing. split.
  - intros E s Hs.
    destruct (existsb (Nat.eqb s) (all_slots entries)) eqn:Ex.
    + apply existsb_exists in Ex as (s' & Hin & Es).
      apply Nat.eqb_eq in Es. now subst.
    + assert (Hin : In s (List.filter
        (fun s => negb (existsb (Nat.eqb s) (all_slots entries)))
        (seq 0 quantity))).
      { apply filter_In. split; [apply in_seq; lia|now rewrite Ex]. }
      rewrite E in Hin. destruct Hin.
  - intros Hall.
    destruct (List.filter _ _) as [|s l] eqn:Ef; [reflexivity|].
    assert (Hin : In s (s :: l)) by now left.
    rewrite <- Ef in Hin. apply filter_In in Hin as [Hs Hn].
    apply in_seq in Hs. apply negb_true_iff in Hn.
    assert (Ht : existsb (Nat.eqb s) (all_slots entries) = true).
    { apply existsb_exists. exists s. split; [apply Hall; lia|].
      apply Nat.eqb_refl. }
    congruence.
Qed.

Lemma validate_cases data :
  validateAutofillData data
  = match missing (AutofillData.quantity data) (AutofillData.fronts data),
          missing (AutofillData.quantity data) (AutofillData.backs data)
    with
    | [], [] => inr tt
    | [], _ :: _ =>
        inl (MissingBack (missing (AutofillData.quantity data)
                            (AutofillData.backs data)))
    | _ :: _, _ =>
        inl (MissingFront (missing (AutofillData.quantity data)
                             (AutofillData.fronts data)))
    end.
Proof.
  unfold validateAutofillData. rewrite !delete_slots_filter.
  fold (missing (AutofillData.quantity data) (AutofillData.fronts data)).
  fold (missing (AutofillData.quantity data) (AutofillData.backs data)).
  destruct (missing _ (AutofillData.fronts data)); [|reflexivity].
  destruct (missing _ (AutofillData.backs data)); reflexivity.
Qed.

Lemma validate_accepts data :
  validateAutofillData data = inr tt <->
  forall s, s < AutofillData.quantity data ->
    In s (all_slots (AutofillData.fronts data))
    /\ In s (all_slots (AutofillData.backs data)).
Proof.
  rewrite validate_cases.
  pose proof (missing_nil (AutofillData.quantity data)
                (AutofillData.fronts data)) as Hf.
  pose proof (missing_nil (AutofillData.quantity data)
                (AutofillData.backs data)) as Hb.
  destruct (missing _ (AutofillData.fronts data)) as [|f fs].
  - destruct (missing _ (AutofillData.backs data)) as [|b bs].
    + split; [|reflexivity]. intros _ s Hs. split.
      * now apply Hf.
      * now apply Hb.
    + split; [discriminate|]. intros Hall.
      assert (Hn : b :: bs = []) by (apply Hb; intros s Hs; now apply Hall).
      discriminate.
  - split; [discriminate|]. intros Hall.
    assert (Hn : f :: fs = []) by (apply Hf; intros s Hs; now apply Hall).
    discriminate.
Qed.

(** X24.  [validateAutofillData] accepts the data exactly when every slot
    below the quantity is held by a front and by a back.  Otherwise it
    throws for the fronts when a front is missing, else for the backs, and
    the error lists the missing slots in ascending order. *)
Theorem validateAutofillData_missing data :
  let quantity := AutofillData.quantity data in
  let noFront := missing quantity (AutofillData.fronts data) in
  let noBack := missing quantity (AutofillData.backs data) in
  validateAutofillData data
  = match noFront, noBack with
    | [], [] => inr tt
    | [], _ :: _ => inl (MissingBack noBack)
    | _ :: _, _ => inl (MissingFront noFront)
    end
  /\ (validateAutofillData data = inr tt <->
      forall s, s < quantity ->
        In s (all_slots (AutofillData.fronts data))
        /\ In s (all_slots (AutofillData.backs data))).
Proof. split; [apply validate_cases|apply validate_accepts]. Qed.

(** ** autofill.ts: grouping *)

Lemma group_push_keys name slot groups :
  map fst (group_push name slot groups)
  = if existsb (fun g => String.eqb (fst g) name) groups
    then map fst groups else map fst groups ++ [name].
Proof.
  induction groups as [|[key values] groups IH]; [reflexivity|].
  cbn [group_push existsb fst]. destruct (String.eqb key name); cbn [orb].
  - reflexivity.
  - cbn [map fst]. rewrite IH. now destruct (existsb _ groups).
Qed.

Lemma values_of_absent key groups :
  ~ In key (map fst groups) -> values_of key groups = [].
Proof.
  unfold values_of. induction groups as [|[k v] groups IH]; [reflexivity|].
  cbn [map fst List.filter In]. intros Hn.
  destruct (String.eqb k key) eqn:Ek.
  - apply String.eqb_eq in Ek. tauto.
  - apply IH. tauto.
Qed.

Lemma group_push_values name slot groups key :
  List.NoDup (map fst groups) ->
  values_of key (group_push name slot groups)
  = values_of key groups ++ (if String.eqb name key then [slot] else []).
Proof.
  unfold values_of.
  induction groups as [|[k v] groups IH]; intros Hnd.
  - cbn. destruct (String.eqb name key); reflexivity.
  - cbn [map fst] in Hnd. apply List.NoDup_cons_iff in Hnd as [Hk Hnd].
    cbn [group_push]. destruct (String.eqb k name) eqn:Ekn.
    + apply String.eqb_eq in Ekn. subst k.
      cbn [List.filter fst]. destruct (String.eqb name key) eqn:Ek.
      * apply String.eqb_eq in Ek. subst key.
        cbn [flat_map snd].
        fold (values_of name groups). rewrite (values_of_absent _ _ Hk).
        now rewrite !app_nil_r.
      * now rewrite app_nil_r.
    + cbn [List.filter fst]. destruct (String.eqb k key) eqn:Ek.
      * cbn [flat_map snd]. rewrite IH by assumption.
        now rewrite app_assoc.
      * now apply IH.
Qed.

Lemma group_push_NoDup name slot groups :
  List.NoDup (map fst groups) ->
  List.NoDup (map fst (group_push name slot groups)).
Proof.
  intros Hnd. rewrite group_push_keys.
  destruct (existsb _ groups) eqn:Ex; [exact Hnd|].
  apply List.NoDup_app; [exact Hnd|repeat constructor; easy|].
  intros k Hk [<-|[]].
  apply in_map_iff in Hk as (g & Eg & Hg).
  assert (Ht : existsb (fun g => String.eqb (fst g) name) groups = true).
  { apply existsb_exists. exists g. split; [exact Hg|].
    now apply String.eqb_eq. }
  congruence.
Qed.

Lemma groupBy_fold items : forall groups,
  List.NoDup (map fst groups) ->
  let result :=
    fold_left (fun groups item => group_push (fst item) (snd item) groups)
      items groups in
  List.NoDup (map fst result)
  /\ (forall key,
        values_of key result = values_of key groups ++ positions key items)
  /\ (forall key, In key (map fst result) <->
        In key (map fst groups) \/ In key (map fst items)).
Proof.
  induction items as [|[name slot] items IH]; intros groups Hnd; cbv zeta.
  - cbn [fold_left]. split; [exact Hnd|]. split.
    + intros key. unfold positions. cbn. now rewrite app_nil_r.
    + intros key. cbn. tauto.
  - cbn [fold_left fst snd].
    destruct (IH (group_push name slot groups)) as (Hnd' & Hv & Hk).
    { now apply group_push_NoDup. }
    split; [exact Hnd'|]. split.
    + intros key. rewrite Hv, group_push_values by assumption.
      unfold positions. cbn [List.filter fst].
      rewrite <- app_assoc. f_equal.
      now destruct (String.eqb name key).
    + intros key. rewrite Hk, group_push_keys. cbn [map fst In].
      destruct (existsb _ groups) eqn:Ex.
      * split; [tauto|]. intros [Hg|[<-|Hi]]; auto.
        apply existsb_exists in Ex as (g & Hg & Eg).
        apply String.eqb_eq in Eg. subst. left. now apply in_map.
      * rewrite in_app_iff. cbn [In]. tauto.
Qed.

Lemma values_of_in key values groups :
  List.NoDup (map fst groups) -> In (key, values) groups ->
  values_of key groups = values.
Proof.
  unfold values_of. induction groups as [|[k v] groups IH]; [easy|].
  cbn [map fst]. intros Hnd Hin.
  apply List.NoDup_cons_iff in Hnd as [Hk Hnd].
  cbn [List.filter fst]. destruct Hin as [[= -> ->]|Hin].
  - rewrite String.eqb_refl. cbn [flat_map snd].
    fold (values_of key groups). rewrite values_of_absent by assumption.
    apply app_nil_r.
  - destruct (String.eqb k key) eqn:Ek; [|now apply IH].
    apply String.eqb_eq in Ek. subst k. exfalso. apply Hk.
    apply in_map_iff. now exists (key, values).
Qed.

Lemma insert_index_perm {A : Type} n (entry : String.string * A) l :
  Permutation (insert_index n entry l) ((n, entry) :: l).
Proof.
  induction l as [|h l IH]; [reflexivity|].
  cbn [insert_index]. destruct (n <? fst h)%N; [reflexivity|].
  rewrite IH. apply perm_swap.
Qed.

(** [Object.keys] lists the properties that were added, each once. *)
Lemma Object_keys_perm {A : Type} (added : list (String.string * A)) :
  Permutation (Object_keys added) added.
Proof.
  unfold Object_keys.
  assert (Hi : forall acc,
    Permutation
      (map snd (fold_left (fun acc entry =>
         match array_index (fst entry) with
         | Some n => insert_index n entry acc
         | None => acc
         end) added acc))
      (map snd acc ++ List.filter (fun entry =>
         match array_index (fst entry) with
         | Some _ => true
         | None => false
         end) added)).
  { induction added as [|entry added IH]; intros acc; cbn [fold_left].
    - cbn. now rewrite app_nil_r.
    - rewrite IH. cbn [List.filter].
      destruct (array_index (fst entry)) as [n|]; [|reflexivity].
      rewrite (Permutation_map snd (insert_index_perm n entry acc)).
      cbn [map snd app]. apply Permutation_middle. }
  rewrite Hi. cbn [map app]. clear Hi.
  induction added as [|entry added IH]; [reflexivity|].
  cbn [List.filter]. destruct (array_index (fst entry)); cbn [app].
  - now rewrite IH.
  - rewrite <- Permutation_middle. now rewrite IH.
Qed.

Lemma filter_map_swap {A B : Type} (f : A -> B) (p : B -> bool) l :
  List.filter p (map f l) = map f (List.filter (fun x => p (f x)) l).
Proof.
  induction l as [|x l IH]; [reflexivity|].
  cbn [map List.filter]. destruct (p (f x)); cbn [map]; now rewrite IH.
Qed.

Lemma positions_places name names : forall k,
  positions name (imap (fun i n => (n, k + i)) names)
  = map (fun i => k + i) (places name names).
Proof.
  unfold positions, places.
  induction names as [|n names IH]; intros k; [reflexivity|].
  cbn [imap length]. rewrite <- cons_seq, <- seq_shift. cbn [List.filter fst].
  rewrite filter_map_swap. cbn [lookup list_lookup].
  rewrite (imap_ext _ (fun i n => (n, S k + i)))
    by (intros; cbn; f_equal; lia).
  destruct (String.eqb n name).
  - cbn [map snd]. rewrite IH, Nat.add_0_r, map_map. f_equal.
    apply map_ext. intros i. lia.
  - rewrite IH, map_map. apply map_ext. intros i. lia.
Qed.

Lemma imap_names (names : list String.string) : forall k,
  map fst (imap (fun i n => (n, k + i)) names) = names.
Proof.
  induction names as [|n names IH]; intros k; [reflexivity|].
  cbn [imap map fst]. f_equal.
  rewrite (imap_ext _ (fun i n => (n, S k + i)))
    by (intros; cbn; f_equal; lia).
  apply IH.
Qed.

Lemma in_places name names i :
  In i (places name names) <-> names !! i = Some name.
Proof.
  unfold places. rewrite filter_In, in_seq. split.
  - intros [_ Hi]. destruct (names !! i) as [n|]; [|discriminate].
    apply String.eqb_eq in Hi. now subst.
  - intros Hi. split.
    + apply lookup_lt_Some in Hi. lia.
    + rewrite Hi. apply String.eqb_refl.
Qed.

(** X25.  [autofillData] gives each distinct name one entry, whose slots
    are the positions of the name among the cards' fronts (backs), in
    ascending order, and whose extension is empty; its quantity is the
    number of cards; and the data passes [validateAutofillData]. *)
Theorem autofillData_groups cards :
  let data := autofillData cards in
  let shape names entries :=
    List.NoDup (map AutofillEntry.name entries)
    /\ (forall name, In name (map AutofillEntry.name entries) <->
          In name names)
    /\ forall e, In e entries ->
         AutofillEntry.slots e = places (AutofillEntry.name e) names
         /\ AutofillEntry.ext e = ""%string in
  AutofillData.quantity data = length cards
  /\ shape (map CardImage.front cards) (AutofillData.fronts data)
  /\ shape (map CardImage.back cards) (AutofillData.backs data)
  /\ validateAutofillData data = inr tt.
Proof.
  cbv zeta.
  assert (Hs : forall names,
    List.NoDup (map AutofillEntry.name (getSlotInfo names))
    /\ (forall name, In name (map AutofillEntry.name (getSlotInfo names)) <->
          In name names)
    /\ forall e, In e (getSlotInfo names) ->
         AutofillEntry.slots e = places (AutofillEntry.name e) names
         /\ AutofillEntry.ext e = ""%string).
  { intros names. unfold getSlotInfo, groupBy_name.
    set (items := imap (fun i name => (name, i)) names).
    destruct (groupBy_fold items []) as (Hnd & Hv & Hk); [constructor|].
    cbv zeta in Hnd, Hv, Hk.
    set (groups := fold_left _ items []) in *.
    pose proof (Object_keys_perm groups) as Hp.
    assert (En : map AutofillEntry.name
                   (map (fun group => AutofillEntry.mk (fst group) ""%string
                           (snd group)) (Object_keys groups))
                 = map fst (Object_keys groups)).
    { rewrite map_map. reflexivity. }
    assert (Ei : map fst items = names) by apply (imap_names names 0).
    rewrite En. split; [|split].
    - eapply Permutation_NoDup; [|exact Hnd].
      apply Permutation_map. now symmetry.
    - intros name. rewrite <- Ei. split; intros Hin.
      + apply (Permutation_in _ (Permutation_map fst Hp)) in Hin.
        apply Hk in Hin as [[]|Hin]. exact Hin.
      + apply (Permutation_in _ (Permutation_map fst (Permutation_sym Hp))).
        apply Hk. now right.
    - intros e He. apply in_map_iff in He as ([key values] & <- & Hg).
      cbn [AutofillEntry.slots AutofillEntry.name AutofillEntry.ext fst snd].
      split; [|reflexivity].
      apply (Permutation_in _ Hp) in Hg.
      rewrite <- (values_of_in key values groups Hnd Hg), Hv.
      cbn [app]. subst items.
      change (positions key (imap (fun i n => (n, 0 + i)) names)
              = places key names).
      rewrite (positions_places key names 0).
      rewrite <- (map_id (places key names)) at 2.
      apply map_ext. intros i. reflexivity. }
  destruct (Hs (map CardImage.front cards)) as (Hf1 & Hf2 & Hf3).
  destruct (Hs (map CardImage.back cards)) as (Hb1 & Hb2 & Hb3).
  unfold autofillData.
  cbn [AutofillData.quantity AutofillData.fronts AutofillData.backs].
  split; [apply length_map|]. split; [auto|]. split; [auto|].
  assert (Hcover : forall names s, s < length names ->
    In s (all_slots (getSlotInfo names))).
  { intros names s Hlt.
    destruct (Hs names) as (_ & Hn & He).
    destruct (lookup_lt_is_Some_2 names s Hlt) as [name Hname].
    assert (Hin : In name names).
    { apply list_elem_of_In. eapply list_elem_of_lookup_2; eauto. }
    apply Hn, in_map_iff in Hin as (e & <- & Hin).
    unfold all_slots. apply in_flat_map. exists e. split; [exact Hin|].
    destruct (He e Hin) as [-> _]. now apply in_places. }
  unfold validateAutofillData.
  cbn [AutofillData.quantity AutofillData.fronts AutofillData.backs].
  rewrite !delete_slots_filter.
  fold (missing (length (map CardImage.front cards))
          (getSlotInfo (map CardImage.front cards))).
  fold (missing (length (map CardImage.front cards))
          (getSlotInfo (map CardImage.back cards))).
  replace (missing _ (getSlotInfo (map CardImage.front cards))) with
    (@nil nat) by (symmetry; apply missing_nil; intros; now apply Hcover).
  replace (missing _ (getSlotInfo (map CardImage.back cards))) with
    (@nil nat).
  - reflexivity.
  - symmetry. apply missing_nil. intros s Hlt. apply Hcover.
    now rewrite length_map in *.
Qed.

(** ** autofill.ts: merging *)

Section AutofillFacts.

Variable inherited : String.string -> bool.

Lemma slots_named_app name l l' :
  slots_named name (l ++ l') = slots_named name l ++ slots_named name l'.
Proof. unfold slots_named. now rewrite List.filter_app, flat_map_app. Qed.

Lemma slots_named_absent name entries :
  ~ In name (map AutofillEntry.name entries) ->
  slots_named name entries = [].
Proof.
  unfold slots_named. induction entries as [|e entries IH]; [reflexivity|].
  cbn [map In List.filter]. intros Hn.
  destruct (String.eqb (AutofillEntry.name e) name) eqn:Ee.
  - apply String.eqb_eq in Ee. tauto.
  - apply IH. tauto.
Qed.

Lemma slots_named_in e entries :
  List.NoDup (map AutofillEntry.name entries) -> In e entries ->
  slots_named (AutofillEntry.name e) entries = AutofillEntry.slots e.
Proof.
  unfold slots_named. induction entries as [|h entries IH]; [easy|].
  cbn [map]. intros Hnd Hin. apply List.NoDup_cons_iff in Hnd as [Hh Hnd].
  cbn [List.filter]. destruct Hin as [->|Hin].
  - rewrite String.eqb_refl. cbn [flat_map].
    fold (slots_named (AutofillEntry.name e) entries).
    rewrite slots_named_absent by assumption. apply app_nil_r.
  - destruct (String.eqb (AutofillEntry.name h) (AutofillEntry.name e))
      eqn:Eh; [|now apply IH].
    apply String.eqb_eq in Eh. exfalso. apply Hh. rewrite Eh.
    now apply in_map.
Qed.

Lemma push_slots_name name extra entries :
  map AutofillEntry.name (map (push_slots name extra) entries)
  = map AutofillEntry.name entries.
Proof.
  rewrite map_map. apply map_ext. intros e. unfold push_slots.
  now destruct (String.eqb (AutofillEntry.name e) name).
Qed.

Lemma push_slots_at name extra e :
  AutofillEntry.name (push_slots name extra e) = AutofillEntry.name e
  /\ AutofillEntry.slots (push_slots name extra e)
     = AutofillEntry.slots e
       ++ (if String.eqb (AutofillEntry.name e) name then extra else []).
Proof.
  unfold push_slots.
  destruct (String.eqb (AutofillEntry.name e) name); cbn;
    now rewrite ?app_nil_r.
Qed.

Lemma push_slots_other name extra entries :
  ~ In name (map AutofillEntry.name entries) ->
  map (push_slots name extra) entries = entries.
Proof.
  induction entries as [|h entries IH]; [reflexivity|].
  cbn [map In]. intros Hn. unfold push_slots at 1.
  destruct (String.eqb (AutofillEntry.name h) name) eqn:Eh.
  - apply String.eqb_eq in Eh. tauto.
  - f_equal. apply IH. tauto.
Qed.

Lemma push_slots_named name extra entries key :
  List.NoDup (map AutofillEntry.name entries) ->
  In name (map AutofillEntry.name entries) ->
  slots_named key (map (push_slots name extra) entries)
  = slots_named key entries ++ (if String.eqb name key then extra else []).
Proof.
  unfold slots_named.
  induction entries as [|e entries IH]; [easy|].
  cbn [map]. intros Hnd Hin. apply List.NoDup_cons_iff in Hnd as [He Hnd].
  cbn [List.filter].
  destruct (push_slots_at name extra e) as [En Es]. rewrite En.
  destruct (String.eqb (AutofillEntry.name e) name) eqn:Een.
  - apply String.eqb_eq in Een. subst name.
    rewrite push_slots_other by assumption.
    destruct (String.eqb (AutofillEntry.name e) key) eqn:Ek.
    + cbn [flat_map]. rewrite Es.
      apply String.eqb_eq in Ek. subst key.
      fold (slots_named (AutofillEntry.name e) entries).
      rewrite slots_named_absent by assumption.
      now rewrite !app_nil_r.
    + now rewrite app_nil_r.
  - destruct Hin as [Hin|Hin].
    { rewrite Hin, String.eqb_refl in Een. discriminate. }
    destruct (String.eqb (AutofillEntry.name e) key) eqn:Ek.
    + cbn [flat_map]. rewrite IH, Es by assumption.
      now rewrite app_nil_r, app_assoc.
    + now apply IH.
Qed.

Lemma deduplicate_snoc l x :
  deduplicate inherited (l ++ [x])
  = deduplicate_step inherited (deduplicate inherited l) x.
Proof. unfold deduplicate. now rewrite fold_left_app. Qed.

Lemma own_name name (result : list AutofillEntry.t) :
  existsb (fun e => String.eqb (AutofillEntry.name e) name) result = true
  <-> In name (map AutofillEntry.name result).
Proof.
  rewrite existsb_exists, in_map_iff. split.
  - intros (e & He & Ee). apply String.eqb_eq in Ee. eauto.
  - intros (e & Ee & He). exists e. split; [exact He|].
    now apply String.eqb_eq.
Qed.

(** What [deduplicate] has done after a list of entries. *)
Lemma deduplicate_spec l :
  match deduplicate inherited l with
  | inr result =>
      (forall e, In e l -> inherited (AutofillEntry.name e) = false)
      /\ List.NoDup (map AutofillEntry.name result)
      /\ (forall name, In name (map AutofillEntry.name result) <->
            In name (map AutofillEntry.name l))
      /\ (forall name, slots_named name result = slots_named name l)
  | inl _ => exists e, In e l /\ inherited (AutofillEntry.name e) = true
  end.
Proof.
  induction l as [|x l IH] using rev_ind.
  - cbn. repeat split; try constructor; tauto.
  - rewrite deduplicate_snoc.
    destruct (deduplicate inherited l) as [err|result].
    + cbn. destruct IH as (e & He & Hi). exists e.
      split; [apply in_app_iff; now left|exact Hi].
    + destruct IH as (Hok & Hnd & Hnames & Hslots).
      cbn [deduplicate_step].
      destruct (existsb _ result) eqn:Eown.
      * apply own_name in Eown.
        fold (push_slots (AutofillEntry.name x) (AutofillEntry.slots x)).
        split; [|split; [|split]].
        -- intros e He. apply in_app_iff in He as [He|[<-|[]]]; [auto|].
           apply Hnames, in_map_iff in Eown as (e & Ee & He).
           rewrite <- Ee. auto.
        -- now rewrite push_slots_name.
        -- intros name. rewrite push_slots_name, map_app, in_app_iff, Hnames.
           cbn [map In]. split; [tauto|]. intros [Hn|[<-|[]]]; [exact Hn|].
           now apply Hnames.
        -- intros name. rewrite push_slots_named, slots_named_app, Hslots
             by assumption.
           f_equal. unfold slots_named. cbn [List.filter].
           destruct (String.eqb (AutofillEntry.name x) name); cbn;
             now rewrite ?app_nil_r.
      * destruct (inherited (AutofillEntry.name x)) eqn:Ei.
        -- exists x. split; [apply in_app_iff; right; now left|exact Ei].
        -- split; [|split; [|split]].
           ++ intros e He. apply in_app_iff in He as [He|[<-|[]]]; auto.
           ++ rewrite map_app. apply List.NoDup_app;
                [exact Hnd|repeat constructor; easy|].
              intros name Hn [<-|[]]. apply own_name in Hn. congruence.
           ++ intros name. rewrite !map_app, !in_app_iff, Hnames. tauto.
           ++ intros name. now rewrite !slots_named_app, Hslots.
Qed.

Lemma all_slots_named entries s :
  In s (all_slots entries) <->
  exists name, In s (slots_named name entries).
Proof.
  unfold all_slots, slots_named. rewrite in_flat_map. split.
  - intros (e & He & Hs). exists (AutofillEntry.name e).
    apply in_flat_map. exists e. split; [|exact Hs].
    apply filter_In. split; [exact He|apply String.eqb_refl].
  - intros (name & Hs). apply in_flat_map in Hs as (e & He & Hs).
    apply filter_In in He as [He _]. eauto.
Qed.

(** X26.  On entries whose names are not inherited from
    [Object.prototype], [deduplicate] returns one entry for each name, whose
    slots are the slots of the entries of that name, in their order; an
    entry with an inherited name makes it throw a TypeError. *)
Theorem deduplicate_merges entries :
  ((forall e, In e entries -> inherited (AutofillEntry.name e) = false) ->
   exists result,
     deduplicate inherited entries = inr result
     /\ List.NoDup (map AutofillEntry.name result)
     /\ (forall name, In name (map AutofillEntry.name result) <->
           In name (map AutofillEntry.name entries))
     /\ forall e, In e result ->
          AutofillEntry.slots e
          = slots_named (AutofillEntry.name e) entries)
  /\ ((exists e, In e entries /\ inherited (AutofillEntry.name e) = true) ->
      deduplicate inherited entries = inl TypeError).
Proof.
  pose proof (deduplicate_spec entries) as Hspec.
  destruct (deduplicate inherited entries) as [[]|result].
  - split; [|reflexivity]. intros Hok.
    destruct Hspec as (e & He & Hi). rewrite Hok in Hi by assumption.
    discriminate.
  - destruct Hspec as (Hok & Hnd & Hnames & Hslots). split.
    + intros _. exists result. repeat split; auto.
      * now apply Hnames.
      * now apply Hnames.
      * intros e He. rewrite <- Hslots. symmetry. now apply slots_named_in.
    + intros (e & He & Hi). rewrite Hok in Hi by assumption. discriminate.
Qed.

Lemma merge_fold configs : forall quantity fronts backs,
  fold_left (fun '(quantity, fronts, backs) config =>
    (quantity + AutofillData.quantity config,
     fronts ++ map (offsetSlots quantity) (AutofillData.fronts config),
     backs ++ map (offsetSlots quantity) (AutofillData.backs config)))
    configs (quantity, fronts, backs)
  = (quantity + list_sum (map AutofillData.quantity configs),
     fronts ++ shifted AutofillData.fronts quantity configs,
     backs ++ shifted AutofillData.backs quantity configs).
Proof.
  induction configs as [|c configs IH]; intros quantity fronts backs.
  - cbn. now rewrite Nat.add_0_r, !app_nil_r.
  - cbn [fold_left map shifted]. rewrite IH, <- !app_assoc.
    change (list_sum (?a :: ?l)) with (a + list_sum l).
    now rewrite Nat.add_assoc.
Qed.

Lemma shifted_names side configs : forall offset name,
  In name (map AutofillEntry.name (shifted side offset configs)) ->
  exists c e, In c configs /\ In e (side c) /\ AutofillEntry.name e = name.
Proof.
  induction configs as [|c configs IH]; intros offset name; [easy|].
  cbn [shifted]. rewrite map_app, in_app_iff, map_map. intros [Hin|Hin].
  - apply in_map_iff in Hin as (e & <- & He).
    exists c, e. repeat split; auto. now left.
  - apply IH in Hin as (c' & e & Hc & He & En).
    exists c', e. repeat split; auto. now right.
Qed.

Lemma shifted_cover side configs :
  (forall c, In c configs ->
     forall s, s < AutofillData.quantity c -> In s (all_slots (side c))) ->
  forall offset s,
    offset <= s < offset + list_sum (map AutofillData.quantity configs) ->
    In s (all_slots (shifted side offset configs)).
Proof.
  intros Hvalid.
  induction configs as [|c configs IH]; intros offset s Hs.
  - cbn in Hs. lia.
  - cbn [shifted map] in *.
    change (list_sum (?a :: ?l)) with (a + list_sum l) in Hs.
    unfold all_slots.
    rewrite flat_map_app, in_app_iff.
    destruct (Nat.lt_ge_cases s (offset + AutofillData.quantity c)) as [L|G].
    + left. assert (Hin : In (s - offset) (all_slots (side c))).
      { apply Hvalid; [now left|lia]. }
      unfold all_slots in Hin. apply in_flat_map in Hin as (e & He & Hse).
      apply in_flat_map. exists (offsetSlots offset e).
      split; [now apply in_map|].
      cbn [offsetSlots AutofillEntry.slots]. apply in_map_iff.
      exists (s - offset). split; [lia|exact Hse].
    + right. apply IH; [|lia].
      intros c' Hc'. apply Hvalid. now right.
Qed.

(** X27.  Merging configs that each pass [validateAutofillData], and whose
    names are not inherited from [Object.prototype], gives data that passes
    it too; its quantity is the sum of the quantities, and no name occurs
    twice among its fronts, nor among its backs. *)
Theorem mergeAutofillData_valid configs :
  (forall c, In c configs -> validateAutofillData c = inr tt) ->
  (forall c e, In c configs ->
     In e (AutofillData.fronts c ++ AutofillData.backs c) ->
     inherited (AutofillEntry.name e) = false) ->
  exists merged,
    mergeAutofillData inherited configs = inr merged
    /\ AutofillData.quantity merged
       = list_sum (map AutofillData.quantity configs)
    /\ validateAutofillData merged = inr tt
    /\ List.NoDup (map AutofillEntry.name (AutofillData.fronts merged))
    /\ List.NoDup (map AutofillEntry.name (AutofillData.backs merged)).
Proof.
  intros Hvalid Hnames. unfold mergeAutofillData.
  rewrite merge_fold. cbn [app Nat.add].
  set (fronts := shifted AutofillData.fronts 0 configs).
  set (backs := shifted AutofillData.backs 0 configs).
  pose proof (deduplicate_spec fronts) as Hf.
  pose proof (deduplicate_spec backs) as Hb.
  destruct (deduplicate inherited fronts) as [e|fronts'].
  { destruct Hf as (e' & He' & Hi). exfalso.
    assert (Hn : In (AutofillEntry.name e') (map AutofillEntry.name fronts))
      by now apply in_map.
    apply shifted_names in Hn as (c & e0 & Hc & He0 & En).
    rewrite <- En, (Hnames c e0) in Hi; auto; [discriminate|].
    apply in_app_iff. now left. }
  destruct (deduplicate inherited backs) as [e|backs'].
  { destruct Hb as (e' & He' & Hi). exfalso.
    assert (Hn : In (AutofillEntry.name e') (map AutofillEntry.name backs))
      by now apply in_map.
    apply shifted_names in Hn as (c & e0 & Hc & He0 & En).
    rewrite <- En, (Hnames c e0) in Hi; auto; [discriminate|].
    apply in_app_iff. now right. }
  destruct Hf as (_ & Hndf & _ & Hsf). destruct Hb as (_ & Hndb & _ & Hsb).
  eexists. split; [reflexivity|].
  cbn [AutofillData.quantity AutofillData.fronts AutofillData.backs].
  repeat split; auto.
  apply validate_accepts.
  cbn [AutofillData.quantity AutofillData.fronts AutofillData.backs].
  intros s Hs. split.
  - apply all_slots_named.
    assert (Hin : In s (all_slots fronts)).
    { apply shifted_cover; [|lia]. intros c Hc s' Hs'.
      now apply (proj1 (validate_accepts c) (Hvalid c Hc)). }
    apply all_slots_named in Hin as (name & Hin). exists name.
    now rewrite Hsf.
  - apply all_slots_named.
    assert (Hin : In s (all_slots backs)).
    { apply shifted_cover; [|lia]. intros c Hc s' Hs'.
      now apply (proj1 (validate_accepts c) (Hvalid c Hc)). }
    apply all_slots_named in Hin as (name & Hin). exists name.
    now rewrite Hsb.
Qed.

End AutofillFacts.

(** ** layout.ts: getRenames *)

Section RenameFacts.

Variable parseInt : String.string -> option Z.





















End RenameFacts.

(** ** layout.ts: cardNames *)

Lemma combine_imap {A B C D : Type} (h : B -> C -> D) (l : list A) :
  forall (f : nat -> A -> B) (g : nat -> A -> C),
  map (fun fb => h (fst fb) (snd fb)) (combine (imap f l) (imap g l))
  = imap (fun k x => h (f k x) (g k x)) l.
Proof.
  induction l as [|x l IH]; intros f g; [reflexivity|].
  cbn [imap combine map fst snd]. f_equal. apply IH.
Qed.

Lemma pages_imap {A B : Type} (g : nat -> A -> B) n
  (layout : list (list (list A))) : forall p0,
  Forall (fun page => length (concat page) = n) layout ->
  concat (imap (fun pageIndex pageLayout =>
    imap (fun itemIndex item => g ((p0 + pageIndex) * n + itemIndex) item)
      (concat pageLayout)) layout)
  = imap (fun k item => g (p0 * n + k) item) (concat (map (@concat A) layout)).
Proof.
  induction layout as [|page layout IH]; intros p0 Hn; [reflexivity|].
  apply Forall_cons_iff in Hn as [Hpage Hrest].
  cbn [imap concat map]. rewrite imap_app, Hpage. f_equal.
  - apply imap_ext. intros i item _. f_equal. lia.
  - rewrite (imap_ext _ (fun pageIndex pageLayout =>
      imap (fun itemIndex item =>
              g ((S p0 + pageIndex) * n + itemIndex) item)
        (concat pageLayout))).
    + rewrite (IH (S p0) Hrest). apply imap_ext. intros k item _.
      f_equal. lia.
    + intros p pg _. cbn. apply imap_ext. intros i item _. f_equal. lia.
Qed.

(** X30.  [cardNames] throws a TypeError on an empty layout.  On a layout
    whose pages all hold as many items as the first, it returns one card
    for each item, in reading order, and the card of the [k]-th item has the
    names that [fullName] gives for the item's front and back at the slot
    number [k]. *)
Theorem cardNames_slots first rest fullName :
  let layout := first :: rest in
  let items := concat (map (@concat LayoutItem.t) layout) in
  cardNames [] fullName = inl TypeError
  /\ (Forall (fun page => length (concat page) = length (concat first))
        rest ->
      exists cards,
        cardNames layout fullName = inr cards
        /\ length cards = length items
        /\ forall k item, items !! k = Some item ->
             cards !! k
             = Some (CardImage.mk
                       (fullName (LayoutItem.front item)
                          (Some (Z.of_nat k)) Front)
                       (fullName (LayoutItem.back item)
                          (Some (Z.of_nat k)) Back))).
Proof.
  cbv zeta. split; [reflexivity|]. intros Hrest.
  assert (Hall : Forall (fun page => length (concat page)
                                     = length (concat first))
                   (first :: rest)) by (constructor; auto).
  unfold cardNames.
  pose proof (pages_imap
    (fun k item => fullName (LayoutItem.front item) (Some (Z.of_nat k)) Front)
    (length (concat first)) (first :: rest) 0 Hall) as Hf.
  pose proof (pages_imap
    (fun k item => fullName (LayoutItem.back item) (Some (Z.of_nat k)) Back)
    (length (concat first)) (first :: rest) 0 Hall) as Hb.
  cbn [Nat.add Nat.mul] in Hf, Hb. rewrite Hf, Hb, combine_imap.
  eexists. split; [reflexivity|]. split; [apply length_imap|].
  intros k item Hk. now rewrite list_lookup_imap, Hk.
Qed.

(** ** autofill.ts: the size bracket *)

(** For a quantity of at most 612 the bracket is the least batch
    size that holds the quantity; above 612 no batch size does, and the
    bracket is [undefined]. *)
Lemma sizeBracket_least quantity :
  (quantity <= 612 ->
   exists bracket,
     sizeBracket quantity = Some bracket
     /\ In bracket MPC_BRACKETS /\ quantity <= bracket
     /\ forall other, In other MPC_BRACKETS -> quantity <= other ->
          bracket <= other)
  /\ (612 < quantity -> sizeBracket quantity = None).
Proof.
  unfold sizeBracket, JS.find, MPC_BRACKETS. split.
  - intros Hq. cbn [List.find].
    repeat match goal with
    | |- context [quantity <=? ?b] =>
        destruct (Nat.leb_spec quantity b);
        [ eexists; split; [reflexivity|];
          split; [cbn; tauto|]; split; [assumption|];
          intros other Hin Hle; cbn in Hin;
          repeat (destruct Hin as [<-|Hin]; [lia|]); destruct Hin
        | ]
    end.
    lia.
  - intros Hq. cbn [List.find].
    repeat match goal with
    | |- context [quantity <=? ?b] =>
        destruct (Nat.leb_spec quantity b); [lia|]
    end.
    reflexivity.
Qed.

(** ** The further properties at concrete inputs *)

Lemma getPixel_setPixel_witness :
  getPixel
    (data (setPixel four_colors 1 1 (JS.num 300) (JS.num 8) (JS.num (-7))
             (JS.num 255))) 2 1 1
  = (JS.num 255, JS.num 8, JS.num 0, JS.num 255)
  /\ getPixel
       (data (setPixel four_colors 0 1 (JS.num 9) (JS.num 8) (JS.num 7)
                (JS.num 6))) 2 0 1
     = (JS.num 9, JS.num 8, JS.num 7, JS.num 6).
Proof.
  split.
  - destruct (getPixel_setPixel four_colors 1 1 (JS.num 300) (JS.num 8)
                (JS.num (-7)) (JS.num 255)) as [E _]; [cbn; lia|].
    etransitivity; [exact E|]. vm_compute. reflexivity.
  - destruct (getPixel_setPixel four_colors 0 1 (JS.num 9) (JS.num 8)
                (JS.num 7) (JS.num 6)) as [_ E]; [cbn; lia|].
    apply (E 9 8 7 6)%Z; reflexivity.
Defined.

Lemma setPixel_frame_witness :
  getPixel
    (data (setPixel four_colors 0 0 (JS.num 9) (JS.num 8) (JS.num 7)
             (JS.num 6))) 2 1 1
  = getPixel (data four_colors) 2 1 1.
Proof.
  apply (setPixel_frame four_colors 0 0 (JS.num 9) (JS.num 8) (JS.num 7)
           (JS.num 6) 1 1); [cbn; lia | cbn; lia | discriminate].
Defined.

Lemma hasColor_bytes_witness :
  hasColor (data four_colors) 2 1 0
    (JS.num 2, JS.num 2, JS.num 2, JS.num 255) = true
  /\ hasColor (data four_colors) 2 0 2
       (JS.num 2, JS.num 2, JS.num 2, JS.num 255) <> true.
Proof.
  split.
  - apply (hasColor_bytes (data four_colors) 2 1 0 2 2 2 255);
      reflexivity.
  - intros E.
    apply (hasColor_bytes (data four_colors) 2 0 2 2 2 2 255) in E;
      [discriminate E | reflexivity | reflexivity].
Defined.

Lemma extendSides_shape_witness :
  width (extendSides four_colors down_then_left) = 2
  /\ height (extendSides four_colors down_then_left) = 2
  /\ length (data (extendSides four_colors down_then_left)) = 16
  /\ well_formed (extendSides four_colors down_then_left) = true.
Proof. apply (extendSides_shape four_colors down_then_left eq_refl). Defined.

Lemma extendSides_transparent_control_witness :
  extendSides four_colors clear_square = four_colors.
Proof.
  apply (extendSides_transparent_control four_colors clear_square eq_refl).
  intros x y Hx Hy. cbn in Hx, Hy.
  destruct x as [|[|x]], y as [|[|y]]; try lia; reflexivity.
Defined.

Lemma extendSides_frame_witness :
  getPixel (data (extendSides four_colors left_and_right)) 2 1 0
  = getPixel (data four_colors) 2 1 0.
Proof.
  apply (extendSides_frame four_colors left_and_right 1 0 eq_refl);
    [cbn; lia | cbn; lia | cbn; lia | cbn; lia |].
  intros x y d Hx Hy. cbn in Hx, Hy.
  destruct x as [|[|x]], y as [|[|y]]; try lia;
    vm_compute; intros [= <-] || discriminate; reflexivity.
Defined.

Lemma extendSides_colors_witness :
  exists x y, x < 2 /\ y < 2
    /\ getPixel (data (extendSides four_colors down_then_left)) 2 0 1
       = getPixel (data four_colors) 2 x y.
Proof.
  apply (extendSides_colors four_colors down_then_left 0 1 eq_refl);
    cbn; lia.
Defined.

Lemma refillCorner_frame_witness :
  exists result,
    refillCorner atan2_compass row_of_four two_centers true = Returned result
    /\ getPixel (data result) 4 3 0 = getPixel (data row_of_four) 4 3 0.
Proof.
  destruct (refillCorner atan2_compass row_of_four two_centers true)
    as [result|code|e heap] eqn:E;
    [|vm_compute in E; discriminate E|vm_compute in E; discriminate E].
  exists result. split; [reflexivity|].
  destruct (refillCorner_frame atan2_compass row_of_four two_centers true
              result eq_refl eq_refl eq_refl E) as (_ & _ & _ & Hkeep).
  apply (Hkeep 3 0); [cbn; lia | cbn; lia | reflexivity].
Defined.

Lemma refillCorner_returns_witness :
  exists result,
    refillCorner atan2_compass row_of_four two_centers false
    = Returned result
    /\ width result = 4 /\ height result = 1.
Proof.
  destruct (refillCorner_returns atan2_compass row_of_four two_centers
              false 0 0) as [Hedge _];
    [cbn; lia | cbn; lia | reflexivity |].
  apply Hedge. exists 3, 0. repeat split; cbn; lia.
Defined.




Lemma crop_pixels_witness :
  exists image,
    crop four_colors (Region.mk 1 0 1 2) = inr image
    /\ getPixel (data image) 1 0 1 = getPixel (data four_colors) 2 1 1.
Proof.
  destruct (crop_pixels four_colors (Region.mk 1 0 1 2) eq_refl)
    as (image & E & Hw & Hh & Hat).
  { repeat split; cbn; lia. }
  exists image. split; [exact E|].
  cbn in Hw, Hh. rewrite Hw in Hat.
  apply (Hat 0 1); [lia | lia | left; reflexivity].
Defined.

Lemma crop_whole_witness :
  crop four_colors (Region.mk 0 0 2 2) = inr four_colors.
Proof.
  apply (crop_whole four_colors eq_refl); [cbn; lia | cbn; lia |].
  intros i j Hi Hj. cbn in Hi, Hj.
  destruct i as [|[|i]], j as [|[|j]]; try lia; left; reflexivity.
Defined.

Lemma crop_crop_witness :
  exists mid image,
    crop six_colors (Region.mk 0 1 2 2) = inr mid
    /\ crop mid (Region.mk 1 1 1 1) = inr image
    /\ crop six_colors (Region.mk 1 2 1 1) = inr image.
Proof.
  destruct (crop six_colors (Region.mk 0 1 2 2)) as [e|mid] eqn:E;
    [vm_compute in E; discriminate E|].
  destruct (crop_crop six_colors (Region.mk 0 1 2 2) (Region.mk 1 1 1 1)
              mid eq_refl) as (image & E1 & E2).
  - intros i j Hi Hj. cbn in Hi, Hj.
    destruct i as [|[|i]], j as [|[|[|j]]]; try lia; left; reflexivity.
  - repeat split; cbn; lia.
  - exact E.
  - vm_compute in E. injection E as <-. repeat split; cbn; lia.
  - exists mid, image.
    split; [reflexivity|]. split; [exact E1 | exact E2].
Defined.

Lemma addBleedSolid_layout_witness :
  width (addBleedSolid white_only two_opaque 1 "#fff"%string) = 4
  /\ height (addBleedSolid white_only two_opaque 1 "#fff"%string) = 3
  /\ getPixel (data (addBleedSolid white_only two_opaque 1 "#fff"%string))
       4 2 1
     = getPixel (data two_opaque) 2 1 0
  /\ bytes_at (data (addBleedSolid white_only two_opaque 1 "#fff"%string))
       4 0 0
     = (Some 255, Some 255, Some 255, Some 255)%Z
  /\ bytes_at (data (addBleedSolid white_only one_clear 1 "none"%string))
       3 1 1
     = (Some 0, Some 0, Some 0, Some 0)%Z
  /\ bytes_at (data (addBleedSolid white_only one_clear 1 "none"%string))
       3 2 2
     = (Some 0, Some 0, Some 0, Some 255)%Z.
Proof.
  destruct (addBleedSolid_layout white_only two_opaque 1 "#fff"%string
              eq_refl) as (Hw & Hh & Hin & _ & Hout & _).
  destruct (addBleedSolid_layout white_only one_clear 1 "none"%string
              eq_refl) as (_ & _ & _ & Hclear & Hout' & _).
  split; [exact Hw|]. split; [exact Hh|].
  split; [apply (Hin 1 0); [cbn; lia | cbn; lia | left; reflexivity]|].
  split;
    [apply (Hout 0 0); [cbn; lia | cbn; lia | cbn; lia | reflexivity]|].
  split; [apply (Hclear 0 0); [cbn; lia | cbn; lia | reflexivity]|].
  apply (Hout' 2 2); [cbn; lia | cbn; lia | cbn; lia | reflexivity].
Defined.

Lemma extendCorners_small_witness :
  exists stop,
    extendCorners atan2_compass one_opaque one_opaque = stop
    /\ forall image, stop <> Normal image.
Proof.
  apply (extendCorners_small atan2_compass one_opaque one_opaque).
  left. cbn. lia.
Defined.

Lemma extendCorners_frame_witness :
  exists image,
    extendCorners atan2_compass sixteen_colors corner_marks = Normal image
    /\ width image = 4 /\ height image = 4
    /\ getPixel (data image) 4 3 2 = getPixel (data sixteen_colors) 4 3 2.
Proof.
  destruct (extendCorners atan2_compass sixteen_colors corner_marks)
    as [image|code|e] eqn:E;
    [|vm_compute in E; discriminate E|vm_compute in E; discriminate E].
  exists image. split; [reflexivity|].
  destruct (extendCorners_frame atan2_compass sixteen_colors corner_marks
              image eq_refl eq_refl eq_refl eq_refl E) as (Hw & Hh & Hkeep).
  split; [exact Hw|]. split; [exact Hh|].
  apply (Hkeep 3 2);
    [cbn; lia | cbn; lia | left; reflexivity | left; reflexivity
    | discriminate].
Defined.

Lemma extendCorners_centers_witness :
  Forall (fun segment : Segment =>
    let '(_, fromX, toX, fromY, toY) := segment in
    exists X Y, fromX <= X < toX /\ fromY <= Y < toY
      /\ bytes_at (data corner_marks) 4 X Y
         = (Some 0, Some 255, Some 0, Some 255)%Z)
    (segments 4 4).
Proof.
  destruct (extendCorners atan2_compass sixteen_colors corner_marks)
    as [image|code|e] eqn:E;
    [|vm_compute in E; discriminate E|vm_compute in E; discriminate E].
  apply (extendCorners_centers atan2_compass sixteen_colors corner_marks
           image eq_refl); [|reflexivity|reflexivity|exact E].
  intros i j Hi Hj. cbn in Hi, Hj.
  destruct i as [|[|[|[|i]]]], j as [|[|[|[|j]]]]; try lia;
    (left; reflexivity) || (right; reflexivity).
Defined.

Lemma preprocessCombat_layout_witness :
  width (preprocessCombat down_then_left four_colors) = 74
  /\ height (preprocessCombat down_then_left four_colors) = 74
  /\ getPixel (data (preprocessCombat down_then_left four_colors)) 74 36 37
     = getPixel (data (extendSides four_colors down_then_left)) 2 0 1.
Proof.
  destruct (preprocessCombat_layout down_then_left four_colors eq_refl)
    as (Hw & Hh & Hat).
  - intros i j Hi Hj. cbn in Hi, Hj.
    destruct i as [|[|i]], j as [|[|j]]; try lia; left; reflexivity.
  - cbn; lia.
  - cbn; lia.
  - split; [exact Hw|]. split; [exact Hh|].
    apply (Hat 0 1); cbn; lia.
Defined.

Lemma deduplicate_merges_witness :
  (exists result,
     deduplicate in_prototype
       [AutofillEntry.mk "a" "" [0; 2]; AutofillEntry.mk "b" "" [1];
        AutofillEntry.mk "a" "" [3]]%string = inr result
     /\ forall e, In e result -> AutofillEntry.name e = "a"%string ->
          AutofillEntry.slots e = [0; 2; 3])
  /\ deduplicate in_prototype
       [AutofillEntry.mk "a" "" [0];
        AutofillEntry.mk "toString" "" [1]]%string
     = inl TypeError.
Proof.
  split.
  - destruct (deduplicate_merges in_prototype
                [AutofillEntry.mk "a" "" [0; 2]; AutofillEntry.mk "b" "" [1];
                 AutofillEntry.mk "a" "" [3]]%string) as [Hown _].
    destruct Hown as (result & E & _ & _ & Hslots).
    { intros e [<-|[<-|[<-|[]]]]; reflexivity. }
    exists result. split; [exact E|].
    intros e He Hname. rewrite (Hslots e He), Hname. reflexivity.
  - destruct (deduplicate_merges in_prototype
                [AutofillEntry.mk "a" "" [0];
                 AutofillEntry.mk "toString" "" [1]]%string) as [_ Hthrows].
    apply Hthrows. exists (AutofillEntry.mk "toString" "" [1])%string.
    split; [right; left; reflexivity | reflexivity].
Defined.

Lemma mergeAutofillData_valid_witness :
  exists merged,
    mergeAutofillData in_prototype [deck_one; deck_two] = inr merged
    /\ AutofillData.quantity merged = 5
    /\ validateAutofillData merged = inr tt
    /\ List.NoDup (map AutofillEntry.name (AutofillData.fronts merged))
    /\ List.NoDup (map AutofillEntry.name (AutofillData.backs merged)).
Proof.
  apply (mergeAutofillData_valid in_prototype [deck_one; deck_two]).
  - intros c [<-|[<-|[]]]; reflexivity.
  - intros c e [<-|[<-|[]]] He; vm_compute in He;
      repeat (destruct He as [<-|He]; [reflexivity|]); destruct He.
Defined.


Lemma cardNames_slots_witness :
  exists cards,
    cardNames
      [[[LayoutItem.mk "a" "x"; LayoutItem.mk "b" "x"]];
       [[LayoutItem.mk "c" "y"]; [LayoutItem.mk "d" "y"]]]%string
      side_name = inr cards
    /\ cards !! 3 = Some (CardImage.mk "d-front" "y-back")%string.
Proof.
  destruct (cardNames_slots
              [[LayoutItem.mk "a" "x"; LayoutItem.mk "b" "x"]]%string
              [[[LayoutItem.mk "c" "y"]; [LayoutItem.mk "d" "y"]]]%string
              side_name) as [_ Heven].
  destruct Heven as (cards & E & _ & Hat).
  { repeat constructor. }
  exists cards. split; [exact E|].
  apply (Hat 3 (LayoutItem.mk "d" "y")%string). reflexivity.
Defined.
